(** * Slingshot: the simulation core of the hexagonal bubble shooter

    A shallow embedding of the game logic of the [GeminiSlingshot]
    component: the offset-hex grid ([getBubblePos], [isNeighbor]), the
    bubble field ([initGrid], [dropCeiling]), the match engine
    ([checkMatches]), the targeting test ([isPathClear]) and the part of
    the per-frame handler [onResults] that drives the slingshot
    (resize, aiming, release, landing).

    Numbers.  Row and column indices, time stamps and the score are
    integer-valued JavaScript numbers and are modelled in [Z]; the combo
    multiplier is a rational ([Q]).  Pixel coordinates, distances and
    velocities are JavaScript doubles; they are modelled as real numbers
    ([R]) with exact arithmetic, so IEEE rounding is abstracted away.
    [Infinity] is written out where the source uses it ([bestDist]).

    Mutable refs ([bubbles.current], [ballPos.current], ...) become the
    fields of one [Game] record that every operation takes and returns.
    Bubble objects are shared between [bubbles.current] and the local
    arrays of [checkMatches]; the identity of an object is its [id]
    field, which the source builds to be unique. *)

From Stdlib Require Import ZArith QArith Qround Reals Bool List Lia Lra Psatz.
From Stdlib Require Import Permutation.
Import ListNotations.

Close Scope Q_scope.
Open Scope R_scope.

(** ** Constants *)

Definition BUBBLE_RADIUS : R := 22.
Definition ROW_HEIGHT : R := BUBBLE_RADIUS * sqrt 3.
Definition GRID_COLS : Z := 12.
Definition SLINGSHOT_BOTTOM_OFFSET : R := 220.
Definition PINCH_THRESHOLD : R := 5 / 100.

Definition MAX_DRAG_DIST : R := 180.
Definition MIN_FORCE_MULT : R := 15 / 100.
Definition MAX_FORCE_MULT : R := 45 / 100.

(** ** Data model *)

Inductive BubbleColor : Type :=
  | red | blue | green | yellow | purple | orange.

Definition BubbleColor_eqb (c d : BubbleColor) : bool :=
  match c, d with
  | red, red | blue, blue | green, green
  | yellow, yellow | purple, purple | orange, orange => true
  | _, _ => false
  end.

Definition COLOR_KEYS : list BubbleColor :=
  [red; blue; green; yellow; purple; orange].

(** [COLOR_CONFIG[color].points] *)
Definition points (c : BubbleColor) : Z :=
  match c with
  | red => 100 | blue => 150 | green => 200
  | yellow => 250 | purple => 300 | orange => 500
  end.

(** Bubble ids are strings built from two templates:
    [`${r}-${c}-${Date.now()}`] (grid initialisation and landing) and
    [`new-${Date.now()}-${c}`] (a row added by the ceiling drop).  For the
    non-negative numbers the game produces the two templates never yield
    the same string and each is injective in its numbers, so an id is
    represented by its template and numbers. *)
Inductive BubbleId : Type :=
  | IdCell (r c t : Z)
  | IdNew (t c : Z).

Definition BubbleId_eqb (i j : BubbleId) : bool :=
  match i, j with
  | IdCell r c t, IdCell r' c' t' => (r =? r')%Z && (c =? c')%Z && (t =? t')%Z
  | IdNew t c, IdNew t' c' => (t =? t')%Z && (c =? c')%Z
  | _, _ => false
  end.

Record Point : Type := mkPoint { px : R; py : R }.

Record Bubble : Type := mkBubble {
  id : BubbleId;
  row : Z;
  col : Z;
  x : R;
  y : R;
  color : BubbleColor;
  active : bool
}.

(** ** HexGrid *)

(** [row % 2 !== 0]; JavaScript's [%] truncates towards zero. *)
Definition isOddRow (r : Z) : bool := negb (Z.rem r 2 =? 0)%Z.

Definition getBubblePos (r c : Z) (width : R) : Point :=
  let xOffset := (width - IZR GRID_COLS * BUBBLE_RADIUS * 2) / 2 + BUBBLE_RADIUS in
  let x := xOffset + IZR c * (BUBBLE_RADIUS * 2)
           + (if isOddRow r then BUBBLE_RADIUS else 0) in
  let y := BUBBLE_RADIUS + IZR r * ROW_HEIGHT in
  mkPoint x y.

(** [r % 2 !== 0 ? GRID_COLS - 1 : GRID_COLS] *)
Definition colsInRow (r : Z) : Z :=
  if isOddRow r then (GRID_COLS - 1)%Z else GRID_COLS.

Definition isNeighborCell (ar ac br bc : Z) : bool :=
  let dr := (br - ar)%Z in
  let dc := (bc - ac)%Z in
  if (Z.abs dr >? 1)%Z then false
  else if (dr =? 0)%Z then (Z.abs dc =? 1)%Z
  else if isOddRow ar then (dc =? 0)%Z || (dc =? 1)%Z
  else (dc =? -1)%Z || (dc =? 0)%Z.

Definition isNeighbor (a b : Bubble) : bool :=
  isNeighborCell (row a) (col a) (row b) (col b).


(** ** Numeric helpers standing for JavaScript primitives *)

(** [a < b] and [a <= b] on numbers, as booleans. *)
Definition Rltb (a b : R) : bool := if Rlt_dec a b then true else false.
Definition Rleb (a b : R) : bool := if Rle_dec a b then true else false.

(** [Math.ceil] *)
Definition Math_ceil (r : R) : Z := (- Int_part (- r))%Z.

(** [Math.atan2(y, x)] *)
Definition Math_atan2 (y x : R) : R :=
  if Rlt_dec 0 x then atan (y / x)
  else if Rlt_dec x 0 then
    (if Rle_dec 0 y then atan (y / x) + PI else atan (y / x) - PI)
  else if Rlt_dec 0 y then PI / 2
  else if Rlt_dec y 0 then - (PI / 2)
  else 0.

(** The integers [lo], [lo + 1], ..., [hi - 1]: the values a counting
    [for] loop runs through. *)
Definition zrange (lo hi : Z) : list Z :=
  map (fun k => (lo + Z.of_nat k)%Z) (seq 0 (Z.to_nat (hi - lo))).

(** [COLOR_KEYS[Math.floor(Math.random() * COLOR_KEYS.length)]]: the
    floored draw is an index below [COLOR_KEYS.length]; it is supplied by
    the caller. *)
Definition randomColor (draw : nat) : BubbleColor := nth draw COLOR_KEYS red.

(** ** Game state *)

Record Game : Type := mkGame {
  bubbles : list Bubble;
  anchorPos : Point;
  ballPos : Point;
  ballVel : Point;
  isPinching : bool;
  isFlying : bool;
  flightStartTime : R;
  score : Z;
  selectedColor : BubbleColor;
  isGameOver : bool;
  canvasWidth : Z;
  canvasHeight : Z
}.

Definition set_bubbles (bs : list Bubble) (g : Game) : Game :=
  mkGame bs (anchorPos g) (ballPos g) (ballVel g) (isPinching g) (isFlying g)
         (flightStartTime g) (score g) (selectedColor g) (isGameOver g)
         (canvasWidth g) (canvasHeight g).

Definition set_anchorPos (p : Point) (g : Game) : Game :=
  mkGame (bubbles g) p (ballPos g) (ballVel g) (isPinching g) (isFlying g)
         (flightStartTime g) (score g) (selectedColor g) (isGameOver g)
         (canvasWidth g) (canvasHeight g).

Definition set_ballPos (p : Point) (g : Game) : Game :=
  mkGame (bubbles g) (anchorPos g) p (ballVel g) (isPinching g) (isFlying g)
         (flightStartTime g) (score g) (selectedColor g) (isGameOver g)
         (canvasWidth g) (canvasHeight g).

Definition set_ballVel (v : Point) (g : Game) : Game :=
  mkGame (bubbles g) (anchorPos g) (ballPos g) v (isPinching g) (isFlying g)
         (flightStartTime g) (score g) (selectedColor g) (isGameOver g)
         (canvasWidth g) (canvasHeight g).

Definition set_isPinching (b : bool) (g : Game) : Game :=
  mkGame (bubbles g) (anchorPos g) (ballPos g) (ballVel g) b (isFlying g)
         (flightStartTime g) (score g) (selectedColor g) (isGameOver g)
         (canvasWidth g) (canvasHeight g).

Definition set_isFlying (b : bool) (g : Game) : Game :=
  mkGame (bubbles g) (anchorPos g) (ballPos g) (ballVel g) (isPinching g) b
         (flightStartTime g) (score g) (selectedColor g) (isGameOver g)
         (canvasWidth g) (canvasHeight g).

Definition set_flightStartTime (t : R) (g : Game) : Game :=
  mkGame (bubbles g) (anchorPos g) (ballPos g) (ballVel g) (isPinching g)
         (isFlying g) t (score g) (selectedColor g) (isGameOver g)
         (canvasWidth g) (canvasHeight g).

Definition set_score (s : Z) (g : Game) : Game :=
  mkGame (bubbles g) (anchorPos g) (ballPos g) (ballVel g) (isPinching g)
         (isFlying g) (flightStartTime g) s (selectedColor g) (isGameOver g)
         (canvasWidth g) (canvasHeight g).

Definition set_isGameOver (b : bool) (g : Game) : Game :=
  mkGame (bubbles g) (anchorPos g) (ballPos g) (ballVel g) (isPinching g)
         (isFlying g) (flightStartTime g) (score g) (selectedColor g) b
         (canvasWidth g) (canvasHeight g).

Definition set_canvas (w h : Z) (g : Game) : Game :=
  mkGame (bubbles g) (anchorPos g) (ballPos g) (ballVel g) (isPinching g)
         (isFlying g) (flightStartTime g) (score g) (selectedColor g)
         (isGameOver g) w h.

(** ** BubbleField *)

(** [initGrid(width, lvl, stg)].  The two [Math.random()] draws of a cell
    are inputs: [gapDraw r c] is compared with the stage's gap chance and
    [colorDraw r c] is the floored colour index.  [clock r c] is
    [Date.now()] when the cell is created. *)
Inductive GameStage : Type := sea | island | volcano.

Definition gapChance (stg : GameStage) : R :=
  match stg with sea => 15 / 100 | island => 1 / 10 | volcano => 5 / 100 end.

Definition initCell (width : R) (stg : GameStage)
    (gapDraw : Z -> Z -> R) (colorDraw : Z -> Z -> nat) (clock : Z -> Z -> Z)
    (r c : Z) : list Bubble :=
  if Rltb (gapChance stg) (gapDraw r c) then
    let p := getBubblePos r c width in
    [mkBubble (IdCell r c (clock r c)) r c (px p) (py p)
              (randomColor (colorDraw r c)) true]
  else [].

Definition initGrid (width : R) (stg : GameStage)
    (gapDraw : Z -> Z -> R) (colorDraw : Z -> Z -> nat) (clock : Z -> Z -> Z)
    (g : Game) : Game :=
  let baseRows := 4%Z in
  let newBubbles :=
    flat_map (fun r =>
      flat_map (initCell width stg gapDraw colorDraw clock r)
               (zrange 0 (colsInRow r)))
      (zrange 0 baseRows) in
  set_bubbles newBubbles g.

(** Step 1 of [dropCeiling]: the in-place update of one existing bubble. *)
Definition shiftDown (width : R) (b : Bubble) : Bubble :=
  let r := (row b + 1)%Z in
  let p := getBubblePos r (col b) width in
  mkBubble (id b) r (col b) (px p) (py p) (color b) (active b).

(** Step 2 of [dropCeiling]: the bubble created for column [c] of row 0. *)
Definition newRowBubble (width : R) (clock : Z -> Z) (colorDraw : Z -> nat)
    (c : Z) : Bubble :=
  let p := getBubblePos 0 c width in
  mkBubble (IdNew (clock c) c) 0 c (px p) (py p) (randomColor (colorDraw c)) true.

(** [bubbles.current.reduce((max, b) => Math.max(max, b.y), 0)] *)
Definition lowestBubbleY (bs : list Bubble) : R :=
  fold_left (fun mx b => Rmax mx (y b)) bs 0.

(** The same reduction as [getPsychometrics] writes it:
    [reduce((max, b) => b.active ? Math.max(max, b.y) : max, 0)]. *)
Definition lowestActiveBubbleY (bs : list Bubble) : R :=
  fold_left (fun mx b => if active b then Rmax mx (y b) else mx) bs 0.

(** [dropCeiling(width)].  Sound, screen shake and the recomputation of
    the colour palette shown to the player are presentation and are left
    out. *)
Definition dropCeiling (width : R) (clock : Z -> Z) (colorDraw : Z -> nat)
    (g : Game) : Game :=
  let shifted := map (shiftDown width) (bubbles g) in
  let colsInRow0 := GRID_COLS in
  let newRowBubbles :=
    map (newRowBubble width clock colorDraw) (zrange 0 colsInRow0) in
  let bs := newRowBubbles ++ shifted in
  let dangerY := py (anchorPos g) - 150 in
  let lowestBubble := lowestBubbleY bs in
  let g1 := set_bubbles bs g in
  if Rltb dangerY lowestBubble then set_isGameOver true g1 else g1.

(** ** MatchEngine *)

(** [visited.has(id)] on the set of visited ids. *)
Definition visitedHas (visited : list BubbleId) (i : BubbleId) : bool :=
  existsb (BubbleId_eqb i) visited.

Arguments visitedHas : simpl never.

(** The [while (toCheck.length > 0)] loop of [checkMatches].  The stack
    [toCheck] has its top at the head of the list: [pop()] takes the head
    and [push(...neighbors)] leaves the last neighbour on top.  [fuel]
    bounds the number of iterations; [None] means it ran out. *)
Fixpoint checkLoop (fuel : nat) (bs : list Bubble) (targetColor : BubbleColor)
    (toCheck : list Bubble) (visited : list BubbleId) (matches : list Bubble)
    : option (list Bubble) :=
  match fuel with
  | O => None
  | S fuel' =>
    match toCheck with
    | [] => Some matches
    | current :: rest =>
      if visitedHas visited (id current) then
        checkLoop fuel' bs targetColor rest visited matches
      else
        let visited' := id current :: visited in
        if BubbleColor_eqb (color current) targetColor then
          let neighbors :=
            filter (fun b => active b && negb (visitedHas visited' (id b))
                             && isNeighbor current b) bs in
          checkLoop fuel' bs targetColor (rev neighbors ++ rest) visited'
                    (matches ++ [current])
        else
          checkLoop fuel' bs targetColor rest visited' matches
    end
  end.

(** Enough iterations for any run of the loop over [bs]. *)
Definition checkFuel (bs : list Bubble) : nat :=
  (2 + length bs * S (length bs))%nat.

(** The array [matches] when the loop of [checkMatches] ends. *)
Definition findMatches (bs : list Bubble) (startBubble : Bubble)
    : option (list Bubble) :=
  checkLoop (checkFuel bs) bs (color startBubble) [startBubble] [] [].

(** [matches.forEach(b => { b.active = false; ... })]: the objects of
    [matches] are objects of [bubbles.current], found again by their id. *)
Definition setInactive (b : Bubble) : Bubble :=
  mkBubble (id b) (row b) (col b) (x b) (y b) (color b) false.

Definition isMatched (matches : list Bubble) (b : Bubble) : bool :=
  existsb (fun m => BubbleId_eqb (id m) (id b)) matches.

Definition deactivate (matches : list Bubble) (bs : list Bubble) : list Bubble :=
  map (fun b => if isMatched matches b then setInactive b else b) bs.

(** [matches.length > 3 ? 1.5 : 1.0] *)
Definition comboMultiplier (n : nat) : Q :=
  if (3 <? n)%nat then (3 # 2)%Q else 1%Q.

(** [points] after [matches.forEach(b => { ...; points += basePoints })] *)
Definition sumPoints (basePoints : Z) (matches : list Bubble) : Z :=
  fold_left (fun pts _ => (pts + basePoints)%Z) matches 0%Z.

(** [Math.floor(points * multiplier)] *)
Definition scoreGain (matches : list Bubble) (targetColor : BubbleColor) : Z :=
  Qfloor (inject_Z (sumPoints (points targetColor) matches)
          * comboMultiplier (length matches))%Q.

(** [checkMatches(startBubble)]: the new state and the returned boolean.
    Sounds and explosion particles are presentation and are left out. *)
Definition checkMatches (startBubble : Bubble) (g : Game)
    : option (Game * bool) :=
  match findMatches (bubbles g) startBubble with
  | None => None
  | Some matches =>
    if (3 <=? length matches)%nat then
      let g1 := set_bubbles (deactivate matches (bubbles g)) g in
      Some (set_score (score g + scoreGain matches (color startBubble))%Z g1,
            true)
    else Some (g, false)
  end.

(** ** TargetingAnalyzer *)

(** The sample indices [i] of [for (let i = 1; i < steps - 2; i++)]. *)
Definition pathSteps (g : Game) (target : Bubble) : Z :=
  let dx := x target - px (anchorPos g) in
  let dy := y target - py (anchorPos g) in
  let distance := sqrt (dx * dx + dy * dy) in
  Math_ceil (distance / (BUBBLE_RADIUS / 2)).

Definition samplePoint (g : Game) (target : Bubble) (i : Z) : Point :=
  let startX := px (anchorPos g) in
  let startY := py (anchorPos g) in
  let dx := x target - startX in
  let dy := y target - startY in
  let t := IZR i / IZR (pathSteps g target) in
  mkPoint (startX + dx * t) (startY + dy * t).

(** The test of the inner loop: [b] is a live bubble other than the
    target whose centre is closer than [1.8 * BUBBLE_RADIUS] to [c]. *)
Definition blocksAt (target : Bubble) (c : Point) (b : Bubble) : bool :=
  if negb (active b) || BubbleId_eqb (id b) (id target) then false
  else
    let distSq := (px c - x b) ^ 2 + (py c - y b) ^ 2 in
    Rltb distSq ((BUBBLE_RADIUS * (18 / 10)) ^ 2).

(** [isPathClear(target)].  The guard [if (!anchorPos.current)] never
    fires: the ref always holds a point. *)
Definition isPathClear (g : Game) (target : Bubble) : bool :=
  let steps := pathSteps g target in
  forallb (fun i =>
             negb (existsb (blocksAt target (samplePoint g target i))
                           (bubbles g)))
          (zrange 1 (steps - 2)).

(** ** ProjectilePhysics: the slingshot part of [onResults] *)

(** What one frame receives from outside: the size of the container, the
    hand position and pinch distance computed from the landmarks ([None]
    when no hand is seen), whether the menu is open, and the clock. *)
Record Frame : Type := mkFrame {
  clientWidth : Z;
  clientHeight : Z;
  handPos : option Point;
  pinchDist : R;
  isMenuOpen : bool;
  now : R
}.

Definition anchorFor (w h : Z) : Point :=
  mkPoint (IZR w / 2) (IZR h - SLINGSHOT_BOTTOM_OFFSET).

(** The resize check at the top of [onResults]. *)
Definition resizeCanvas (f : Frame) (g : Game) : Game :=
  if negb (canvasWidth g =? clientWidth f)%Z
     || negb (canvasHeight g =? clientHeight f)%Z then
    let g1 := set_canvas (clientWidth f) (clientHeight f) g in
    let g2 := set_anchorPos (anchorFor (clientWidth f) (clientHeight f)) g1 in
    if negb (isFlying g2) && negb (isPinching g2)
    then set_ballPos (anchorPos g2) g2 else g2
  else g.

(** The ball follows the hand, clamped radially to [MAX_DRAG_DIST]. *)
Definition dragBall (h : Point) (g : Game) : Game :=
  let g1 := set_ballPos (mkPoint (px h) (py h)) g in
  let dragDx := px (ballPos g1) - px (anchorPos g1) in
  let dragDy := py (ballPos g1) - py (anchorPos g1) in
  let dragDist := sqrt (dragDx * dragDx + dragDy * dragDy) in
  if Rltb MAX_DRAG_DIST dragDist then
    let angle := Math_atan2 dragDy dragDx in
    set_ballPos (mkPoint (px (anchorPos g1) + cos angle * MAX_DRAG_DIST)
                         (py (anchorPos g1) + sin angle * MAX_DRAG_DIST)) g1
  else g1.

(** [stretchDist] of the release branch. *)
Definition stretchDist (g : Game) : R :=
  let dx := px (anchorPos g) - px (ballPos g) in
  let dy := py (anchorPos g) - py (ballPos g) in
  sqrt (dx * dx + dy * dy).

Definition velocityMultiplier (stretch : R) : R :=
  let powerRatio := Rmin (stretch / MAX_DRAG_DIST) 1 in
  MIN_FORCE_MULT + (MAX_FORCE_MULT - MIN_FORCE_MULT) * (powerRatio * powerRatio).

(** The release branch: launch, or cancel and snap back to the anchor. *)
Definition releaseBall (f : Frame) (g : Game) : Game :=
  let g1 := set_isPinching false g in
  let dx := px (anchorPos g1) - px (ballPos g1) in
  let dy := py (anchorPos g1) - py (ballPos g1) in
  let stretch := sqrt (dx * dx + dy * dy) in
  if Rltb 30 stretch then
    let g2 := set_flightStartTime (now f) (set_isFlying true g1) in
    let m := velocityMultiplier stretch in
    set_ballVel (mkPoint (dx * m) (dy * m)) g2
  else set_ballPos (anchorPos g1) g1.

(** The three-way branch of [onResults] that reads the hand. *)
Definition handleInput (f : Frame) (g : Game) : Game :=
  let canInteract := negb (isMenuOpen f) && negb (isGameOver g) in
  match handPos f with
  | Some h =>
    if canInteract && Rltb (pinchDist f) PINCH_THRESHOLD && negb (isFlying g)
    then
      let distToBall :=
        sqrt ((px h - px (ballPos g)) ^ 2 + (py h - py (ballPos g)) ^ 2) in
      let g1 := if negb (isPinching g) && Rltb distToBall 100
                then set_isPinching true g else g in
      if isPinching g1 then dragBall h g1 else g1
    else if canInteract && isPinching g
            && Rleb PINCH_THRESHOLD (pinchDist f)
    then releaseBall f g
    else if negb (isFlying g) && negb (isPinching g) then
      let dx := px (anchorPos g) - px (ballPos g) in
      let dy := py (anchorPos g) - py (ballPos g) in
      set_ballPos (mkPoint (px (ballPos g) + dx * (15 / 100))
                           (py (ballPos g) + dy * (15 / 100))) g
    else g
  | None =>
    if canInteract && isPinching g then releaseBall f g
    else if negb (isFlying g) && negb (isPinching g) then
      let dx := px (anchorPos g) - px (ballPos g) in
      let dy := py (anchorPos g) - py (ballPos g) in
      set_ballPos (mkPoint (px (ballPos g) + dx * (15 / 100))
                           (py (ballPos g) + dy * (15 / 100))) g
    else g
  end.

(** One frame up to the physics step: resize check, then input. *)
Definition frameInput (f : Frame) (g : Game) : Game :=
  handleInput f (resizeCanvas f g).

(** The frame leaves the canvas of [g] at its size. *)
Definition keepsCanvas (g : Game) (f : Frame) : Prop :=
  clientWidth f = canvasWidth g /\ clientHeight f = canvasHeight g.

(** [g'] differs from [g] in nothing the aiming reads or writes: what
    the rest of the program does between two runs of the input branch
    (ceiling drops, pops, restarts, colour changes, the flight of a ball
    that is not pinched) is of this kind as far as a pinched ball goes. *)
Definition sameDraw (g g' : Game) : Prop :=
  anchorPos g' = anchorPos g /\ ballPos g' = ballPos g /\
  isPinching g' = isPinching g.

(** The states met on a canvas that has kept its size since the ball was
    last free: any state in which the ball is not pinched, then frames
    that keep the canvas, with anything in between that leaves the draw
    alone.  While the ball is not flying the physics step of [onResults]
    changes nothing, so on such frames [frameInput] is the whole effect
    of a frame on the slingshot. *)
Inductive onFixedCanvas : Game -> Prop :=
  | fixed_free (g : Game) : isPinching g = false -> onFixedCanvas g
  | fixed_frame (g : Game) (f : Frame) :
      onFixedCanvas g -> keepsCanvas g f -> onFixedCanvas (frameInput f g)
  | fixed_other (g g' : Game) :
      onFixedCanvas g -> sameDraw g g' -> onFixedCanvas g'.

(** While Aiming the ball stays within [MAX_DRAG_DIST] of the anchor. *)
Definition drawClamped (g : Game) : Prop :=
  isPinching g = true -> stretchDist g <= MAX_DRAG_DIST.

(** [currentSpeed] as the physics step computes it. *)
Definition speed (v : Point) : R := sqrt (px v ^ 2 + py v ^ 2).

(** ** Landing resolution (the [if (collisionOccurred)] block) *)

Definition gridRows : Z := 8.

(** The five [best*] variables; [bestDist = None] is [Infinity]. *)
Record Best : Type := mkBest {
  bestDist : option R;
  bestRow : Z;
  bestCol : Z;
  bestX : R;
  bestY : R
}.

Definition initialBest : Best := mkBest None 0 0 0 0.

(** [bubbles.current.some(b => b.active && b.row === r && b.col === c)] *)
Definition occupied (bs : list Bubble) (r c : Z) : bool :=
  existsb (fun b => active b && (row b =? r)%Z && (col b =? c)%Z) bs.

(** [dist < bestDist] *)
Definition closerThan (dist : R) (best : option R) : bool :=
  match best with
  | None => true
  | Some d => Rltb dist d
  end.

(** The body of the inner loop for cell [(r, c)]. *)
Definition scanCell (g : Game) (width : R) (r : Z) (best : Best) (c : Z) : Best :=
  let p := getBubblePos r c width in
  if occupied (bubbles g) r c then best
  else
    let dist := sqrt ((px (ballPos g) - px p) ^ 2 + (py (ballPos g) - py p) ^ 2) in
    if closerThan dist (bestDist best)
    then mkBest (Some dist) r c (px p) (py p)
    else best.

Definition scanRow (g : Game) (width : R) (best : Best) (r : Z) : Best :=
  fold_left (scanCell g width r) (zrange 0 (colsInRow r)) best.

Definition scanGrid (g : Game) (width : R) : Best :=
  fold_left (scanRow g width) (zrange 0 (gridRows + 5)) initialBest.

Definition zeroPoint : Point := mkPoint 0 0.

(** The bubble built from the result of the scan. *)
Definition landedBubble (g : Game) (best : Best) (clock : Z) : Bubble :=
  mkBubble (IdCell (bestRow best) (bestCol best) clock)
           (bestRow best) (bestCol best) (bestX best) (bestY best)
           (selectedColor g) true.

(** The whole block: stop the flight, snap to the nearest free cell, push
    the new bubble, resolve matches, return the ball to the anchor. *)
Definition landBall (clock : Z) (g : Game) : option Game :=
  let g1 := set_isFlying false g in
  let best := scanGrid g1 (IZR (canvasWidth g1)) in
  let newBubble := landedBubble g1 best clock in
  let g2 := set_bubbles (bubbles g1 ++ [newBubble]) g1 in
  match checkMatches newBubble g2 with
  | None => None
  | Some (g3, _) =>
    Some (set_ballVel zeroPoint (set_ballPos (anchorPos g3) g3))
  end.

(** ** Notions the statements below are phrased with *)

(** The cluster of [seed] in the field [bs]: [seed] itself, and every
    live bubble of [seed]'s colour adjacent to a bubble already in the
    cluster. *)
Inductive inCluster (bs : list Bubble) (seed : Bubble) : Bubble -> Prop :=
  | cluster_seed : inCluster bs seed seed
  | cluster_step (b b' : Bubble) :
      inCluster bs seed b ->
      In b' bs -> active b' = true -> color b' = color seed ->
      isNeighbor b b' = true ->
      inCluster bs seed b'.

(** No two live bubbles of [bs] share a cell: the cells of the live
    bubbles, listed in order, have no repetition. *)
Definition cell (b : Bubble) : Z * Z := (row b, col b).

Definition cellsUnique (bs : list Bubble) : Prop :=
  NoDup (map cell (filter active bs)).

(** A decision procedure for lists of cells without repetition. *)
Definition cell_eqb (p q : Z * Z) : bool :=
  (fst p =? fst q)%Z && (snd p =? snd q)%Z.

Fixpoint distinctCells (l : list (Z * Z)) : bool :=
  match l with
  | [] => true
  | p :: l' => negb (existsb (cell_eqb p) l') && distinctCells l'
  end.

(** Every cell of the landing scan window holds a live bubble. *)
Definition windowFull (bs : list Bubble) : bool :=
  forallb (fun r => forallb (fun c => occupied bs r c) (zrange 0 (colsInRow r)))
          (zrange 0 (gridRows + 5)).

(** How many bubbles of [bs] have an id outside [visited]. *)
Definition unvisited (bs : list Bubble) (visited : list BubbleId) : nat :=
  length (filter (fun b => negb (visitedHas visited (id b))) bs).

(** Once the scan has found a cell, that cell is free. *)
Definition bestIsFree (bs : list Bubble) (best : Best) : Prop :=
  bestDist best <> None -> occupied bs (bestRow best) (bestCol best) = false.

(** What the loop of [checkMatches] keeps true of its three variables. *)
Definition loopInv (bs : list Bubble) (seed : Bubble)
    (toCheck : list Bubble) (visited : list BubbleId) (matches : list Bubble)
    : Prop :=
  (forall m, In m matches ->
     inCluster bs seed m /\ In (id m) visited /\ In m bs) /\
  (forall s, In s toCheck ->
     In s bs /\
     (s = seed \/
      (active s = true /\ exists m, In m matches /\ isNeighbor m s = true))) /\
  (forall m b, In m matches -> In b bs -> active b = true ->
     isNeighbor m b = true -> In (id b) visited \/ In b toCheck) /\
  (forall b, In b bs -> In (id b) visited -> color b = color seed ->
     In b matches) /\
  (In seed matches \/ In seed toCheck) /\
  NoDup (map id matches).

(** ** Sample states used to exercise the statements *)

Definition origin : Point := mkPoint 0 0.

Definition emptyGame : Game :=
  mkGame [] origin origin origin false false 0 0%Z red false 1000%Z 620%Z.

(** Four red bubbles side by side on row 0 and a blue one below them. *)
Definition redRow : list Bubble :=
  [ mkBubble (IdCell 0 0 1) 0 0 0 0 red true;
    mkBubble (IdCell 0 1 1) 0 1 0 0 red true;
    mkBubble (IdCell 0 2 1) 0 2 0 0 red true;
    mkBubble (IdCell 1 0 1) 1 0 0 0 blue true;
    mkBubble (IdCell 0 3 7) 0 3 0 0 red true ].

Definition redSeed : Bubble := mkBubble (IdCell 0 3 7) 0 3 0 0 red true.

Definition redGame : Game := set_bubbles redRow emptyGame.

(** The cluster of [redSeed] in [redRow], in the order the search finds it. *)
Definition redCluster : list Bubble :=
  [ mkBubble (IdCell 0 3 7) 0 3 0 0 red true;
    mkBubble (IdCell 0 2 1) 0 2 0 0 red true;
    mkBubble (IdCell 0 1 1) 0 1 0 0 red true;
    mkBubble (IdCell 0 0 1) 0 0 0 0 red true ].

(** Two blue bubbles and the seed: too small a cluster to pop. *)
Definition bluePair : list Bubble :=
  [ mkBubble (IdCell 0 0 1) 0 0 0 0 blue true;
    mkBubble (IdCell 0 1 1) 0 1 0 0 red true;
    mkBubble (IdCell 1 0 9) 1 0 0 0 blue true ].

Definition blueSeed : Bubble := mkBubble (IdCell 1 0 9) 1 0 0 0 blue true.

Definition blueGame : Game := set_bubbles bluePair emptyGame.

(** A field on a 1000 x 700 canvas (anchor at y = 480, danger line at
    y = 330): one live bubble on row 0 and one popped bubble left on
    row 8. *)
Definition bubbleAt (i : BubbleId) (r c : Z) (width : R) (k : BubbleColor)
    (a : bool) : Bubble :=
  mkBubble i r c (px (getBubblePos r c width)) (py (getBubblePos r c width)) k a.

Definition poppedLowGame : Game :=
  mkGame [ bubbleAt (IdCell 0 0 1) 0 0 1000 blue true;
           bubbleAt (IdCell 3 0 1) 8 0 1000 red false ]
         (anchorFor 1000 700) (anchorFor 1000 700) origin
         false false 0 300%Z red false 1000%Z 700%Z.

Definition sampleClock (c : Z) : Z := 5000%Z.
Definition sampleDraw (c : Z) : nat := Z.to_nat (c mod 6).

(** A resting slingshot on a 1000 x 620 canvas (anchor at (500, 400)),
    a frame that pinches the ball 60 units below the anchor, and two
    frames that let go: one on the same canvas, one after the container
    has shrunk to 1000 x 320 (anchor at (500, 100)). *)
Definition restGame : Game :=
  mkGame [] (anchorFor 1000 620) (anchorFor 1000 620) origin
         false false 0 0%Z red false 1000%Z 620%Z.

Definition aimFrame : Frame :=
  mkFrame 1000 620 (Some (mkPoint 500 460)) (1 / 100) false 0.

Definition releaseFrame : Frame :=
  mkFrame 1000 620 None 1 false 16.

Definition releaseFrameResized : Frame :=
  mkFrame 1000 320 None 1 false 16.

Definition aimedGame : Game :=
  mkGame [] (anchorFor 1000 620) (mkPoint 500 460) origin
         true false 0 0%Z red false 1000%Z 620%Z.

(** A shot straight up from the anchor (500, 400) at a red target at
    (500, 70), with a live blue bubble half-way, at (500, 235). *)
Definition pathTarget : Bubble := mkBubble (IdCell 0 5 1) 0 5 500 70 red true.
Definition pathBlocker : Bubble := mkBubble (IdCell 4 5 1) 4 5 500 235 blue true.

Definition pathGame : Game :=
  mkGame [pathTarget; pathBlocker] (mkPoint 500 400) (mkPoint 500 400) origin
         false false 0 0%Z red false 1000%Z 620%Z.

(** A field with a live bubble in every cell of rows 0..12, coloured so
    that no two adjacent bubbles have the same colour, on a 1000 x 1000
    canvas; the ball is flying and has just touched the bottom row. *)
Definition threeColour (r c : Z) : BubbleColor :=
  nth (Z.to_nat ((c - r / 2 - r) mod 3)) [red; blue; green] red.

Definition fullGrid : list Bubble :=
  flat_map (fun r =>
              map (fun c => bubbleAt (IdCell r c 1) r c 1000
                                     (threeColour r c) true)
                  (zrange 0 (colsInRow r)))
           (zrange 0 13).

Definition fullGame : Game :=
  mkGame fullGrid (anchorFor 1000 1000) (mkPoint 500 520) (mkPoint 0 (-20))
         false true 0 0%Z red false 1000%Z 1000%Z.

(** The bubble the landing block builds when its scan finds nothing. *)
Definition strayBubble : Bubble := mkBubble (IdCell 0 0 9000) 0 0 0 0 red true.

(** [fullGame] after the landing block has run. *)
Definition fullGameLanded : Game :=
  mkGame (fullGrid ++ [strayBubble]) (anchorFor 1000 1000) (anchorFor 1000 1000)
         zeroPoint false false 0 0%Z red false 1000%Z 1000%Z.

(** ** Further notions and parts of the component *)

(** The distance between two pixel positions. *)
Definition centreDist (p q : Point) : R :=
  sqrt ((px q - px p) ^ 2 + (py q - py p) ^ 2).

(** 1 on the rows that are shifted right by one radius, 0 on the others. *)
Definition rowShift (r : Z) : Z := if isOddRow r then 1%Z else 0%Z.

(** The squared distance between two cells, in units of one radius. *)
Definition cellGap (r c r' c' : Z) : Z :=
  let dx := (2 * (c' - c) + rowShift r' - rowShift r)%Z in
  let dy := (r' - r)%Z in
  (dx * dx + 3 * (dy * dy))%Z.

(** The time stamp and the two numbers an id was built from. *)
Definition idTime (i : BubbleId) : Z :=
  match i with IdCell _ _ t => t | IdNew t _ => t end.

Definition idFirst (i : BubbleId) : Z :=
  match i with IdCell r _ _ => r | IdNew t _ => t end.

Definition idSecond (i : BubbleId) : Z :=
  match i with IdCell _ c _ => c | IdNew _ c => c end.

(** The cached pixel position of [b] is the grid position of its cell. *)
Definition wellPlaced (width : R) (b : Bubble) : Prop :=
  mkPoint (x b) (y b) = getBubblePos (row b) (col b) width.

(** A well-formed field: ids and live cells without repetition, every
    bubble drawn where its cell is, no bubble above row 0. *)
Definition fieldOK (width : R) (bs : list Bubble) : Prop :=
  NoDup (map id bs) /\ cellsUnique bs /\
  Forall (wellPlaced width) bs /\ Forall (fun b => (0 <= row b)%Z) bs.

(** Every id of [bs] carries a time stamp before [t]. *)
Definition olderThan (t : Z) (bs : list Bubble) : Prop :=
  Forall (fun b => (idTime (id b) < t)%Z) bs.

(** The cells of the landing scan, in scan order. *)
Definition windowCells : list (Z * Z) :=
  flat_map (fun r => map (pair r) (zrange 0 (colsInRow r)))
           (zrange 0 (gridRows + 5)).

(** Draws that leave no gap, and a clock that does not move. *)
Definition noGapDraw (r c : Z) : R := 1.
Definition firstColour (r c : Z) : nat := 0%nat.
Definition fixedClock (r c : Z) : Z := 1%Z.

(** A field with the last column of row 0 taken, on a 1000 wide canvas. *)
Definition cornerGame : Game :=
  mkGame [ bubbleAt (IdCell 0 11 1) 0 11 1000 green true ]
         (anchorFor 1000 700) (anchorFor 1000 700) origin
         false false 0 0%Z red false 1000%Z 700%Z.

(** [redGame] after the cluster of [redSeed] has been popped. *)
Definition redPopped : Game :=
  set_score 600 (set_bubbles (deactivate redCluster redRow) redGame).

(** The distance from the ball to a pixel position, as the landing scan
    computes it. *)
Definition ballDist (g : Game) (p : Point) : R :=
  sqrt ((px (ballPos g) - px p) ^ 2 + (py (ballPos g) - py p) ^ 2).

(** One step of the landing scan, on a cell given as a pair. *)
Definition scanStep (g : Game) (width : R) (best : Best) (rc : Z * Z) : Best :=
  scanCell g width (fst rc) best (snd rc).

(** What the scan variables hold once the cells [scanned] have been
    visited: nothing yet if all of them are taken, otherwise a free cell
    among them, its pixel position, and its distance to the ball, which
    no free cell among them beats. *)
Definition scanInv (g : Game) (width : R) (scanned : list (Z * Z))
    (best : Best) : Prop :=
  match bestDist best with
  | None =>
      forall rc, In rc scanned -> occupied (bubbles g) (fst rc) (snd rc) = true
  | Some d =>
      In (bestRow best, bestCol best) scanned /\
      occupied (bubbles g) (bestRow best) (bestCol best) = false /\
      mkPoint (bestX best) (bestY best)
      = getBubblePos (bestRow best) (bestCol best) width /\
      d = ballDist g (getBubblePos (bestRow best) (bestCol best) width) /\
      forall rc, In rc scanned ->
                 occupied (bubbles g) (fst rc) (snd rc) = false ->
                 d <= ballDist g (getBubblePos (fst rc) (snd rc) width)
  end.

(** A field with one bubble and a ball in flight resting exactly on the
    centre of the free cell (2, 3). *)
Definition snapGame : Game :=
  mkGame [ bubbleAt (IdCell 0 0 1) 0 0 1000 blue true ]
         (anchorFor 1000 700) (getBubblePos 2 3 1000) (mkPoint 0 (-10))
         false true 0 0%Z red false 1000%Z 700%Z.

(** The slingshot is never both pinched and in flight. *)
Definition exclusive (g : Game) : Prop :=
  isPinching g && isFlying g = false.

(** The trigger is engaged in frame [f]: a hand is seen and pinches. *)
Definition engaged (f : Frame) : Prop :=
  exists h, handPos f = Some h /\ pinchDist f < PINCH_THRESHOLD.

(** A frame whose hand pinches at (700, 700), far from the resting ball
    and from the anchor. *)
Definition farFrame : Frame :=
  mkFrame 1000 620 (Some (mkPoint 500 700)) (1 / 100) false 32.


Definition menuFrame : Frame :=
  mkFrame 1000 620 (Some (mkPoint 500 460)) (1 / 100) true 48.

(** ** The flight (the [if (isFlying.current)] block of [onResults]) *)

Definition GRAVITY : R := 0.
Definition FRICTION : R := 998 / 1000.

(** The collision test against the live bubbles: some centre is closer
    than [1.8 * BUBBLE_RADIUS] to [p]. *)
Definition touchesBubble (bs : list Bubble) (p : Point) : bool :=
  existsb (fun b =>
             active b
             && Rltb (sqrt ((px p - x b) ^ 2 + (py p - y b) ^ 2))
                     (BUBBLE_RADIUS * (18 / 10))) bs.

(** The variables of the sub-step loop: [ballPos], [ballVel] and
    [collisionOccurred]. *)
Record Flight : Type := mkFlight { fPos : Point; fVel : Point; fHit : bool }.

(** One turn of the sub-step loop: move, bounce off the side walls, test
    the top boundary, then the bubbles. *)
Definition subStep (bs : list Bubble) (width : R) (steps : Z) (s : Flight)
    : Flight :=
  let x1 := px (fPos s) + px (fVel s) / IZR steps in
  let y1 := py (fPos s) + py (fVel s) / IZR steps in
  let bounce := Rltb x1 BUBBLE_RADIUS || Rltb (width - BUBBLE_RADIUS) x1 in
  let vx := if bounce then px (fVel s) * -1 else px (fVel s) in
  let x2 := if bounce
            then Rmax BUBBLE_RADIUS (Rmin (width - BUBBLE_RADIUS) x1)
            else x1 in
  let pos := mkPoint x2 y1 in
  let vel := mkPoint vx (py (fVel s)) in
  if Rltb y1 BUBBLE_RADIUS then mkFlight pos vel true
  else mkFlight pos vel (touchesBubble bs pos).

(** [n] turns of the loop at most; a collision breaks out of it. *)
Fixpoint subSteps (n : nat) (bs : list Bubble) (width : R) (steps : Z)
    (s : Flight) : Flight :=
  match n with
  | O => s
  | S n' =>
    let s' := subStep bs width steps s in
    if fHit s' then s' else subSteps n' bs width steps s'
  end.

(** [steps = Math.ceil(currentSpeed / (BUBBLE_RADIUS * 0.8))] *)
Definition stepCount (v : Point) : Z :=
  Math_ceil (speed v / (BUBBLE_RADIUS * (8 / 10))).

(** The ball is put back on the anchor, at rest. *)
Definition resetBall (g : Game) : Game :=
  set_ballVel zeroPoint (set_ballPos (anchorPos g) (set_isFlying false g)).

(** The physics step of a frame; [t] is [performance.now()] at that
    point and [clock] is [Date.now()] if the ball lands. *)
Definition flightStep (t : R) (clock : Z) (g : Game) : option Game :=
  if isFlying g then
    if Rltb 5000 (t - flightStartTime g) then Some (resetBall g)
    else
      let steps := stepCount (ballVel g) in
      let s := subSteps (Z.to_nat steps) (bubbles g) (IZR (canvasWidth g))
                        steps (mkFlight (ballPos g) (ballVel g) false) in
      let vy := py (fVel s) + GRAVITY in
      let vel := mkPoint (px (fVel s) * FRICTION) (vy * FRICTION) in
      let g1 := set_ballVel vel (set_ballPos (fPos s) g) in
      match (if fHit s then landBall clock g1 else Some g1) with
      | None => None
      | Some g2 =>
        if Rltb (IZR (canvasHeight g2)) (py (ballPos g2))
        then Some (resetBall g2) else Some g2
      end
  else Some g.

(** A ball just launched straight up from the anchor of a 1000 x 620
    canvas with an empty field, and the same ball four seconds later
    when the clock reads 6000. *)
Definition flyingGame : Game :=
  mkGame [] (anchorFor 1000 620) (anchorFor 1000 620) (mkPoint 0 (-10))
         false true 0 0%Z red false 1000%Z 620%Z.

(** ** The ceiling timer (the drop check at the top of [onResults]) *)

(** The slingshot state together with the two things the timer reads
    beside it: the stage and the time of the last drop. *)
Record Session : Type := mkSession {
  game : Game;
  gameStage : GameStage;
  lastDropTime : R
}.

(** [dropInterval]; [None] is [Infinity]. *)
Definition dropInterval (stg : GameStage) : option R :=
  match stg with
  | sea => None
  | island => Some 20000
  | volcano => Some 10000
  end.

(** The drop check of one frame, run after the resize check. *)
Definition ceilingTick (f : Frame) (clock : Z -> Z) (colorDraw : Z -> nat)
    (s : Session) : Session :=
  match dropInterval (gameStage s) with
  | None => s
  | Some interval =>
    if negb (isMenuOpen f) && negb (isGameOver (game s)) then
      let elapsed := now f - lastDropTime s in
      if Rltb interval elapsed
      then mkSession (dropCeiling (IZR (canvasWidth (game s))) clock colorDraw
                                  (game s))
                     (gameStage s) (now f)
      else s
    else s
  end.

(** ** The colour palette ([updateAvailableColors]) *)

Definition hasColor (c : BubbleColor) (l : list BubbleColor) : bool :=
  existsb (BubbleColor_eqb c) l.

(** The [Set] of the colours of the live bubbles, in insertion order. *)
Definition activeColorSet (bs : list Bubble) : list BubbleColor :=
  fold_left (fun acc b =>
               if active b
               then (if hasColor (color b) acc then acc else acc ++ [color b])
               else acc) bs [].

(** What [updateAvailableColors] decides: the palette shown, whether the
    level is cleared, and the colour the selection is switched to, if
    it is switched. *)
Record ColorUpdate : Type := mkColorUpdate {
  availableColors : list BubbleColor;
  levelCleared : bool;
  switchedTo : option BubbleColor
}.

Definition updateAvailableColors (g : Game) : ColorUpdate :=
  let activeColors := activeColorSet (bubbles g) in
  if (length activeColors =? 0)%nat && (0 <? length (bubbles g))%nat
  then mkColorUpdate activeColors true None
  else if negb (hasColor (selectedColor g) activeColors)
          && (0 <? length activeColors)%nat
  then mkColorUpdate activeColors false (Some (hd red activeColors))
  else mkColorUpdate activeColors false None.

(** The selected colour once the selection has followed the update. *)
Definition selectedAfter (g : Game) : BubbleColor :=
  match switchedTo (updateAvailableColors g) with
  | Some c => c
  | None => selectedColor g
  end.

(** ** TargetingAnalyzer: [getAllReachableClusters] *)

(** The three values of [description]: "Left", "Center", "Right". *)
Inductive Side : Type := sideLeft | sideCenter | sideRight.

Record TargetCandidate : Type := mkCandidate {
  candId : BubbleId;
  candColor : BubbleColor;
  candSize : nat;
  candRow : Z;
  candCol : Z;
  pointsPerBubble : Z;
  description : Side
}.

(** [Array.from(new Set(activeBubbles.map(b => b.color)))]. *)
Definition uniqueColors (activeBubbles : list Bubble) : list BubbleColor :=
  fold_left (fun acc c => if hasColor c acc then acc else acc ++ [c])
            (map color activeBubbles) [].

(** The [filter] inside the [while] loop. *)
Definition neighborsOf (activeBubbles : list Bubble) (clr : BubbleColor)
    (visited : list BubbleId) (curr : Bubble) : list Bubble :=
  filter (fun n => negb (visitedHas visited (id n))
                   && BubbleColor_eqb (color n) clr
                   && isNeighbor curr n) activeBubbles.

(** The [while (queue.length > 0)] loop: [shift()] takes the head of
    [queue], [push] appends.  It returns [clusterMembers] and the set
    [visited]; [None] means the fuel ran out. *)
Fixpoint clusterLoop (fuel : nat) (activeBubbles : list Bubble)
    (clr : BubbleColor) (queue : list Bubble) (visited : list BubbleId)
    (clusterMembers : list Bubble) : option (list Bubble * list BubbleId) :=
  match fuel with
  | O => None
  | S fuel' =>
    match queue with
    | [] => Some (clusterMembers, visited)
    | curr :: rest =>
      let neighbors := neighborsOf activeBubbles clr visited curr in
      clusterLoop fuel' activeBubbles clr (rest ++ neighbors)
                  (map id neighbors ++ visited) (clusterMembers ++ [curr])
    end
  end.

(** Enough iterations for any run of the loop over [activeBubbles]. *)
Definition clusterFuel (activeBubbles : list Bubble) : nat :=
  (2 + length activeBubbles)%nat.

(** [clusterMembers.sort((a,b) => b.y - a.y)]: a stable sort, largest
    [y] first. *)
Fixpoint insertByY (a : Bubble) (l : list Bubble) : list Bubble :=
  match l with
  | [] => [a]
  | e :: l' => if Rltb (y a) (y e) then e :: insertByY a l' else a :: l
  end.

Definition sortByY (l : list Bubble) : list Bubble :=
  fold_right insertByY [] l.

Definition describe (xPct : R) : Side :=
  if Rltb xPct (33 / 100) then sideLeft
  else if Rltb (66 / 100) xPct then sideRight
  else sideCenter.

(** The object pushed for a cluster with a hittable member.  [viewWidth]
    is the container's width, or the window's where that is missing. *)
Definition candidateFor (viewWidth : R) (clr : BubbleColor)
    (clusterMembers : list Bubble) (hittableMember : Bubble)
    : TargetCandidate :=
  mkCandidate (id hittableMember) clr (length clusterMembers)
              (row hittableMember) (col hittableMember) (points clr)
              (describe (x hittableMember / viewWidth)).

(** The body of [for (const b of activeBubbles)], on the pair of
    [visited] and [allClusters]. *)
Definition scanSeed (g : Game) (viewWidth : R) (activeBubbles : list Bubble)
    (clr : BubbleColor)
    (st : option (list BubbleId * list TargetCandidate)) (b : Bubble)
    : option (list BubbleId * list TargetCandidate) :=
  match st with
  | None => None
  | Some (visited, allClusters) =>
    if negb (BubbleColor_eqb (color b) clr)
       || (visitedHas visited (id b) && active b)
    then st
    else
      match clusterLoop (clusterFuel activeBubbles) activeBubbles clr [b]
                        (id b :: visited) [] with
      | None => None
      | Some (clusterMembers, visited') =>
        match find (isPathClear g) (sortByY clusterMembers) with
        | Some hittableMember =>
          Some (visited',
                allClusters
                ++ [candidateFor viewWidth clr clusterMembers hittableMember])
        | None => Some (visited', allClusters)
        end
      end
  end.

(** The body of [for (const color of uniqueColors)]. *)
Definition scanColor (g : Game) (viewWidth : R) (activeBubbles : list Bubble)
    (out : option (list TargetCandidate)) (clr : BubbleColor)
    : option (list TargetCandidate) :=
  match out with
  | None => None
  | Some allClusters =>
    match fold_left (scanSeed g viewWidth activeBubbles clr) activeBubbles
                    (Some ([], allClusters)) with
    | None => None
    | Some (_, allClusters') => Some allClusters'
    end
  end.

Definition getAllReachableClusters (viewWidth : R) (g : Game)
    : option (list TargetCandidate) :=
  let activeBubbles := filter active (bubbles g) in
  fold_left (scanColor g viewWidth activeBubbles)
            (uniqueColors activeBubbles) (Some []).

(** Largest [y] first. *)
Fixpoint descending (l : list Bubble) : Prop :=
  match l with
  | [] => True
  | e :: l' => (forall b, In b l' -> y b <= y e) /\ descending l'
  end.

(** A candidate stands for a live bubble of the field with a clear
    path. *)
Definition candidateOK (g : Game) (c : TargetCandidate) : Prop :=
  exists m, In m (bubbles g) /\ active m = true /\ isPathClear g m = true
            /\ candId c = id m /\ candColor c = color m
            /\ candRow c = row m /\ candCol c = col m
            /\ pointsPerBubble c = points (color m)
            /\ (1 <= candSize c <= length (filter active (bubbles g)))%nat.

(** A field with nothing but the target of [pathGame]. *)
Definition loneTargetGame : Game := set_bubbles [pathTarget] pathGame.

Definition islandSession : Session := mkSession poppedLowGame island 0.

Definition lateFrame : Frame := mkFrame 1000 700 None 1 false 25000.

(** * Properties *)

Lemma BubbleColor_eqb_spec (c d : BubbleColor) :
  BubbleColor_eqb c d = true <-> c = d.
Proof. destruct c, d; simpl; split; congruence. Qed.

Lemma BubbleId_eqb_spec (i j : BubbleId) : BubbleId_eqb i j = true <-> i = j.
Proof.
  destruct i, j; simpl; split; intros H; try discriminate.
  - apply andb_prop in H as [H Ht]; apply andb_prop in H as [Hr Hc].
    apply Z.eqb_eq in Hr, Hc, Ht. congruence.
  - injection H as -> -> ->. now rewrite !Z.eqb_refl.
  - apply andb_prop in H as [Ht Hc]. apply Z.eqb_eq in Hc, Ht. congruence.
  - injection H as -> ->. now rewrite !Z.eqb_refl.
Qed.

Lemma BubbleId_eqb_refl (i : BubbleId) : BubbleId_eqb i i = true.
Proof. now apply BubbleId_eqb_spec. Qed.

Lemma BubbleId_eqb_neq (i j : BubbleId) : BubbleId_eqb i j = false <-> i <> j.
Proof.
  split.
  - intros H E. apply BubbleId_eqb_spec in E. congruence.
  - intros H. destruct (BubbleId_eqb i j) eqn:E; [|reflexivity].
    apply BubbleId_eqb_spec in E. contradiction.
Qed.

(** ** Properties of the grid *)

Lemma isOddRow_succ (r : Z) : isOddRow (r + 1) = negb (isOddRow r).
Proof.
  unfold isOddRow.
  pose proof (Z.rem_bound_abs r 2).
  destruct (Z.rem r 2 =? 0)%Z eqn:E1, (Z.rem (r + 1) 2 =? 0)%Z eqn:E2;
    try reflexivity; exfalso;
    rewrite ?Z.eqb_eq, ?Z.eqb_neq in E1, E2;
    pose proof (Z.rem_mod_eq_0 r 2 ltac:(lia));
    pose proof (Z.rem_mod_eq_0 (r + 1) 2 ltac:(lia));
    pose proof (Z.mod_pos_bound r 2 ltac:(lia));
    pose proof (Z.mod_pos_bound (r + 1) 2 ltac:(lia));
    pose proof (Z.div_mod r 2 ltac:(lia));
    pose proof (Z.div_mod (r + 1) 2 ltac:(lia));
    lia.
Qed.

Lemma isOddRow_pred (r : Z) : isOddRow (r - 1) = negb (isOddRow r).
Proof.
  replace r with ((r - 1) + 1)%Z at 2 by lia.
  rewrite isOddRow_succ. now rewrite negb_involutive.
Qed.

Lemma isNeighborCell_sym (ar ac br bc : Z) :
  isNeighborCell ar ac br bc = isNeighborCell br bc ar ac.
Proof.
  unfold isNeighborCell.
  destruct (Z.abs (br - ar) >? 1)%Z eqn:Ha.
  - replace (Z.abs (ar - br)) with (Z.abs (br - ar)) by lia. now rewrite Ha.
  - replace (Z.abs (ar - br)) with (Z.abs (br - ar)) by lia. rewrite Ha.
    destruct (br - ar =? 0)%Z eqn:Hd.
    + apply Z.eqb_eq in Hd.
      replace (ar - br =? 0)%Z with true by (symmetry; apply Z.eqb_eq; lia).
      replace (Z.abs (ac - bc)) with (Z.abs (bc - ac)) by lia. reflexivity.
    + apply Z.eqb_neq in Hd.
      replace (ar - br =? 0)%Z with false by (symmetry; apply Z.eqb_neq; lia).
      assert (Hr : br = (ar + 1)%Z \/ br = (ar - 1)%Z) by lia.
      assert (Hp : isOddRow br = negb (isOddRow ar)).
      { destruct Hr as [-> | ->]; [apply isOddRow_succ | apply isOddRow_pred]. }
      rewrite Hp. destruct (isOddRow ar); simpl;
        destruct (bc - ac =? 0)%Z eqn:E0, (bc - ac =? 1)%Z eqn:E1,
                 (bc - ac =? -1)%Z eqn:E2,
                 (ac - bc =? 0)%Z eqn:F0, (ac - bc =? 1)%Z eqn:F1,
                 (ac - bc =? -1)%Z eqn:F2;
        rewrite ?Z.eqb_eq, ?Z.eqb_neq in *; simpl; try reflexivity; lia.
Qed.

(** C6: the adjacency predicate gives the same answer in both directions,
    [isNeighbor a b = isNeighbor b a], for every pair of bubbles (the row
    parity of the first argument selects the column rule on each side). *)
Theorem isNeighbor_symmetric (a b : Bubble) :
  isNeighbor a b = isNeighbor b a.
Proof. unfold isNeighbor. apply isNeighborCell_sym. Qed.

(** ** The match engine *)

Section MatchEngine.

Variable bs : list Bubble.
Variable seed : Bubble.

Lemma visitedHas_In (v : list BubbleId) (i : BubbleId) :
  visitedHas v i = true <-> In i v.
Proof.
  unfold visitedHas. rewrite existsb_exists. split.
  - intros [j [Hj E]]. apply BubbleId_eqb_spec in E. now subst.
  - intros H. exists i. split; [assumption | apply BubbleId_eqb_refl].
Qed.

Lemma visitedHas_notIn (v : list BubbleId) (i : BubbleId) :
  visitedHas v i = false <-> ~ In i v.
Proof.
  rewrite <- visitedHas_In. destruct (visitedHas v i); split; congruence.
Qed.

Lemma visitedHas_cons (v : list BubbleId) (i j : BubbleId) :
  visitedHas (i :: v) j = BubbleId_eqb j i || visitedHas v j.
Proof. reflexivity. Qed.

Lemma unvisited_cons (b : Bubble) (l : list Bubble) (v : list BubbleId) :
  unvisited (b :: l) v
  = if visitedHas v (id b) then unvisited l v else S (unvisited l v).
Proof. unfold unvisited. cbn [filter]. now destruct (visitedHas v (id b)). Qed.

Lemma unvisited_le (l : list Bubble) (v : list BubbleId) (i : BubbleId) :
  (unvisited l (i :: v) <= unvisited l v)%nat.
Proof.
  induction l as [|b l IH]; [reflexivity|].
  rewrite !unvisited_cons, visitedHas_cons.
  destruct (BubbleId_eqb (id b) i), (visitedHas v (id b)); simpl; lia.
Qed.

Lemma unvisited_lt (l : list Bubble) (v : list BubbleId) (c : Bubble) :
  In c l -> visitedHas v (id c) = false ->
  (unvisited l (id c :: v) < unvisited l v)%nat.
Proof.
  induction l as [|b l IH]; simpl; [tauto|].
  intros [-> | Hin] Hv; rewrite !unvisited_cons, visitedHas_cons.
  - pose proof (unvisited_le l v (id c)) as Hle.
    rewrite BubbleId_eqb_refl, Hv. simpl. lia.
  - specialize (IH Hin Hv).
    destruct (BubbleId_eqb (id b) (id c)), (visitedHas v (id b));
      simpl; lia.
Qed.

Lemma unvisited_bound (l : list Bubble) (v : list BubbleId) :
  (unvisited l v <= length l)%nat.
Proof. unfold unvisited. apply filter_length_le. Qed.

(** *** Termination: the fuel of [findMatches] is never used up *)

Lemma checkLoop_terminates (target : BubbleColor) :
  forall fuel toCheck visited matches,
    (forall s, In s toCheck -> In s bs) ->
    (length toCheck + length bs * unvisited bs visited < fuel)%nat ->
    exists r, checkLoop fuel bs target toCheck visited matches = Some r.
Proof.
  induction fuel as [|fuel IH]; intros toCheck visited matches Hin Hlt;
    [lia|].
  destruct toCheck as [|current rest]; simpl; [eauto|].
  assert (Hrest : forall s, In s rest -> In s bs)
    by (intros s Hs; apply Hin; now right).
  destruct (visitedHas visited (id current)) eqn:Hv.
  - apply IH; [assumption | simpl in Hlt; lia].
  - pose proof (unvisited_lt bs visited current
                  (Hin current (or_introl eq_refl)) Hv) as Hdec.
    destruct (BubbleColor_eqb (color current) target).
    + apply IH.
      * intros s Hs. apply in_app_or in Hs as [Hs | Hs]; [|auto].
        apply in_rev, filter_In in Hs. tauto.
      * rewrite length_app, length_rev.
        pose proof (filter_length_le
          (fun b => active b
                    && negb (visitedHas (id current :: visited) (id b))
                    && isNeighbor current b) bs) as Hn.
        simpl in Hlt. nia.
    + apply IH; [assumption | simpl in Hlt; nia].
Qed.

Lemma findMatches_total :
  In seed bs -> exists matches, findMatches bs seed = Some matches.
Proof.
  intros Hseed. unfold findMatches, checkFuel.
  apply checkLoop_terminates.
  - intros s [<- | []]. assumption.
  - pose proof (unvisited_bound bs []). simpl. nia.
Qed.

(** *** Correctness: the loop collects the cluster of the seed *)

Hypothesis ids_unique : NoDup (map id bs).
Hypothesis seed_in : In seed bs.

Lemma id_inj (a b : Bubble) : In a bs -> In b bs -> id a = id b -> a = b.
Proof.
  clear seed_in. revert ids_unique.
  induction bs as [|c l IH]; simpl; [tauto|].
  intros Hnd Ha Hb E. inversion Hnd as [|? ? Hnot Hnd']; subst.
  destruct Ha as [-> | Ha], Hb as [-> | Hb]; auto.
  - exfalso. apply Hnot. rewrite E. now apply in_map.
  - exfalso. apply Hnot. rewrite <- E. now apply in_map.
Qed.

Ltac split_inv :=
  unfold loopInv; split; [|split; [|split; [|split; [|split]]]].

Lemma loopInv_init : loopInv bs seed [seed] [] [].
Proof.
  split_inv; simpl; try tauto.
  - intros s [<- | []]. split; [assumption | now left].
  - constructor.
Qed.

Lemma loopInv_skip current rest visited matches :
  loopInv bs seed (current :: rest) visited matches ->
  visitedHas visited (id current) = true ->
  loopInv bs seed rest visited matches.
Proof.
  intros (I1 & I2 & I3 & I4 & I5 & I6) Hv. apply visitedHas_In in Hv.
  split_inv; auto.
  - intros s Hs. apply I2. now right.
  - intros m b Hm Hb Ha Hn.
    destruct (I3 m b Hm Hb Ha Hn) as [H | [<- | H]]; auto.
  - destruct I5 as [H | [E | H]]; [now left | left | now right].
    subst current. now apply I4.
Qed.

Lemma loopInv_other current rest visited matches :
  loopInv bs seed (current :: rest) visited matches ->
  BubbleColor_eqb (color current) (color seed) = false ->
  loopInv bs seed rest (id current :: visited) matches.
Proof.
  intros (I1 & I2 & I3 & I4 & I5 & I6) Hc.
  assert (Hne : color current <> color seed).
  { intros E. apply BubbleColor_eqb_spec in E. congruence. }
  assert (Hcur : In current bs) by (apply I2; now left).
  split_inv; auto.
  - intros m Hm. destruct (I1 m Hm) as (? & ? & ?). simpl. auto.
  - intros s Hs. apply I2. now right.
  - intros m b Hm Hb Ha Hn.
    destruct (I3 m b Hm Hb Ha Hn) as [H | [<- | H]]; simpl; auto.
  - intros b Hb [E | Hv] Hcol; [|auto].
    apply id_inj in E; auto. subst. contradiction.
  - destruct I5 as [H | [E | H]]; [now left | exfalso | now right].
    subst current. now apply Hne.
Qed.

Lemma loopInv_match current rest visited matches :
  loopInv bs seed (current :: rest) visited matches ->
  visitedHas visited (id current) = false ->
  BubbleColor_eqb (color current) (color seed) = true ->
  loopInv bs seed
    (rev (filter (fun b => active b
                           && negb (visitedHas (id current :: visited) (id b))
                           && isNeighbor current b) bs) ++ rest)
    (id current :: visited) (matches ++ [current]).
Proof.
  intros (I1 & I2 & I3 & I4 & I5 & I6) Hv Hc.
  apply BubbleColor_eqb_spec in Hc. apply visitedHas_notIn in Hv.
  destruct (I2 current (or_introl eq_refl)) as [Hcur Horigin].
  assert (Hclu : inCluster bs seed current).
  { destruct Horigin as [-> | (Ha & m & Hm & Hn)]; [constructor|].
    apply cluster_step with (b := m); auto. now apply I1. }
  split_inv.
  - intros m Hm. apply in_app_or in Hm as [Hm | [<- | []]].
    + destruct (I1 m Hm) as (? & ? & ?). simpl. auto.
    + simpl. auto.
  - intros s Hs. apply in_app_or in Hs as [Hs | Hs].
    + apply in_rev, filter_In in Hs. destruct Hs as [Hin Hs].
      apply andb_prop in Hs as [Hs Hn]. apply andb_prop in Hs as [Ha _].
      split; [assumption|]. right. split; [assumption|].
      exists current. split; [|assumption].
      apply in_or_app. right. now left.
    + destruct (I2 s (or_intror Hs)) as [Hin [-> | (Ha & m & Hm & Hn)]];
        (split; [assumption|]); [now left | right].
      split; [assumption|]. exists m. split; [|assumption].
      apply in_or_app. now left.
  - intros m b Hm Hb Ha Hn.
    apply in_app_or in Hm as [Hm | [<- | []]].
    + destruct (I3 m b Hm Hb Ha Hn) as [H | [<- | H]]; simpl; auto.
      right. apply in_or_app. now right.
    + destruct (visitedHas (id current :: visited) (id b)) eqn:Hvb.
      * left. now apply visitedHas_In.
      * right. apply in_or_app. left. apply -> in_rev. apply filter_In.
        split; [assumption|]. now rewrite Ha, Hvb, Hn.
  - intros b Hb [E | Hvb] Hcol; apply in_or_app.
    + right. left. now apply id_inj.
    + left. now apply I4.
  - destruct I5 as [H | [<- | H]].
    + left. apply in_or_app. now left.
    + left. apply in_or_app. right. now left.
    + right. apply in_or_app. now right.
  - rewrite map_app. apply NoDup_app.
    + assumption.
    + simpl. constructor; [tauto | constructor].
    + intros i Hi [<- | []]. apply in_map_iff in Hi as (m & E & Hm).
      apply Hv. rewrite <- E. now apply I1.
Qed.

Lemma checkLoop_inv :
  forall fuel toCheck visited matches r,
    loopInv bs seed toCheck visited matches ->
    checkLoop fuel bs (color seed) toCheck visited matches = Some r ->
    exists visited', loopInv bs seed [] visited' r.
Proof.
  induction fuel as [|fuel IH]; intros toCheck visited matches r Hinv Hrun;
    [discriminate|].
  destruct toCheck as [|current rest]; cbn [checkLoop] in Hrun.
  - injection Hrun as <-. eauto.
  - destruct (visitedHas visited (id current)) eqn:Hv.
    + eapply IH; [|exact Hrun]. now apply loopInv_skip with current.
    + destruct (BubbleColor_eqb (color current) (color seed)) eqn:Hc.
      * eapply IH; [|exact Hrun]. now apply loopInv_match.
      * eapply IH; [|exact Hrun]. now apply loopInv_other.
Qed.

(** The array [matches] lists the cluster of the seed, each member once. *)
Lemma findMatches_cluster (matches : list Bubble) :
  findMatches bs seed = Some matches ->
  NoDup matches /\ (forall b, In b matches <-> inCluster bs seed b).
Proof.
  intros Hrun. unfold findMatches in Hrun.
  destruct (checkLoop_inv _ _ _ _ _ loopInv_init Hrun)
    as (v & I1 & I2 & I3 & I4 & I5 & I6).
  split; [now apply NoDup_map_inv with (f := id)|].
  intros b. split; [apply I1|].
  induction 1 as [|b b' Hb IH Hin Ha Hcol Hn].
  - destruct I5 as [H | []]. assumption.
  - apply I4; auto.
    destruct (I3 b b' IH Hin Ha Hn) as [H | []]. assumption.
Qed.

Lemma inCluster_in (b : Bubble) : inCluster bs seed b -> In b bs.
Proof. now destruct 1. Qed.

Lemma inCluster_color (b : Bubble) :
  inCluster bs seed b -> color b = color seed.
Proof. now destruct 1. Qed.

Lemma isMatched_cluster (matches : list Bubble) (b : Bubble) :
  (forall m, In m matches <-> inCluster bs seed m) ->
  In b bs ->
  (isMatched matches b = true <-> inCluster bs seed b).
Proof.
  intros Hm Hb. unfold isMatched. rewrite existsb_exists. split.
  - intros (m & Hin & E). apply BubbleId_eqb_spec in E.
    assert (m = b) as <-; [|now apply Hm].
    apply id_inj; auto. apply inCluster_in. now apply Hm.
  - intros H. exists b. split; [now apply Hm | apply BubbleId_eqb_refl].
Qed.

End MatchEngine.

Lemma Forall2_map_same (A : Type) (P : A -> A -> Prop) (f : A -> A)
    (l : list A) :
  (forall a, In a l -> P a (f a)) -> Forall2 P l (map f l).
Proof.
  induction l as [|a l IH]; simpl; intros H; constructor; auto.
Qed.

Lemma sumPoints_length (p : Z) (ms : list Bubble) :
  sumPoints p ms = (Z.of_nat (length ms) * p)%Z.
Proof.
  unfold sumPoints.
  assert (G : forall acc, fold_left (fun pts _ => (pts + p)%Z) ms acc
                          = (acc + Z.of_nat (length ms) * p)%Z).
  { induction ms as [|m l IH]; intros acc; simpl length; simpl fold_left.
    - lia.
    - rewrite IH. lia. }
  now rewrite G.
Qed.

(** The runs of [checkMatches], read off the cluster of the seed. *)
Lemma checkMatches_run (g : Game) (seed : Bubble) :
  NoDup (map id (bubbles g)) -> In seed (bubbles g) ->
  exists matches,
    findMatches (bubbles g) seed = Some matches /\
    NoDup matches /\
    (forall b, In b matches <-> inCluster (bubbles g) seed b) /\
    checkMatches seed g =
      if (3 <=? length matches)%nat
      then Some (set_score (score g + scoreGain matches (color seed))%Z
                   (set_bubbles (deactivate matches (bubbles g)) g), true)
      else Some (g, false).
Proof.
  intros Hnd Hseed.
  destruct (findMatches_total _ _ Hseed) as [matches Hrun].
  destruct (findMatches_cluster _ _ Hnd Hseed _ Hrun) as [Hnodup Hiff].
  exists matches. repeat split; try apply Hiff; auto.
  unfold checkMatches. now rewrite Hrun.
Qed.

Lemma cluster_length (bs : list Bubble) (seed : Bubble) (l l' : list Bubble) :
  NoDup l -> NoDup l' ->
  (forall b, In b l <-> inCluster bs seed b) ->
  (forall b, In b l' <-> inCluster bs seed b) ->
  length l = length l'.
Proof.
  intros H1 H2 I1 I2. apply Permutation_length, NoDup_Permutation; auto.
  intros b. now rewrite I1, I2.
Qed.

(** C4: [checkMatches] finds the whole cluster of the seed (the seed and
    every live bubble of its colour reachable from it through
    [isNeighbor] steps).  With three or more members it returns [true]
    and switches off exactly the members: every member becomes inactive,
    every other bubble is left as it was.  With fewer than three it
    returns [false] and the state, seed included, is unchanged. *)
Theorem checkMatches_pops_exactly_the_cluster (g : Game) (seed : Bubble) :
  NoDup (map id (bubbles g)) -> In seed (bubbles g) ->
  exists cluster,
    NoDup cluster /\
    (forall b, In b cluster <-> inCluster (bubbles g) seed b) /\
    ((3 <= length cluster)%nat ->
       exists g',
         checkMatches seed g = Some (g', true) /\
         Forall2 (fun b b' =>
                    (inCluster (bubbles g) seed b -> b' = setInactive b) /\
                    (~ inCluster (bubbles g) seed b -> b' = b))
                 (bubbles g) (bubbles g')) /\
    ((length cluster < 3)%nat -> checkMatches seed g = Some (g, false)).
Proof.
  intros Hnd Hseed.
  destruct (checkMatches_run g seed Hnd Hseed)
    as (matches & Hrun & Hnodup & Hiff & Hres).
  exists matches. split; [assumption|]. split; [assumption|]. split.
  - intros Hlen. apply Nat.leb_le in Hlen. rewrite Hlen in Hres.
    eexists. split; [exact Hres|]. simpl. unfold deactivate.
    apply Forall2_map_same. intros b Hb.
    pose proof (isMatched_cluster _ _ Hnd Hseed matches b Hiff Hb) as Hm.
    destruct (isMatched matches b); split; intros H; try reflexivity.
    + exfalso. apply H. now apply Hm.
    + apply Hm in H. discriminate.
  - intros Hlen. apply Nat.leb_gt in Hlen. now rewrite Hlen in Hres.
Qed.

Lemma redRow_ids : NoDup (map id redRow).
Proof.
  simpl. repeat constructor; simpl; intuition discriminate.
Qed.

Lemma checkMatches_pops_exactly_the_cluster_witness :
  NoDup (map id (bubbles redGame)) /\ In redSeed (bubbles redGame) /\
  exists cluster,
    NoDup cluster /\
    (forall b, In b cluster <-> inCluster (bubbles redGame) redSeed b) /\
    ((3 <= length cluster)%nat ->
       exists g',
         checkMatches redSeed redGame = Some (g', true) /\
         Forall2 (fun b b' =>
                    (inCluster (bubbles redGame) redSeed b
                     -> b' = setInactive b) /\
                    (~ inCluster (bubbles redGame) redSeed b -> b' = b))
                 (bubbles redGame) (bubbles g')) /\
    ((length cluster < 3)%nat ->
       checkMatches redSeed redGame = Some (redGame, false)).
Proof.
  split; [exact redRow_ids|]. split; [simpl; tauto|].
  apply (checkMatches_pops_exactly_the_cluster redGame redSeed).
  - exact redRow_ids.
  - simpl; tauto.
Defined.

(** [checkMatches] run on the two sample fields. *)
Example redGame_pop :
  option_map (fun r => (map active (bubbles (fst r)), score (fst r), snd r))
             (checkMatches redSeed redGame)
  = Some ([false; false; false; true; false], 600%Z, true).
Proof. vm_compute. reflexivity. Qed.

Example blueGame_no_pop :
  checkMatches blueSeed blueGame = Some (blueGame, false).
Proof. vm_compute. reflexivity. Qed.

Lemma points_even (c : BubbleColor) : points c = (2 * (points c / 2))%Z.
Proof. now destruct c. Qed.

Lemma Qfloor_integral (q : Q) (z : Z) :
  (q == inject_Z z)%Q -> (inject_Z (Qfloor q) == q)%Q.
Proof.
  intros E. rewrite (Qfloor_comp _ _ E), Qfloor_Z. now symmetry.
Qed.

Lemma scoreGain_exact (ms : list Bubble) (c : BubbleColor) :
  (inject_Z (scoreGain ms c)
   == inject_Z (Z.of_nat (length ms)) * inject_Z (points c)
      * comboMultiplier (length ms))%Q.
Proof.
  unfold scoreGain. rewrite sumPoints_length.
  set (n := Z.of_nat (length ms)).
  rewrite <- inject_Z_mult.
  unfold comboMultiplier. destruct (3 <? length ms)%nat.
  - apply Qfloor_integral with (z := (3 * n * (points c / 2))%Z).
    rewrite (points_even c) at 1. generalize (points c / 2)%Z. intros k.
    unfold Qeq, Qmult, inject_Z. cbn [Qnum Qden]. lia.
  - apply Qfloor_integral with (z := (n * points c)%Z). ring.
Qed.

(** C5: popping a cluster of [n >= 3] bubbles whose colour is worth [p]
    points each raises the score by exactly [n * p * m], where [m] is 1.5
    when [n > 3] and 1 otherwise; a cluster of exactly four bubbles worth
    100 points each adds 600. *)
Theorem pop_score_increment (g : Game) (seed : Bubble) (cluster : list Bubble) :
  NoDup (map id (bubbles g)) -> In seed (bubbles g) ->
  NoDup cluster ->
  (forall b, In b cluster <-> inCluster (bubbles g) seed b) ->
  (3 <= length cluster)%nat ->
  exists g',
    checkMatches seed g = Some (g', true) /\
    (inject_Z (score g' - score g)
     == inject_Z (Z.of_nat (length cluster)) * inject_Z (points (color seed))
        * (if (3 <? length cluster)%nat then 3 # 2 else 1))%Q /\
    (length cluster = 4%nat -> points (color seed) = 100%Z ->
     score g' = (score g + 600)%Z).
Proof.
  intros Hnd Hseed Hcl Hiff Hlen.
  destruct (checkMatches_run g seed Hnd Hseed)
    as (matches & Hrun & Hnodup & Hm & Hres).
  assert (El : length matches = length cluster)
    by (apply cluster_length with (bubbles g) seed; assumption).
  rewrite El in Hres. apply Nat.leb_le in Hlen. rewrite Hlen in Hres.
  eexists. split; [exact Hres|].
  assert (Hgain :
    (inject_Z (scoreGain matches (color seed))
     == inject_Z (Z.of_nat (length cluster)) * inject_Z (points (color seed))
        * (if (3 <? length cluster)%nat then 3 # 2 else 1))%Q).
  { rewrite scoreGain_exact, El. reflexivity. }
  simpl score. split.
  - replace (score g + scoreGain matches (color seed) - score g)%Z
      with (scoreGain matches (color seed)) by lia.
    exact Hgain.
  - intros H4 Hp. rewrite H4, Hp in Hgain. simpl in Hgain.
    unfold Qeq in Hgain. simpl in Hgain. lia.
Qed.

Lemma redRow_search : findMatches redRow redSeed = Some redCluster.
Proof. vm_compute. reflexivity. Qed.

Lemma pop_score_increment_witness :
  exists g',
    checkMatches redSeed redGame = Some (g', true) /\
    (inject_Z (score g' - score redGame)
     == inject_Z (Z.of_nat (length redCluster))
        * inject_Z (points (color redSeed))
        * (if (3 <? length redCluster)%nat then 3 # 2 else 1))%Q /\
    (length redCluster = 4%nat -> points (color redSeed) = 100%Z ->
     score g' = (score redGame + 600)%Z).
Proof.
  assert (Hin : In redSeed redRow) by (simpl; tauto).
  destruct (findMatches_cluster redRow redSeed redRow_ids Hin
              redCluster redRow_search) as [Hnodup Hiff].
  apply (pop_score_increment redGame redSeed redCluster
           redRow_ids Hin Hnodup Hiff).
  simpl. lia.
Defined.

(** ** The ceiling drop *)

Lemma sqrt3_bounds : 17 / 10 < sqrt 3 < 18 / 10.
Proof.
  pose proof (sqrt_pos 3) as Hpos.
  pose proof (sqrt_sqrt 3 ltac:(lra)) as Hsq.
  split; nra.
Qed.

Lemma Rltb_true (a b : R) : Rltb a b = true <-> a < b.
Proof. unfold Rltb. destruct (Rlt_dec a b); split; intros; try easy. Qed.

Lemma Rltb_false (a b : R) : Rltb a b = false <-> b <= a.
Proof.
  unfold Rltb. destruct (Rlt_dec a b); split; intros; try easy; lra.
Qed.

Lemma Rleb_true (a b : R) : Rleb a b = true <-> a <= b.
Proof. unfold Rleb. destruct (Rle_dec a b); split; intros; try easy. Qed.

Lemma Rleb_false (a b : R) : Rleb a b = false <-> b < a.
Proof.
  unfold Rleb. destruct (Rle_dec a b); split; intros; try easy; lra.
Qed.

Lemma zrange_In (lo hi i : Z) : In i (zrange lo hi) <-> (lo <= i < hi)%Z.
Proof.
  unfold zrange. rewrite in_map_iff. split.
  - intros (k & <- & Hk). apply in_seq in Hk. lia.
  - intros H. exists (Z.to_nat (i - lo)). split; [lia|].
    apply in_seq. lia.
Qed.

Lemma zrange_NoDup (lo hi : Z) : NoDup (zrange lo hi).
Proof.
  unfold zrange. apply Finite.Injective_map_NoDup; [|apply seq_NoDup].
  intros a b. lia.
Qed.

Lemma dropCeiling_bubbles (width : R) (clock : Z -> Z) (colorDraw : Z -> nat)
    (g : Game) :
  bubbles (dropCeiling width clock colorDraw g)
  = map (newRowBubble width clock colorDraw) (zrange 0 GRID_COLS)
    ++ map (shiftDown width) (bubbles g).
Proof. unfold dropCeiling. now destruct (Rltb _ _). Qed.

Lemma dropCeiling_isGameOver (width : R) (clock : Z -> Z)
    (colorDraw : Z -> nat) (g : Game) :
  isGameOver (dropCeiling width clock colorDraw g)
  = Rltb (py (anchorPos g) - 150)
         (lowestBubbleY (bubbles (dropCeiling width clock colorDraw g)))
    || isGameOver g.
Proof.
  rewrite dropCeiling_bubbles. unfold dropCeiling.
  now destruct (Rltb _ _).
Qed.

Lemma fold_Rmax_gt (bs : list Bubble) (acc d : R) :
  d < fold_left (fun mx b => Rmax mx (y b)) bs acc
  <-> d < acc \/ exists b, In b bs /\ d < y b.
Proof.
  revert acc. induction bs as [|b l IH]; intros acc; simpl.
  - split; [now left | intros [H | (b & [] & _)]; exact H].
  - rewrite IH. split.
    + intros [H | (b' & Hin & H)].
      * unfold Rmax in H. destruct (Rle_dec acc (y b)); eauto.
      * right. eauto.
    + intros [H | (b' & [<- | Hin] & H)].
      * left. pose proof (Rmax_l acc (y b)). lra.
      * left. pose proof (Rmax_r acc (y b)). lra.
      * right. eauto.
Qed.

Lemma fold_activeRmax_gt (bs : list Bubble) (acc d : R) :
  d < fold_left (fun mx b => if active b then Rmax mx (y b) else mx) bs acc
  <-> d < acc \/ exists b, In b bs /\ active b = true /\ d < y b.
Proof.
  revert acc. induction bs as [|b l IH]; intros acc; simpl.
  - split; [now left | intros [H | (b & [] & _)]; exact H].
  - rewrite IH. split.
    + intros [H | (b' & Hin & H)].
      * destruct (active b) eqn:Ha; [|now left].
        unfold Rmax in H. destruct (Rle_dec acc (y b)); [|now left].
        right. exists b. auto.
      * right. destruct H. eauto.
    + intros [H | (b' & [<- | Hin] & Ha & H)].
      * left. destruct (active b); [|assumption].
        pose proof (Rmax_l acc (y b)). lra.
      * left. rewrite Ha. pose proof (Rmax_r acc (y b)). lra.
      * right. eauto.
Qed.

(** The part of the game-over rule the code does keep: a live bubble
    below the danger line after the drop always raises the flag. *)
Lemma dropCeiling_flags_active_bubble (width : R) (clock : Z -> Z)
    (colorDraw : Z -> nat) (g : Game) (b : Bubble) :
  In b (bubbles (dropCeiling width clock colorDraw g)) ->
  active b = true ->
  py (anchorPos g) - 150 < y b ->
  isGameOver (dropCeiling width clock colorDraw g) = true.
Proof.
  intros Hin _ Hy. rewrite dropCeiling_isGameOver.
  apply orb_true_iff. left. apply Rltb_true.
  unfold lowestBubbleY. apply fold_Rmax_gt. right. eauto.
Qed.

(** What raises the flag: any bubble, live or popped, below the line. *)
Lemma dropCeiling_flag_iff (width : R) (clock : Z -> Z)
    (colorDraw : Z -> nat) (g : Game) :
  isGameOver (dropCeiling width clock colorDraw g) = true
  <-> isGameOver g = true
      \/ exists b, In b (bubbles (dropCeiling width clock colorDraw g))
                   /\ py (anchorPos g) - 150 < y b.
Proof.
  rewrite dropCeiling_isGameOver, orb_true_iff, Rltb_true.
  unfold lowestBubbleY. rewrite fold_Rmax_gt. split.
  - intros [[H | H] | H]; auto. right.
    exists (newRowBubble width clock colorDraw 0). split.
    + rewrite dropCeiling_bubbles. apply in_or_app. left.
      apply in_map. apply zrange_In. unfold GRID_COLS. lia.
    + simpl. unfold BUBBLE_RADIUS. lra.
  - intros [H | H]; auto.
Qed.

(** C8: after the ceiling drop the field is a new row followed by the old
    bubbles; every old bubble keeps its identity, column, colour and
    state, its row is one more than before and its pixel position is the
    grid position of the new row; the new row has one live bubble in each
    of the columns 0..11 of row 0, which is the column count of an even
    row ([GRID_COLS] = 12). *)
Theorem dropCeiling_shifts_rows_and_fills_row0 (width : R) (clock : Z -> Z)
    (colorDraw : Z -> nat) (g : Game) :
  exists newRow shifted,
    bubbles (dropCeiling width clock colorDraw g) = newRow ++ shifted /\
    Forall2 (fun b b' =>
               id b' = id b /\ row b' = (row b + 1)%Z /\ col b' = col b /\
               color b' = color b /\ active b' = active b /\
               mkPoint (x b') (y b') = getBubblePos (row b') (col b') width)
            (bubbles g) shifted /\
    map col newRow = [0; 1; 2; 3; 4; 5; 6; 7; 8; 9; 10; 11]%Z /\
    Forall (fun b => row b = 0%Z /\ active b = true /\
                     mkPoint (x b) (y b) = getBubblePos 0 (col b) width)
           newRow /\
    Z.of_nat (length newRow) = colsInRow 0 /\ colsInRow 0 = 12%Z.
Proof.
  exists (map (newRowBubble width clock colorDraw) (zrange 0 GRID_COLS)),
         (map (shiftDown width) (bubbles g)).
  split; [apply dropCeiling_bubbles|]. split.
  - induction (bubbles g) as [|b l IH]; simpl; constructor; auto.
    repeat split; reflexivity.
  - split; [reflexivity|]. split; [|split; reflexivity].
    apply Forall_forall. intros b Hb. apply in_map_iff in Hb as (c & <- & _).
    repeat split; reflexivity.
Qed.

(** C1 (failing case): on a 1000 x 700 canvas the danger line is at
    y = 330.  A popped bubble left on row 8 is moved to row 9
    (y = 22 + 9 * 22 * sqrt 3, about 365) by the drop and raises the
    game-over flag, although every live bubble is above the line and the
    lowest live bubble, computed as [getPsychometrics] does, is above it
    too. *)
Theorem dropCeiling_game_over_from_popped_bubble :
  let g' := dropCeiling 1000 sampleClock sampleDraw poppedLowGame in
  let dangerY := py (anchorPos poppedLowGame) - 150 in
  isGameOver poppedLowGame = false /\
  isGameOver g' = true /\
  Forall (fun b => active b = false \/ y b <= dangerY) (bubbles g') /\
  lowestActiveBubbleY (bubbles g') <= dangerY.
Proof.
  pose proof sqrt3_bounds as [Hlo Hhi].
  assert (Hall :
    Forall (fun b => active b = false \/
                     y b <= py (anchorPos poppedLowGame) - 150)
           (bubbles (dropCeiling 1000 sampleClock sampleDraw poppedLowGame))).
  { rewrite dropCeiling_bubbles. apply Forall_app. split.
    - apply Forall_forall. intros b Hb.
      apply in_map_iff in Hb as (c & <- & _). right.
      cbn. unfold BUBBLE_RADIUS, SLINGSHOT_BOTTOM_OFFSET. lra.
    - cbn [poppedLowGame bubbles map].
      constructor; [|constructor; [|constructor]].
      + right. cbn. unfold ROW_HEIGHT, BUBBLE_RADIUS, SLINGSHOT_BOTTOM_OFFSET.
        lra.
      + now left. }
  cbv zeta. split; [reflexivity|]. split; [|split; [exact Hall|]].
  - apply dropCeiling_flag_iff. right.
    exists (shiftDown 1000 (bubbleAt (IdCell 3 0 1) 8 0 1000 red false)).
    split.
    + rewrite dropCeiling_bubbles. apply in_or_app. right.
      cbn [poppedLowGame bubbles map]. now right; left.
    + cbn. unfold ROW_HEIGHT, BUBBLE_RADIUS, SLINGSHOT_BOTTOM_OFFSET. lra.
  - apply Rnot_lt_le. intros H. unfold lowestActiveBubbleY in H.
    apply fold_activeRmax_gt in H as [H | (b & Hb & Ha & H)].
    + cbn in H. unfold SLINGSHOT_BOTTOM_OFFSET in H. lra.
    + rewrite Forall_forall in Hall. destruct (Hall b Hb); [congruence | lra].
Qed.

(** ** The slingshot *)

Lemma sqrt_of_square (a b : R) : 0 <= b -> a = b * b -> sqrt a = b.
Proof. intros Hb ->. now apply sqrt_square. Qed.

Lemma stretchDist_nonneg (g : Game) : 0 <= stretchDist g.
Proof. apply sqrt_pos. Qed.

Lemma stretchDist_sq (g : Game) :
  stretchDist g * stretchDist g
  = (px (anchorPos g) - px (ballPos g)) * (px (anchorPos g) - px (ballPos g))
    + (py (anchorPos g) - py (ballPos g)) * (py (anchorPos g) - py (ballPos g)).
Proof.
  unfold stretchDist. cbv zeta. apply sqrt_sqrt.
  apply Rplus_le_le_0_compat; apply Rle_0_sqr.
Qed.

Lemma velocityMultiplier_bounds (d : R) :
  0 <= d -> MIN_FORCE_MULT <= velocityMultiplier d <= MAX_FORCE_MULT.
Proof.
  intros Hd. unfold velocityMultiplier, MIN_FORCE_MULT, MAX_FORCE_MULT,
    MAX_DRAG_DIST.
  assert (H0 : 0 <= Rmin (d / 180) 1).
  { apply Rmin_glb; [|lra]. apply Rmult_le_pos; lra. }
  pose proof (Rmin_r (d / 180) 1) as H1. nra.
Qed.

(** What [releaseBall] does, by the two cases of its test. *)
Lemma releaseBall_launch (f : Frame) (g : Game) :
  30 < stretchDist g ->
  releaseBall f g
  = set_ballVel
      (mkPoint ((px (anchorPos g) - px (ballPos g))
                * velocityMultiplier (stretchDist g))
               ((py (anchorPos g) - py (ballPos g))
                * velocityMultiplier (stretchDist g)))
      (set_flightStartTime (now f)
         (set_isFlying true (set_isPinching false g))).
Proof.
  intros H. unfold releaseBall. cbn [set_isPinching anchorPos ballPos].
  fold (stretchDist g). apply Rltb_true in H. now rewrite H.
Qed.

Lemma releaseBall_cancel (f : Frame) (g : Game) :
  stretchDist g <= 30 ->
  releaseBall f g = set_ballPos (anchorPos g) (set_isPinching false g).
Proof.
  intros H. unfold releaseBall. cbn [set_isPinching anchorPos ballPos].
  fold (stretchDist g). apply Rltb_false in H. now rewrite H.
Qed.

(** A frame that finds the trigger released while the game is Aiming
    runs the release branch. *)
Lemma handleInput_release (f : Frame) (g : Game) :
  isMenuOpen f = false -> isGameOver g = false ->
  isPinching g = true -> isFlying g = false ->
  (handPos f = None \/ PINCH_THRESHOLD <= pinchDist f) ->
  handleInput f g = releaseBall f g.
Proof.
  intros Hm Ho Hp Hf Hrel. unfold handleInput. rewrite Hm, Ho, Hp. simpl.
  destruct (handPos f) as [h|]; [|reflexivity].
  destruct Hrel as [Hrel | Hrel]; [discriminate|].
  assert (E1 : Rltb (pinchDist f) PINCH_THRESHOLD = false)
    by now apply Rltb_false.
  assert (E2 : Rleb PINCH_THRESHOLD (pinchDist f) = true)
    by now apply Rleb_true.
  now rewrite E1, E2.
Qed.

(** C7: when the trigger is released while Aiming, the ball is launched
    exactly when the draw distance is strictly above 30; at 30 or below
    the shot is cancelled and the ball is put back on the anchor, at
    rest; a launched ball gets the velocity (anchor - ball) * m with
    m = MIN_FORCE_MULT + (MAX_FORCE_MULT - MIN_FORCE_MULT) * r * r,
    r = min (d / 180) 1, the two multipliers being 0.15 and 0.45. *)
Theorem release_launches_iff_draw_exceeds_30 (f : Frame) (g : Game) :
  isMenuOpen f = false -> isGameOver g = false ->
  isPinching g = true -> isFlying g = false ->
  (handPos f = None \/ PINCH_THRESHOLD <= pinchDist f) ->
  let g' := handleInput f g in
  let d := stretchDist g in
  let r := Rmin (d / 180) 1 in
  let m := MIN_FORCE_MULT + (MAX_FORCE_MULT - MIN_FORCE_MULT) * (r * r) in
  (isFlying g' = true <-> 30 < d) /\
  (d <= 30 ->
     isFlying g' = false /\ isPinching g' = false /\
     ballPos g' = anchorPos g /\ ballVel g' = ballVel g) /\
  (30 < d ->
     isPinching g' = false /\
     ballPos g' = ballPos g /\
     ballVel g' = mkPoint ((px (anchorPos g) - px (ballPos g)) * m)
                          ((py (anchorPos g) - py (ballPos g)) * m)) /\
  MIN_FORCE_MULT = 15 / 100 /\ MAX_FORCE_MULT = 45 / 100.
Proof.
  intros Hm Ho Hp Hf Hrel. cbv zeta.
  rewrite (handleInput_release f g Hm Ho Hp Hf Hrel).
  split; [|split; [|split; [|split; reflexivity]]].
  - destruct (Rlt_dec 30 (stretchDist g)) as [H | H].
    + rewrite (releaseBall_launch f g H). simpl. tauto.
    + rewrite (releaseBall_cancel f g ltac:(lra)). simpl. rewrite Hf.
      split; [discriminate | contradiction].
  - intros H. rewrite (releaseBall_cancel f g H). simpl. auto.
  - intros H. rewrite (releaseBall_launch f g H). simpl. auto.
Qed.

Lemma aimedGame_stretch : stretchDist aimedGame = 60.
Proof.
  unfold stretchDist. cbn. apply sqrt_of_square; [lra|].
  unfold SLINGSHOT_BOTTOM_OFFSET. lra.
Qed.

Lemma release_launches_iff_draw_exceeds_30_witness :
  let g' := handleInput releaseFrame aimedGame in
  let d := stretchDist aimedGame in
  let r := Rmin (d / 180) 1 in
  let m := MIN_FORCE_MULT + (MAX_FORCE_MULT - MIN_FORCE_MULT) * (r * r) in
  (isFlying g' = true <-> 30 < d) /\
  (d <= 30 ->
     isFlying g' = false /\ isPinching g' = false /\
     ballPos g' = anchorPos aimedGame /\ ballVel g' = ballVel aimedGame) /\
  (30 < d ->
     isPinching g' = false /\
     ballPos g' = ballPos aimedGame /\
     ballVel g' = mkPoint ((px (anchorPos aimedGame) - px (ballPos aimedGame)) * m)
                          ((py (anchorPos aimedGame) - py (ballPos aimedGame)) * m)) /\
  MIN_FORCE_MULT = 15 / 100 /\ MAX_FORCE_MULT = 45 / 100.
Proof.
  apply (release_launches_iff_draw_exceeds_30 releaseFrame aimedGame);
    try reflexivity.
  left. reflexivity.
Defined.

(** *** Several frames on a canvas that keeps its size *)

Lemma resizeCanvas_keeps (f : Frame) (g : Game) :
  keepsCanvas g f -> resizeCanvas f g = g.
Proof.
  intros [Hw Hh]. unfold resizeCanvas. now rewrite Hw, Hh, !Z.eqb_refl.
Qed.

Lemma isPinching_releaseBall (f : Frame) (g : Game) :
  isPinching (releaseBall f g) = false.
Proof. unfold releaseBall. now destruct (Rltb _ _). Qed.

Lemma isFlying_releaseBall (f : Frame) (g : Game) :
  isFlying g = false ->
  isFlying (releaseBall f g) = true -> 30 < stretchDist g.
Proof.
  intros Hf H. destruct (Rlt_dec 30 (stretchDist g)) as [Hd | Hd]; [exact Hd|].
  rewrite (releaseBall_cancel f g ltac:(lra)) in H. simpl in H. congruence.
Qed.

Lemma dragBall_pinching (h : Point) (g : Game) :
  isPinching (dragBall h g) = isPinching g.
Proof. unfold dragBall. now destruct (Rltb _ _). Qed.

Lemma dragBall_flying (h : Point) (g : Game) :
  isFlying (dragBall h g) = isFlying g.
Proof. unfold dragBall. now destruct (Rltb _ _). Qed.

(** The radial clamp: after [dragBall] the ball is at most
    [MAX_DRAG_DIST] away from the anchor. *)
Lemma dragBall_stretch (h : Point) (g : Game) :
  stretchDist (dragBall h g) <= MAX_DRAG_DIST.
Proof.
  unfold dragBall. cbv zeta.
  destruct (Rltb _ _) eqn:E.
  - right. unfold stretchDist. cbn. apply sqrt_of_square.
    + unfold MAX_DRAG_DIST. lra.
    + match goal with |- context [cos ?a] =>
        pose proof (sin2_cos2 a) as Hsc; unfold Rsqr in Hsc;
        generalize dependent (cos a); generalize dependent (sin a)
      end.
      intros s c Hsc. unfold MAX_DRAG_DIST. nra.
  - apply Rltb_false in E. cbn in E.
    unfold stretchDist. cbn.
    match goal with
    | H : sqrt ?X <= _ |- sqrt ?Y <= _ => replace Y with X by ring
    end.
    exact E.
Qed.

(** Inside [handleInput] the flag [isFlying] is raised by the release
    branch only. *)
Lemma handleInput_launch (f : Frame) (g : Game) :
  isFlying g = false -> isFlying (handleInput f g) = true ->
  isPinching g = true /\ handleInput f g = releaseBall f g.
Proof.
  intros Hf. unfold handleInput.
  destruct (handPos f) as [h|].
  - destruct (negb (isMenuOpen f) && negb (isGameOver g)); cbn [andb].
    + destruct (Rltb (pinchDist f) PINCH_THRESHOLD); cbn [andb].
      * rewrite Hf. cbn [negb].
        destruct (negb (isPinching g) && Rltb _ 100);
          [cbn [set_isPinching isPinching]|destruct (isPinching g)];
          rewrite ?dragBall_flying; simpl; congruence.
      * destruct (isPinching g); cbn [andb].
        -- destruct (Rleb _ _); [auto|]. rewrite Hf. simpl. congruence.
        -- rewrite Hf. simpl. congruence.
    + rewrite Hf. destruct (isPinching g); simpl; congruence.
  - destruct (negb (isMenuOpen f) && negb (isGameOver g)); cbn [andb].
    + destruct (isPinching g); [auto|]. rewrite Hf. simpl. congruence.
    + rewrite Hf. destruct (isPinching g); simpl; congruence.
Qed.

Lemma handleInput_clamped (f : Frame) (g : Game) :
  drawClamped g -> drawClamped (handleInput f g).
Proof.
  unfold drawClamped. intros J. unfold handleInput.
  destruct (handPos f) as [h|].
  - destruct (negb (isMenuOpen f) && negb (isGameOver g)
              && Rltb (pinchDist f) PINCH_THRESHOLD && negb (isFlying g)).
    + destruct (negb (isPinching g) && Rltb _ 100).
      * cbn [set_isPinching isPinching]. intros _. apply dragBall_stretch.
      * destruct (isPinching g) eqn:Hp; [|congruence].
        intros _. apply dragBall_stretch.
    + destruct (negb (isMenuOpen f) && negb (isGameOver g) && isPinching g
                && Rleb PINCH_THRESHOLD (pinchDist f)).
      * rewrite isPinching_releaseBall. discriminate.
      * destruct (isPinching g) eqn:Hp.
        -- rewrite andb_false_r. intros _. now apply J.
        -- destruct (negb (isFlying g) && negb false); simpl; congruence.
  - destruct (negb (isMenuOpen f) && negb (isGameOver g) && isPinching g).
    + rewrite isPinching_releaseBall. discriminate.
    + destruct (isPinching g) eqn:Hp.
      * rewrite andb_false_r. intros _. now apply J.
      * destruct (negb (isFlying g) && negb false); simpl; congruence.
Qed.

Lemma handleInput_canvas (f : Frame) (g : Game) :
  canvasWidth (handleInput f g) = canvasWidth g /\
  canvasHeight (handleInput f g) = canvasHeight g.
Proof.
  unfold handleInput, dragBall, releaseBall.
  repeat match goal with
         | |- context [match ?c with _ => _ end] => destruct c
         end; cbn; auto.
Qed.

Lemma frameInput_keeps (f : Frame) (g : Game) :
  keepsCanvas g f -> frameInput f g = handleInput f g.
Proof. intros H. unfold frameInput. now rewrite resizeCanvas_keeps. Qed.

Lemma sameDraw_stretch (g g' : Game) :
  sameDraw g g' -> stretchDist g' = stretchDist g.
Proof. intros (Ha & Hb & _). unfold stretchDist. now rewrite Ha, Hb. Qed.

Lemma onFixedCanvas_clamped (g : Game) : onFixedCanvas g -> drawClamped g.
Proof.
  induction 1 as [g Hp | g f _ IH Hk | g g' _ IH Hs].
  - unfold drawClamped. congruence.
  - rewrite (frameInput_keeps f g Hk). now apply handleInput_clamped.
  - unfold drawClamped in *. rewrite (sameDraw_stretch g g' Hs).
    destruct Hs as (_ & _ & ->). exact IH.
Qed.

(** The launch speed is the draw distance times the multiplier. *)
Lemma launch_speed (f : Frame) (g : Game) :
  30 < stretchDist g ->
  speed (ballVel (releaseBall f g))
  = stretchDist g * velocityMultiplier (stretchDist g).
Proof.
  intros H. rewrite (releaseBall_launch f g H). cbn [ballVel set_ballVel].
  unfold speed. cbn [px py].
  pose proof (velocityMultiplier_bounds (stretchDist g)
                (stretchDist_nonneg g)) as [Hlo _].
  unfold MIN_FORCE_MULT in Hlo.
  apply sqrt_of_square.
  - apply Rmult_le_pos; [apply stretchDist_nonneg | lra].
  - pose proof (stretchDist_sq g) as Hsq.
    generalize dependent (velocityMultiplier (stretchDist g)).
    generalize dependent (stretchDist g). intros d _ Hsq m _. nra.
Qed.

Ltac eval_sqrt v :=
  match goal with
  | |- context [sqrt ?X] =>
      rewrite (sqrt_of_square X v)
        by (unfold SLINGSHOT_BOTTOM_OFFSET, MAX_DRAG_DIST; lra)
  end.

Ltac decide_Rltb b :=
  match goal with
  | |- context [Rltb ?u ?w] =>
      let E := fresh "E" in
      assert (E : Rltb u w = b)
        by (first [apply Rltb_true | apply Rltb_false];
            unfold PINCH_THRESHOLD, MAX_DRAG_DIST; lra);
      rewrite E; clear E
  end.

Lemma aim_step : frameInput aimFrame restGame = aimedGame.
Proof.
  rewrite frameInput_keeps by (split; reflexivity).
  unfold handleInput, dragBall. cbn.
  decide_Rltb true. cbn.
  eval_sqrt 60. decide_Rltb true. cbn.
  eval_sqrt 60. decide_Rltb false.
  reflexivity.
Qed.

Lemma resized_stretch :
  stretchDist (resizeCanvas releaseFrameResized aimedGame) = 360.
Proof.
  unfold stretchDist. cbn. apply sqrt_of_square; [lra|].
  unfold SLINGSHOT_BOTTOM_OFFSET. lra.
Qed.

Lemma velocityMultiplier_full (d : R) :
  MAX_DRAG_DIST <= d -> velocityMultiplier d = MAX_FORCE_MULT.
Proof.
  intros H. unfold velocityMultiplier, MAX_DRAG_DIST in *.
  rewrite Rmin_right by lra. lra.
Qed.

Lemma velocityMultiplier_partial (d : R) :
  d <= MAX_DRAG_DIST ->
  velocityMultiplier d = 15 / 100 + 30 / 100 * (d / 180) ^ 2.
Proof.
  intros H. unfold velocityMultiplier, MAX_DRAG_DIST, MIN_FORCE_MULT,
    MAX_FORCE_MULT in *.
  rewrite Rmin_left by lra. lra.
Qed.

(** C10 (as stated, refuted): the ball is pinched 60 units below the
    anchor; in the next frame the container has shrunk from 1000 x 620 to
    1000 x 320, which moves the anchor 300 units up but not the ball, and
    the hand is gone.  The ball is launched with a draw distance of 360
    and a speed of 360 * 0.45 = 162, twice the bound of 81. *)
Lemma launch_speed_above_81_after_resize :
  let g1 := frameInput aimFrame restGame in
  let g2 := frameInput releaseFrameResized g1 in
  isPinching g1 = true /\ isFlying g1 = false /\
  stretchDist g1 = 60 /\
  isFlying g2 = true /\ speed (ballVel g2) = 162 /\
  ~ speed (ballVel g2) <= MAX_DRAG_DIST * MAX_FORCE_MULT.
Proof.
  cbv zeta. rewrite aim_step.
  split; [reflexivity|]. split; [reflexivity|].
  split; [apply aimedGame_stretch|].
  unfold frameInput.
  set (g := resizeCanvas releaseFrameResized aimedGame).
  assert (Hd : stretchDist g = 360) by apply resized_stretch.
  assert (Hrel : handleInput releaseFrameResized g
                 = releaseBall releaseFrameResized g).
  { apply handleInput_release; try reflexivity. now left. }
  rewrite Hrel.
  assert (Hs : speed (ballVel (releaseBall releaseFrameResized g)) = 162).
  { rewrite launch_speed by lra. rewrite Hd.
    rewrite velocityMultiplier_full by (unfold MAX_DRAG_DIST; lra).
    unfold MAX_FORCE_MULT. lra. }
  split; [|split; [exact Hs|]].
  - rewrite releaseBall_launch by lra. reflexivity.
  - rewrite Hs. unfold MAX_DRAG_DIST, MAX_FORCE_MULT. lra.
Qed.

(** C10 (amended): on a canvas that has kept its size since the ball was
    last free, a frame that launches the ball does so with a draw distance
    [d] in (30, 180], a speed of d * (0.15 + 0.3 * (d / 180)^2), and that
    speed is at most 180 * 0.45 = 81. *)
Theorem launch_speed_bounded_on_fixed_canvas (g : Game) (f : Frame) :
  onFixedCanvas g ->
  keepsCanvas g f ->
  isFlying g = false ->
  isFlying (frameInput f g) = true ->
  let d := stretchDist g in
  let v := ballVel (frameInput f g) in
  30 < d <= 180 /\
  speed v = d * (15 / 100 + 30 / 100 * (d / 180) ^ 2) /\
  speed v <= 81 /\
  MAX_DRAG_DIST * MAX_FORCE_MULT = 81.
Proof.
  intros Hrun Hk Hf Hlaunch. cbv zeta.
  pose proof (onFixedCanvas_clamped g Hrun) as J.
  revert Hlaunch. rewrite (frameInput_keeps f g Hk). intros Hlaunch.
  destruct (handleInput_launch f g Hf Hlaunch) as [Hp Hrel].
  rewrite Hrel in *.
  pose proof (isFlying_releaseBall f g Hf Hlaunch) as Hlo.
  pose proof (J Hp) as Hhi.
  rewrite (launch_speed f g Hlo), (velocityMultiplier_partial _ Hhi).
  unfold MAX_DRAG_DIST, MAX_FORCE_MULT in *.
  split; [lra|]. split; [reflexivity|]. split; [|lra].
  generalize dependent (stretchDist g). intros d Hlo Hhi.
  assert (H0 : 0 < d / 180 <= 1) by lra.
  generalize dependent (d / 180). intros t Ht.
  assert (Hm : 0 <= 15 / 100 + 30 / 100 * t ^ 2 <= 45 / 100)
    by (simpl; nra).
  generalize dependent (15 / 100 + 30 / 100 * t ^ 2). intros m Hm. nra.
Qed.

Lemma aimedGame_onFixedCanvas : onFixedCanvas aimedGame.
Proof.
  rewrite <- aim_step. apply fixed_frame.
  - apply fixed_free. reflexivity.
  - split; reflexivity.
Qed.

Lemma launch_speed_bounded_on_fixed_canvas_witness :
  let d := stretchDist aimedGame in
  let v := ballVel (frameInput releaseFrame aimedGame) in
  30 < d <= 180 /\
  speed v = d * (15 / 100 + 30 / 100 * (d / 180) ^ 2) /\
  speed v <= 81 /\
  MAX_DRAG_DIST * MAX_FORCE_MULT = 81.
Proof.
  apply (launch_speed_bounded_on_fixed_canvas aimedGame releaseFrame).
  - exact aimedGame_onFixedCanvas.
  - split; reflexivity.
  - reflexivity.
  - rewrite frameInput_keeps by (split; reflexivity).
    rewrite handleInput_release by (try reflexivity; now left).
    rewrite releaseBall_launch by (rewrite aimedGame_stretch; lra).
    reflexivity.
Defined.

(** ** The targeting test *)

Lemma forallb_false_exists (A : Type) (f : A -> bool) (l : list A) :
  forallb f l = false <-> exists a, In a l /\ f a = false.
Proof.
  induction l as [|a l IH]; simpl.
  - split; [discriminate | intros (a & [] & _)].
  - rewrite andb_false_iff, IH. split.
    + intros [H | (b & Hb & H)]; eauto.
    + intros (b & [<- | Hb] & H); eauto.
Qed.

Lemma blocksAt_true (target : Bubble) (c : Point) (b : Bubble) :
  blocksAt target c b = true
  <-> active b = true /\ id b <> id target /\
      (px c - x b) ^ 2 + (py c - y b) ^ 2 < (BUBBLE_RADIUS * (18 / 10)) ^ 2.
Proof.
  unfold blocksAt.
  destruct (active b); cbn [negb orb].
  - destruct (BubbleId_eqb (id b) (id target)) eqn:E.
    + apply BubbleId_eqb_spec in E. split; [discriminate | tauto].
    + apply BubbleId_eqb_neq in E. rewrite Rltb_true. tauto.
  - split; [discriminate | intros [H _]; discriminate].
Qed.

Lemma Math_ceil_IZR (z : Z) : Math_ceil (IZR z) = z.
Proof.
  unfold Math_ceil. rewrite <- opp_IZR.
  rewrite <- (Int_part_spec (IZR (- z)) (- z)); [lia | lra].
Qed.

(** C9: [isPathClear] takes [steps = ceil (distance / (radius / 2))]
    samples on the segment from the anchor to the target, looks at the
    samples 1 .. steps - 3 only, and answers [false] exactly when some
    live bubble other than the target has its centre closer than
    1.8 * radius to one of them; the colour of that bubble plays no
    part, so a bubble of another colour on the line blocks the shot. *)
Theorem isPathClear_false_iff_blocked (g : Game) (target : Bubble) :
  let dx := x target - px (anchorPos g) in
  let dy := y target - py (anchorPos g) in
  let steps := Math_ceil (sqrt (dx * dx + dy * dy) / (BUBBLE_RADIUS / 2)) in
  let sample (i : Z) :=
    mkPoint (px (anchorPos g) + dx * (IZR i / IZR steps))
            (py (anchorPos g) + dy * (IZR i / IZR steps)) in
  let near (c : Point) (b : Bubble) :=
    (px c - x b) ^ 2 + (py c - y b) ^ 2 < (18 / 10 * BUBBLE_RADIUS) ^ 2 in
  (isPathClear g target = false
   <-> exists i b,
         (1 <= i < steps - 2)%Z /\ In b (bubbles g) /\ active b = true /\
         id b <> id target /\ near (sample i) b) /\
  (forall i b,
     (1 <= i < steps - 2)%Z -> In b (bubbles g) -> active b = true ->
     id b <> id target -> color b <> color target -> near (sample i) b ->
     isPathClear g target = false).
Proof.
  cbv zeta.
  assert (Hiff :
    isPathClear g target = false
    <-> exists i b,
          (1 <= i < pathSteps g target - 2)%Z /\ In b (bubbles g) /\
          active b = true /\ id b <> id target /\
          (px (samplePoint g target i) - x b) ^ 2
          + (py (samplePoint g target i) - y b) ^ 2
          < (18 / 10 * BUBBLE_RADIUS) ^ 2).
  { unfold isPathClear. cbv zeta. rewrite forallb_false_exists. split.
    - intros (i & Hi & H). apply negb_false_iff, existsb_exists in H.
      destruct H as (b & Hb & H). apply blocksAt_true in H.
      destruct H as (Ha & Hid & Hd). apply zrange_In in Hi.
      exists i, b. repeat split; try assumption; try lia.
      replace (18 / 10 * BUBBLE_RADIUS) with (BUBBLE_RADIUS * (18 / 10))
        by ring. exact Hd.
    - intros (i & b & Hi & Hb & Ha & Hid & Hd).
      exists i. split; [apply zrange_In; lia|].
      apply negb_false_iff, existsb_exists. exists b. split; [assumption|].
      apply blocksAt_true. repeat split; try assumption.
      replace (BUBBLE_RADIUS * (18 / 10)) with (18 / 10 * BUBBLE_RADIUS)
        by ring. exact Hd. }
  split; [exact Hiff|].
  intros i b Hi Hb Ha Hid _ Hd. apply Hiff. exists i, b. auto.
Qed.

Lemma pathGame_steps : pathSteps pathGame pathTarget = 30%Z.
Proof.
  unfold pathSteps. cbn.
  rewrite (sqrt_of_square _ 330) by lra.
  replace (330 / (BUBBLE_RADIUS / 2)) with (IZR 30)
    by (unfold BUBBLE_RADIUS; lra).
  apply Math_ceil_IZR.
Qed.

Lemma isPathClear_false_iff_blocked_witness :
  isPathClear pathGame pathTarget = false.
Proof.
  apply (proj2 (isPathClear_false_iff_blocked pathGame pathTarget)
           15%Z pathBlocker).
  - fold (pathSteps pathGame pathTarget). rewrite pathGame_steps. lia.
  - simpl. tauto.
  - reflexivity.
  - discriminate.
  - discriminate.
  - fold (pathSteps pathGame pathTarget). rewrite pathGame_steps.
    cbn. unfold BUBBLE_RADIUS. lra.
Defined.

(** ** Landing *)

Lemma cell_eqb_spec (p q : Z * Z) : cell_eqb p q = true <-> p = q.
Proof.
  destruct p as [a b], q as [c d]. unfold cell_eqb. simpl.
  rewrite andb_true_iff, !Z.eqb_eq. split; [intros [-> ->] | intros [= -> ->]];
    auto.
Qed.

Lemma distinctCells_NoDup (l : list (Z * Z)) :
  distinctCells l = true <-> NoDup l.
Proof.
  induction l as [|p l IH]; simpl.
  - split; [constructor | reflexivity].
  - rewrite andb_true_iff, negb_true_iff, IH, NoDup_cons_iff.
    assert (H : existsb (cell_eqb p) l = false <-> ~ In p l).
    { split.
      - intros E Hin. assert (existsb (cell_eqb p) l = true); [|congruence].
        apply existsb_exists. exists p. split; [assumption|].
        now apply cell_eqb_spec.
      - intros Hn. destruct (existsb (cell_eqb p) l) eqn:E; [|reflexivity].
        apply existsb_exists in E as (q & Hq & E).
        apply cell_eqb_spec in E. subst. contradiction. }
    now rewrite H.
Qed.

Lemma occupied_true (bs : list Bubble) (r c : Z) :
  occupied bs r c = true
  <-> exists b, In b bs /\ active b = true /\ cell b = (r, c).
Proof.
  unfold occupied, cell. rewrite existsb_exists. split.
  - intros (b & Hb & H). apply andb_prop in H as [H Hc].
    apply andb_prop in H as [Ha Hr]. apply Z.eqb_eq in Hr, Hc.
    exists b. subst. auto.
  - intros (b & Hb & Ha & E). injection E as <- <-. exists b.
    split; [assumption|]. now rewrite Ha, !Z.eqb_refl.
Qed.

Lemma windowFull_spec (bs : list Bubble) :
  windowFull bs = true
  <-> forall r c, (0 <= r < gridRows + 5)%Z -> (0 <= c < colsInRow r)%Z ->
                  occupied bs r c = true.
Proof.
  unfold windowFull. rewrite forallb_forall. split.
  - intros H r c Hr Hc. specialize (H r (proj2 (zrange_In _ _ _) Hr)).
    rewrite forallb_forall in H. apply H. now apply zrange_In.
  - intros H r Hr. apply forallb_forall. intros c Hc.
    apply zrange_In in Hr, Hc. now apply H.
Qed.

(** With every cell of the window taken the scan leaves its variables as
    they were initialised: [bestDist] is still [Infinity] and the four
    others are 0. *)
Lemma scanGrid_exhausted (g : Game) (width : R) :
  windowFull (bubbles g) = true -> scanGrid g width = initialBest.
Proof.
  intros H. unfold windowFull in H. unfold scanGrid.
  generalize initialBest as best.
  induction (zrange 0 (gridRows + 5)) as [|r rows IH]; intros best;
    [reflexivity|].
  simpl in H. apply andb_prop in H as [Hr Hrows].
  simpl. rewrite <- (IH Hrows best) at 2. f_equal.
  unfold scanRow. clear IH Hrows.
  induction (zrange 0 (colsInRow r)) as [|c cols IHc]; [reflexivity|].
  simpl in Hr. apply andb_prop in Hr as [Hc Hcols].
  simpl. unfold scanCell at 2. rewrite Hc. now apply IHc.
Qed.

Lemma fullGrid_windowFull : windowFull fullGrid = true.
Proof. lazy. reflexivity. Qed.

Lemma landedBubble_exhausted (g : Game) (clock : Z) :
  windowFull (bubbles g) = true ->
  landedBubble (set_isFlying false g)
               (scanGrid (set_isFlying false g) (IZR (canvasWidth g))) clock
  = mkBubble (IdCell 0 0 clock) 0 0 0 0 (selectedColor g) true.
Proof.
  intros H. rewrite scanGrid_exhausted by exact H. reflexivity.
Qed.

Lemma fullGrid_stray_search :
  findMatches (fullGrid ++ [strayBubble]) strayBubble = Some [strayBubble].
Proof. lazy. reflexivity. Qed.

Lemma fullGame_landing : landBall 9000 fullGame = Some fullGameLanded.
Proof.
  unfold landBall. cbv zeta.
  change (canvasWidth (set_isFlying false fullGame)) with (canvasWidth fullGame).
  rewrite (landedBubble_exhausted fullGame 9000 fullGrid_windowFull).
  change (mkBubble (IdCell 0 0 9000) 0 0 0 0 (selectedColor fullGame) true)
    with strayBubble.
  unfold checkMatches.
  change (bubbles (set_bubbles
            (bubbles (set_isFlying false fullGame) ++ [strayBubble])
            (set_isFlying false fullGame)))
    with (fullGrid ++ [strayBubble]).
  rewrite fullGrid_stray_search. reflexivity.
Qed.

(** C2 (failing case): every cell of rows 0..12 holds a live bubble, so
    the landing scan finds no free cell.  The shot is not dropped: the
    block still pushes a new live bubble, built from the initial values
    of the scan variables, at cell (0, 0) and pixel (0, 0), and the field
    grows by one bubble. *)
Theorem landBall_exhausted_window_still_places :
  windowFull (bubbles fullGame) = true /\
  scanGrid (set_isFlying false fullGame) 1000 = initialBest /\
  exists g',
    landBall 9000 fullGame = Some g' /\
    bubbles g' = bubbles fullGame ++ [strayBubble] /\
    bubbles g' <> bubbles fullGame /\
    (cell strayBubble, x strayBubble, y strayBubble, active strayBubble)
    = ((0%Z, 0%Z), 0, 0, true).
Proof.
  split; [exact fullGrid_windowFull|].
  split; [apply scanGrid_exhausted; exact fullGrid_windowFull|].
  exists fullGameLanded. split; [exact fullGame_landing|].
  split; [reflexivity|]. split; [|reflexivity].
  cbn [bubbles fullGameLanded fullGame]. intros E.
  apply (f_equal (@length Bubble)) in E. rewrite length_app in E.
  simpl in E. lia.
Qed.

Lemma fullGrid_cellsUnique : cellsUnique fullGrid.
Proof. apply distinctCells_NoDup. lazy. reflexivity. Qed.

(** C3 (failing case): before the landing no two live bubbles of the
    full field share a cell; after it the bubble placed by the exhausted
    scan and the bubble already there are both live at cell (0, 0). *)
Theorem landBall_exhausted_window_duplicates_cell :
  cellsUnique (bubbles fullGame) /\
  exists g',
    landBall 9000 fullGame = Some g' /\
    ~ cellsUnique (bubbles g') /\
    exists b1 b2,
      In b1 (bubbles g') /\ In b2 (bubbles g') /\ id b1 <> id b2 /\
      active b1 = true /\ active b2 = true /\ cell b1 = cell b2.
Proof.
  split; [exact fullGrid_cellsUnique|].
  exists fullGameLanded. split; [exact fullGame_landing|]. split.
  - intros H. apply distinctCells_NoDup in H. revert H. lazy. discriminate.
  - exists (bubbleAt (IdCell 0 0 1) 0 0 1000 red true), strayBubble.
    split; [|split; [|split; [discriminate|repeat split]]].
    + cbn [bubbles fullGameLanded]. apply in_or_app. left. now left.
    + cbn [bubbles fullGameLanded]. apply in_or_app. right. now left.
Qed.

(** ** Cell uniqueness along the operations that keep it *)

Lemma NoDup_map_filter_sub (A B : Type) (h : A -> B) (p q : A -> bool)
    (l : list A) :
  (forall a, q a = true -> p a = true) ->
  NoDup (map h (filter p l)) -> NoDup (map h (filter q l)).
Proof.
  intros Hqp. induction l as [|a l IH]; simpl; [auto|].
  destruct (q a) eqn:Hq.
  - rewrite (Hqp a Hq). simpl. intros H. inversion H as [|? ? Hn Hnd]; subst.
    constructor; [|auto]. intros Hin. apply Hn.
    apply in_map_iff in Hin as (b & E & Hb). apply filter_In in Hb as [Hb Hqb].
    apply in_map_iff. exists b. split; [assumption|].
    apply filter_In. auto.
  - destruct (p a); simpl; intros H; [|auto].
    inversion H; subst. auto.
Qed.

Lemma deactivate_live (ms bs : list Bubble) :
  map cell (filter active (deactivate ms bs))
  = map cell (filter (fun b => active b && negb (isMatched ms b)) bs).
Proof.
  unfold deactivate. induction bs as [|b l IH]; simpl; [reflexivity|].
  destruct (isMatched ms b); simpl.
  - rewrite andb_false_r. exact IH.
  - rewrite andb_true_r. destruct (active b); simpl; now rewrite IH.
Qed.

(** Popping a cluster keeps the cells of the live bubbles distinct. *)
Lemma cellsUnique_deactivate (ms bs : list Bubble) :
  cellsUnique bs -> cellsUnique (deactivate ms bs).
Proof.
  unfold cellsUnique. rewrite deactivate_live.
  apply NoDup_map_filter_sub. intros a H. now apply andb_prop in H as [H _].
Qed.

Lemma cellsUnique_checkMatches (seed : Bubble) (g g' : Game) (r : bool) :
  cellsUnique (bubbles g) -> checkMatches seed g = Some (g', r) ->
  cellsUnique (bubbles g').
Proof.
  intros H. unfold checkMatches.
  destruct (findMatches (bubbles g) seed) as [ms|]; [|discriminate].
  destruct (3 <=? length ms)%nat; intros [= <- <-]; [|exact H].
  simpl. now apply cellsUnique_deactivate.
Qed.

Lemma shifted_live (width : R) (bs : list Bubble) :
  map cell (filter active (map (shiftDown width) bs))
  = map (fun p => ((fst p + 1)%Z, snd p)) (map cell (filter active bs)).
Proof.
  induction bs as [|b l IH]; simpl; [reflexivity|].
  destruct (active b); simpl; now rewrite IH.
Qed.

Lemma newRow_live (width : R) (clock : Z -> Z) (colorDraw : Z -> nat)
    (cols : list Z) :
  map cell (filter active (map (newRowBubble width clock colorDraw) cols))
  = map (fun c => (0%Z, c)) cols.
Proof. induction cols as [|c l IH]; simpl; [reflexivity | now rewrite IH]. Qed.

(** The ceiling drop keeps the cells of the live bubbles distinct, as
    long as no live bubble sits on a negative row. *)
Lemma cellsUnique_dropCeiling (width : R) (clock : Z -> Z)
    (colorDraw : Z -> nat) (g : Game) :
  cellsUnique (bubbles g) ->
  (forall b, In b (bubbles g) -> active b = true -> (0 <= row b)%Z) ->
  cellsUnique (bubbles (dropCeiling width clock colorDraw g)).
Proof.
  intros Hu Hrows. unfold cellsUnique in *.
  rewrite dropCeiling_bubbles, filter_app, map_app, newRow_live, shifted_live.
  apply NoDup_app.
  - apply Finite.Injective_map_NoDup; [|apply zrange_NoDup].
    intros a b [= E]. exact E.
  - apply Finite.Injective_map_NoDup; [|exact Hu].
    intros [a b] [c d] [= E1 E2]. simpl in *. f_equal; lia.
  - intros p Hnew Hold.
    apply in_map_iff in Hnew as (c & <- & _).
    apply in_map_iff in Hold as (q & E & Hq).
    apply in_map_iff in Hq as (b & <- & Hb).
    apply filter_In in Hb as [Hb Ha].
    specialize (Hrows b Hb Ha). injection E as E _. simpl in E. lia.
Qed.

Lemma scanCell_free (g : Game) (width : R) (r c : Z) (best : Best) :
  bestIsFree (bubbles g) best ->
  bestIsFree (bubbles g) (scanCell g width r best c).
Proof.
  intros H. unfold scanCell. cbv zeta.
  destruct (occupied (bubbles g) r c) eqn:Ho; [exact H|].
  destruct (closerThan _ _); [|exact H].
  intros _. exact Ho.
Qed.

Lemma scanGrid_free (g : Game) (width : R) :
  bestIsFree (bubbles g) (scanGrid g width).
Proof.
  unfold scanGrid.
  assert (H0 : bestIsFree (bubbles g) initialBest)
    by (intros H; now contradiction H).
  revert H0. generalize initialBest as best.
  induction (zrange 0 (gridRows + 5)) as [|r rows IH]; intros best H;
    [exact H|].
  simpl. apply IH. unfold scanRow. revert best H.
  induction (zrange 0 (colsInRow r)) as [|c cols IHc]; intros best H;
    [exact H|].
  simpl. apply IHc. now apply scanCell_free.
Qed.

Lemma landedBubble_cell (g : Game) (best : Best) (clock : Z) :
  cell (landedBubble g best clock) = (bestRow best, bestCol best).
Proof. reflexivity. Qed.

(** Landing keeps the cells of the live bubbles distinct whenever the
    scan has found a cell. *)
Lemma cellsUnique_landBall (clock : Z) (g g' : Game) :
  cellsUnique (bubbles g) ->
  bestDist (scanGrid (set_isFlying false g) (IZR (canvasWidth g))) <> None ->
  landBall clock g = Some g' ->
  cellsUnique (bubbles g').
Proof.
  intros Hu Hfound. unfold landBall. cbv zeta.
  change (canvasWidth (set_isFlying false g)) with (canvasWidth g).
  set (g1 := set_isFlying false g) in *.
  set (best := scanGrid g1 (IZR (canvasWidth g))) in *.
  set (nb := landedBubble g1 best clock).
  destruct (checkMatches nb _) as [[g3 r]|] eqn:Hc; [|discriminate].
  intros [= <-]. cbn [bubbles set_ballVel set_ballPos].
  apply (cellsUnique_checkMatches _ _ _ _) in Hc; [exact Hc|].
  cbn [bubbles set_bubbles]. unfold cellsUnique.
  rewrite filter_app, map_app. cbn [filter nb landedBubble active map].
  apply NoDup_app; [exact Hu | repeat constructor; simpl; tauto |].
  intros p Hp [<- | []].
  pose proof (scanGrid_free g1 (IZR (canvasWidth g)) Hfound) as Hfree.
  fold best in Hfree.
  assert (Hocc : occupied (bubbles g1) (bestRow best) (bestCol best) = true);
    [|congruence].
  apply occupied_true. apply in_map_iff in Hp as (b & E & Hb).
  apply filter_In in Hb as [Hb Ha]. exists b.
  split; [exact Hb | split; [exact Ha |]].
  rewrite E. apply landedBubble_cell.
Qed.

Lemma scanCell_keeps_found (g : Game) (width : R) (r c : Z) (best : Best) :
  bestDist best <> None -> bestDist (scanCell g width r best c) <> None.
Proof.
  intros H. unfold scanCell. cbv zeta.
  destruct (occupied _ _ _); [exact H|].
  destruct (closerThan _ _); [discriminate | exact H].
Qed.

Lemma scanCell_finds (g : Game) (width : R) (r c : Z) (best : Best) :
  occupied (bubbles g) r c = false ->
  bestDist (scanCell g width r best c) <> None.
Proof.
  intros Ho. unfold scanCell. cbv zeta. rewrite Ho.
  destruct (bestDist best) as [d|] eqn:E; simpl.
  - destruct (Rltb _ d); [discriminate | now rewrite E].
  - discriminate.
Qed.

Lemma scanRow_finds (g : Game) (width : R) (r : Z) (cols : list Z) :
  forall best,
    bestDist best <> None
    \/ existsb (fun c => negb (occupied (bubbles g) r c)) cols = true ->
    bestDist (fold_left (scanCell g width r) cols best) <> None.
Proof.
  induction cols as [|c cols IH]; intros best H; simpl in *.
  - destruct H as [H | H]; [exact H | discriminate].
  - apply IH. destruct H as [H | H].
    + left. now apply scanCell_keeps_found.
    + apply orb_prop in H as [H | H]; [left | now right].
      apply scanCell_finds. now apply negb_true_iff.
Qed.

(** A window with a free cell always yields a cell. *)
Lemma scanGrid_finds (g : Game) (width : R) :
  windowFull (bubbles g) = false -> bestDist (scanGrid g width) <> None.
Proof.
  unfold windowFull, scanGrid. generalize initialBest as best.
  assert (G : forall rows best,
    bestDist best <> None
    \/ forallb (fun r => forallb (fun c => occupied (bubbles g) r c)
                                 (zrange 0 (colsInRow r))) rows = false ->
    bestDist (fold_left (scanRow g width) rows best) <> None).
  { induction rows as [|r rows IH]; intros best H; simpl in *.
    - destruct H as [H | H]; [exact H | discriminate].
    - apply IH. destruct H as [H | H].
      + left. apply scanRow_finds. now left.
      + apply andb_false_iff in H as [H | H]; [left | now right].
        apply scanRow_finds. right.
        apply forallb_false_exists in H as (c & Hc & Ho).
        apply existsb_exists. exists c. now rewrite Ho. }
  intros best H. apply G. now right.
Qed.

(** Landing keeps the cells of the live bubbles distinct whenever the
    scan window has a free cell. *)
Lemma cellsUnique_landBall_free_cell (clock : Z) (g g' : Game) :
  cellsUnique (bubbles g) ->
  windowFull (bubbles g) = false ->
  landBall clock g = Some g' ->
  cellsUnique (bubbles g').
Proof.
  intros Hu Hw. apply cellsUnique_landBall; [exact Hu|].
  now apply scanGrid_finds.
Qed.

Lemma NoDup_flat_map_tagged (K B C : Type) (tag : B -> K) (h : B -> C)
    (f : K -> list B) (l : list K) :
  (forall k b, In b (f k) -> tag b = k) ->
  (forall b1 b2, h b1 = h b2 -> tag b1 = tag b2) ->
  (forall k, NoDup (map h (f k))) ->
  NoDup l -> NoDup (map h (flat_map f l)).
Proof.
  intros Htag Hh Hf. induction 1 as [|k l Hk Hl IH]; simpl; [constructor|].
  rewrite map_app. apply NoDup_app; [apply Hf | exact IH |].
  intros c H1 H2.
  apply in_map_iff in H1 as (b1 & <- & Hb1).
  apply in_map_iff in H2 as (b2 & E & Hb2).
  apply in_flat_map in Hb2 as (k' & Hk' & Hb2).
  apply Hh in E. rewrite (Htag _ _ Hb1), (Htag _ _ Hb2) in E. congruence.
Qed.

Lemma filter_all (A : Type) (p : A -> bool) (l : list A) :
  (forall a, In a l -> p a = true) -> filter p l = l.
Proof.
  induction l as [|a l IH]; simpl; intros H; [reflexivity|].
  rewrite (H a (or_introl eq_refl)), IH; auto.
Qed.

Lemma initCell_In (width : R) (stg : GameStage) (gapDraw : Z -> Z -> R)
    (colorDraw : Z -> Z -> nat) (clock : Z -> Z -> Z) (r c : Z) (b : Bubble) :
  In b (initCell width stg gapDraw colorDraw clock r c) ->
  row b = r /\ col b = c /\ active b = true.
Proof.
  unfold initCell. destruct (Rltb _ _); simpl; [|tauto].
  intros [<- | []]. auto.
Qed.

(** A freshly initialised grid has its live bubbles on distinct cells. *)
Lemma cellsUnique_initGrid (width : R) (stg : GameStage)
    (gapDraw : Z -> Z -> R) (colorDraw : Z -> Z -> nat)
    (clock : Z -> Z -> Z) (g : Game) :
  cellsUnique (bubbles (initGrid width stg gapDraw colorDraw clock g)).
Proof.
  unfold cellsUnique, initGrid. cbn [bubbles set_bubbles].
  rewrite filter_all.
  - apply NoDup_flat_map_tagged with (tag := row); [| |  |apply zrange_NoDup].
    + intros r b Hb. apply in_flat_map in Hb as (c & _ & Hb).
      now apply initCell_In in Hb.
    + intros b1 b2 [= E _]. exact E.
    + intros r.
      apply NoDup_flat_map_tagged with (tag := col); [| | |apply zrange_NoDup].
      * intros c b Hb. now apply initCell_In in Hb.
      * intros b1 b2 [= _ E]. exact E.
      * intros c. unfold initCell. destruct (Rltb _ _); simpl;
          repeat constructor; simpl; tauto.
  - intros b Hb. apply in_flat_map in Hb as (r & _ & Hb).
    apply in_flat_map in Hb as (c & _ & Hb). now apply initCell_In in Hb.
Qed.

(** The operations on the field always return. *)
Lemma checkMatches_total (seed : Bubble) (g : Game) :
  In seed (bubbles g) -> exists r, checkMatches seed g = Some r.
Proof.
  intros H. unfold checkMatches.
  destruct (findMatches_total _ _ H) as [ms ->].
  destruct (3 <=? length ms)%nat; eauto.
Qed.

Lemma landBall_total (clock : Z) (g : Game) :
  exists g', landBall clock g = Some g'.
Proof.
  unfold landBall. cbv zeta.
  match goal with
  | |- context [checkMatches ?nb ?g2] =>
      destruct (checkMatches_total nb g2) as [[g3 r] ->]
  end.
  - cbn [bubbles set_bubbles]. apply in_or_app. right. now left.
  - eauto.
Qed.

(** ** The geometry of the grid *)

Lemma sqrt3_sq : sqrt 3 * sqrt 3 = 3.
Proof. apply sqrt_sqrt. lra. Qed.

Lemma getBubblePos_sqdist (width : R) (r c r' c' : Z) :
  (px (getBubblePos r' c' width) - px (getBubblePos r c width)) ^ 2
  + (py (getBubblePos r' c' width) - py (getBubblePos r c width)) ^ 2
  = BUBBLE_RADIUS ^ 2 * IZR (cellGap r c r' c').
Proof.
  unfold cellGap, getBubblePos, ROW_HEIGHT, BUBBLE_RADIUS, GRID_COLS.
  cbn [px py]. cbv zeta.
  repeat (rewrite plus_IZR || rewrite mult_IZR || rewrite minus_IZR).
  pose proof sqrt3_sq as Hs. generalize dependent (sqrt 3). intros s Hs.
  assert (Hy : (22 + IZR r' * (22 * s) - (22 + IZR r * (22 * s))) ^ 2
               = 22 ^ 2 * (3 * ((IZR r' - IZR r) * (IZR r' - IZR r)))).
  { transitivity (22 ^ 2 * ((s * s) * ((IZR r' - IZR r) * (IZR r' - IZR r))));
      [ring | now rewrite Hs]. }
  rewrite Hy. unfold rowShift.
  destruct (isOddRow r), (isOddRow r'); simpl IZR; ring.
Qed.

Lemma rowShift_step (r r' : Z) :
  (r' = r + 1 \/ r' = r - 1)%Z ->
  (rowShift r' - rowShift r = 1 \/ rowShift r' - rowShift r = -1)%Z.
Proof.
  unfold rowShift.
  intros [-> | ->]; [rewrite isOddRow_succ | rewrite isOddRow_pred];
    destruct (isOddRow r); simpl; lia.
Qed.

Lemma cellGap_neighbor (r c r' c' : Z) :
  isNeighborCell r c r' c' = true <-> cellGap r c r' c' = 4%Z.
Proof.
  unfold isNeighborCell, cellGap. cbv zeta.
  destruct (Z.abs (r' - r) >? 1)%Z eqn:Ha.
  - apply Z.gtb_lt in Ha. split; [discriminate|]. intros E. exfalso.
    pose proof (Z.square_nonneg (2 * (c' - c) + rowShift r' - rowShift r)).
    assert (Hfar : (r' - r <= -2 \/ 2 <= r' - r)%Z) by lia.
    destruct Hfar; nia.
  - assert (Hle : (Z.abs (r' - r) <= 1)%Z).
    { destruct (Z.gtb_spec (Z.abs (r' - r)) 1); [discriminate | lia]. }
    destruct (r' - r =? 0)%Z eqn:Hd.
    + apply Z.eqb_eq in Hd. assert (r' = r) as -> by lia.
      rewrite Z.eqb_eq. replace (r - r)%Z with 0%Z by lia.
      replace (2 * (c' - c) + rowShift r - rowShift r)%Z
        with (2 * (c' - c))%Z by lia.
      split; intros H; [|nia].
      assert (Hc : (c' - c = 1 \/ c' - c = -1)%Z) by lia.
      destruct Hc as [-> | ->]; reflexivity.
    + apply Z.eqb_neq in Hd.
      assert (Hr : (r' = r + 1 \/ r' = r - 1)%Z) by lia.
      pose proof (rowShift_step r r' Hr) as Hs.
      assert (Hsq : ((r' - r) * (r' - r) = 1)%Z) by (destruct Hr; subst; ring).
      rewrite Hsq. unfold rowShift in *.
      destruct (isOddRow r) eqn:Hodd;
        rewrite orb_true_iff, !Z.eqb_eq;
        destruct (isOddRow r'); split; intros H; try nia; lia.
Qed.

Lemma cellGap_lower (r c r' c' : Z) :
  (r, c) = (r', c') \/ (4 <= cellGap r c r' c')%Z.
Proof.
  unfold cellGap. cbv zeta.
  destruct (Z.eq_dec r r') as [-> | Hr].
  - destruct (Z.eq_dec c c') as [-> | Hc]; [now left | right].
    replace (2 * (c' - c) + rowShift r' - rowShift r')%Z
      with (2 * (c' - c))%Z by lia. nia.
  - right.
    pose proof (Z.square_nonneg (2 * (c' - c) + rowShift r' - rowShift r)).
    destruct (Z_le_gt_dec (Z.abs (r' - r)) 1) as [Hle | Hgt].
    2:{ assert (Hfar : (r' - r <= -2 \/ 2 <= r' - r)%Z) by lia.
        destruct Hfar; nia. }
    assert (Hstep : (r' = r + 1 \/ r' = r - 1)%Z) by lia.
    pose proof (rowShift_step r r' Hstep) as Hs.
    assert (Hsq : ((r' - r) * (r' - r) = 1)%Z)
      by (destruct Hstep; subst; ring).
    rewrite Hsq.
    assert (Hodd : (2 * (c' - c) + rowShift r' - rowShift r <> 0)%Z) by lia.
    nia.
Qed.

Lemma sqrt_eq_iff (a b : R) : 0 <= a -> 0 <= b -> (sqrt a = b <-> a = b * b).
Proof.
  intros Ha Hb. split.
  - intros <-. symmetry. now apply sqrt_sqrt.
  - intros ->. now apply sqrt_square.
Qed.

Lemma sqdist_nonneg (p q : Point) :
  0 <= (px q - px p) ^ 2 + (py q - py p) ^ 2.
Proof. apply Rplus_le_le_0_compat; apply pow2_ge_0. Qed.

(** X1: two cells are adjacent for [isNeighbor] exactly when the centres
    [getBubblePos] gives them are one bubble diameter (2 * radius) apart,
    that is, when their bubbles touch. *)
Theorem neighbors_are_the_touching_cells (width : R) (r c r' c' : Z) :
  isNeighborCell r c r' c' = true
  <-> centreDist (getBubblePos r c width) (getBubblePos r' c' width)
      = 2 * BUBBLE_RADIUS.
Proof.
  unfold centreDist. rewrite cellGap_neighbor.
  rewrite sqrt_eq_iff;
    [|apply sqdist_nonneg | unfold BUBBLE_RADIUS; lra].
  rewrite getBubblePos_sqdist. unfold BUBBLE_RADIUS. split.
  - intros ->. simpl IZR. lra.
  - intros H. apply eq_IZR. simpl IZR. lra.
Qed.

(** X2: bubbles on different cells never overlap: the centres of two
    distinct cells are at least one diameter apart. *)
Theorem distinct_cells_do_not_overlap (width : R) (r c r' c' : Z) :
  (r, c) = (r', c')
  \/ 2 * BUBBLE_RADIUS
     <= centreDist (getBubblePos r c width) (getBubblePos r' c' width).
Proof.
  destruct (cellGap_lower r c r' c') as [E | H]; [now left | right].
  unfold centreDist. rewrite getBubblePos_sqdist.
  apply IZR_le in H. unfold BUBBLE_RADIUS in *.
  replace (2 * 22) with (sqrt (44 * 44)) by (apply sqrt_square; lra).
  apply sqrt_le_1_alt. simpl IZR in H. nra.
Qed.

(** ** Well-formed fields *)

Lemma initCell_shape (width : R) (stg : GameStage) (gapDraw : Z -> Z -> R)
    (colorDraw : Z -> Z -> nat) (clock : Z -> Z -> Z) (r c : Z) (b : Bubble) :
  In b (initCell width stg gapDraw colorDraw clock r c) ->
  id b = IdCell r c (clock r c) /\ wellPlaced width b.
Proof.
  unfold initCell. destruct (Rltb _ _); simpl; [|tauto].
  intros [<- | []]. split; reflexivity.
Qed.

Lemma initGrid_In (width : R) (stg : GameStage) (gapDraw : Z -> Z -> R)
    (colorDraw : Z -> Z -> nat) (clock : Z -> Z -> Z) (g : Game) (b : Bubble) :
  In b (bubbles (initGrid width stg gapDraw colorDraw clock g)) ->
  (0 <= row b < 4)%Z /\ (0 <= col b < colsInRow (row b))%Z /\
  active b = true /\ id b = IdCell (row b) (col b) (clock (row b) (col b)) /\
  wellPlaced width b.
Proof.
  unfold initGrid. cbn [bubbles set_bubbles]. intros Hb.
  apply in_flat_map in Hb as (r & Hr & Hb).
  apply in_flat_map in Hb as (c & Hc & Hb).
  apply zrange_In in Hr, Hc.
  destruct (initCell_In _ _ _ _ _ _ _ _ Hb) as (<- & <- & Ha).
  destruct (initCell_shape _ _ _ _ _ _ _ _ Hb) as (Hid & Hw).
  repeat split; try assumption; lia.
Qed.

Lemma length_flat_map_le (A B : Type) (f : A -> list B) (l : list A) (n : nat) :
  (forall a, (length (f a) <= n)%nat) ->
  (length (flat_map f l) <= length l * n)%nat.
Proof.
  intros H. induction l as [|a l IH]; simpl; [lia|].
  rewrite length_app. specialize (H a). lia.
Qed.

Lemma length_flat_map_single (A B : Type) (f : A -> list B) (l : list A) :
  (forall a, In a l -> length (f a) = 1%nat) ->
  length (flat_map f l) = length l.
Proof.
  induction l as [|a l IH]; simpl; intros H; [reflexivity|].
  rewrite length_app, H, IH; auto.
Qed.

(** X3: whatever the random draws, [initGrid] builds a well-formed field:
    ids and cells without repetition, every bubble live, on rows 0..3,
    in a column its row has, drawn at the grid position of its cell; and
    it never holds more than 4 * 12 - 2 = 46 bubbles. *)
Theorem initGrid_builds_a_well_formed_field (width : R) (stg : GameStage)
    (gapDraw : Z -> Z -> R) (colorDraw : Z -> Z -> nat)
    (clock : Z -> Z -> Z) (g : Game) :
  let bs := bubbles (initGrid width stg gapDraw colorDraw clock g) in
  fieldOK width bs /\
  Forall (fun b => active b = true /\ (0 <= row b < 4)%Z /\
                   (0 <= col b < colsInRow (row b))%Z) bs /\
  (length bs <= 46)%nat.
Proof.
  cbv zeta. split; [|split].
  - split; [|split; [apply cellsUnique_initGrid|split]].
    + unfold initGrid. cbn [bubbles set_bubbles].
      apply NoDup_flat_map_tagged with (tag := fun b => idFirst (id b));
        [| | |apply zrange_NoDup].
      * intros r b Hb. apply in_flat_map in Hb as (c & _ & Hb).
        apply initCell_shape in Hb as [-> _]. reflexivity.
      * intros b1 b2 E. now rewrite E.
      * intros r.
        apply NoDup_flat_map_tagged with (tag := fun b => idSecond (id b));
          [| | |apply zrange_NoDup].
        -- intros c b Hb. apply initCell_shape in Hb as [-> _]. reflexivity.
        -- intros b1 b2 E. now rewrite E.
        -- intros c. unfold initCell. destruct (Rltb _ _); simpl;
             repeat constructor; simpl; tauto.
    + apply Forall_forall. intros b Hb. now apply initGrid_In in Hb.
    + apply Forall_forall. intros b Hb. apply initGrid_In in Hb. lia.
  - apply Forall_forall. intros b Hb. apply initGrid_In in Hb. tauto.
  - unfold initGrid. cbn [bubbles set_bubbles].
    change (zrange 0 4) with [0; 1; 2; 3]%Z. cbn [flat_map].
    rewrite !length_app. cbn [length Nat.add].
    assert (H : forall r n, length (zrange 0 (colsInRow r)) = n ->
              (length (flat_map (initCell width stg gapDraw colorDraw clock r)
                                (zrange 0 (colsInRow r))) <= n)%nat).
    { intros r n <-.
      rewrite <- (Nat.mul_1_r (length (zrange 0 (colsInRow r)))).
      apply length_flat_map_le. intros c. unfold initCell.
      destruct (Rltb _ _); simpl; lia. }
    pose proof (H 0%Z 12%nat eq_refl). pose proof (H 1%Z 11%nat eq_refl).
    pose proof (H 2%Z 12%nat eq_refl). pose proof (H 3%Z 11%nat eq_refl).
    lia.
Qed.

(** X4: when every gap draw is above the stage's gap chance no cell is
    left out: the grid of 4 rows holds exactly 4 * 12 - 2 = 46 bubbles
    (the two odd rows are one column short). *)
Theorem initGrid_without_gaps_has_46_bubbles (width : R) (stg : GameStage)
    (gapDraw : Z -> Z -> R) (colorDraw : Z -> Z -> nat)
    (clock : Z -> Z -> Z) (g : Game) :
  (forall r c, gapChance stg < gapDraw r c) ->
  length (bubbles (initGrid width stg gapDraw colorDraw clock g)) = 46%nat.
Proof.
  intros Hgap. unfold initGrid. cbn [bubbles set_bubbles].
  change (zrange 0 4) with [0; 1; 2; 3]%Z. cbn [flat_map].
  rewrite !length_app. cbn [length Nat.add].
  rewrite !length_flat_map_single; [reflexivity| | | |];
    intros c _; unfold initCell;
    rewrite (proj2 (Rltb_true _ _) (Hgap _ c)); reflexivity.
Qed.

Lemma initGrid_without_gaps_has_46_bubbles_witness :
  length (bubbles (initGrid 1000 sea noGapDraw firstColour fixedClock emptyGame))
  = 46%nat.
Proof.
  apply (initGrid_without_gaps_has_46_bubbles
           1000 sea noGapDraw firstColour fixedClock emptyGame).
  intros r c. unfold gapChance, noGapDraw. lra.
Defined.

Lemma deactivate_ids (ms bs : list Bubble) :
  map id (deactivate ms bs) = map id bs.
Proof.
  unfold deactivate. rewrite map_map. apply map_ext.
  intros b. now destruct (isMatched ms b).
Qed.

Lemma fieldOK_deactivate (width : R) (ms bs : list Bubble) :
  fieldOK width bs -> fieldOK width (deactivate ms bs).
Proof.
  intros (Hid & Hc & Hw & Hr). split; [|split; [|split]].
  - now rewrite deactivate_ids.
  - now apply cellsUnique_deactivate.
  - unfold deactivate. apply Forall_map. eapply Forall_impl; [|exact Hw].
    intros b H. now destruct (isMatched ms b).
  - unfold deactivate. apply Forall_map. eapply Forall_impl; [|exact Hr].
    intros b H. now destruct (isMatched ms b).
Qed.

Lemma poppedLowGame_fieldOK : fieldOK 1000 (bubbles poppedLowGame).
Proof.
  split; [|split; [|split]].
  - simpl. repeat constructor; simpl; intuition discriminate.
  - apply distinctCells_NoDup. reflexivity.
  - repeat constructor.
  - repeat constructor; simpl; lia.
Qed.

(** X5: the ceiling drop keeps a field well-formed, provided the clock
    it stamps the new ids with is ahead of every id in the field. *)
Theorem dropCeiling_keeps_the_field_well_formed (width : R) (clock : Z -> Z)
    (colorDraw : Z -> nat) (g : Game) :
  fieldOK width (bubbles g) ->
  (forall c, olderThan (clock c) (bubbles g)) ->
  fieldOK width (bubbles (dropCeiling width clock colorDraw g)).
Proof.
  intros (Hid & Hc & Hw & Hr) Hold. split; [|split; [|split]].
  - rewrite dropCeiling_bubbles, map_app, !map_map. cbn [newRowBubble id].
    apply NoDup_app.
    + apply Finite.Injective_map_NoDup; [|apply zrange_NoDup].
      intros a b [= _ E]. exact E.
    + rewrite <- map_map with (f := shiftDown width) (g := id).
      rewrite map_map. exact Hid.
    + intros i Hnew Hin.
      apply in_map_iff in Hnew as (c & <- & _).
      apply in_map_iff in Hin as (b & E & Hb).
      specialize (Hold c). unfold olderThan in Hold.
      rewrite Forall_forall in Hold. specialize (Hold b Hb).
      cbn [shiftDown id] in E. rewrite E in Hold. simpl in Hold. lia.
  - apply cellsUnique_dropCeiling; [assumption|].
    intros b Hb _. rewrite Forall_forall in Hr. now apply Hr.
  - rewrite dropCeiling_bubbles. apply Forall_app. split.
    + apply Forall_map, Forall_forall. intros c _. reflexivity.
    + apply Forall_map, Forall_forall. intros b _. reflexivity.
  - rewrite dropCeiling_bubbles. apply Forall_app. split.
    + apply Forall_map, Forall_forall. intros c _. simpl. lia.
    + apply Forall_map. eapply Forall_impl; [|exact Hr].
      intros b H. cbn [shiftDown row] in *. lia.
Qed.

Lemma dropCeiling_keeps_the_field_well_formed_witness :
  fieldOK 1000
    (bubbles (dropCeiling 1000 sampleClock sampleDraw poppedLowGame)).
Proof.
  apply (dropCeiling_keeps_the_field_well_formed
           1000 sampleClock sampleDraw poppedLowGame).
  - exact poppedLowGame_fieldOK.
  - intros c. repeat constructor.
Defined.

(** X6: what raises the game-over flag in [dropCeiling]: the flag is set
    after the drop exactly when it was set before or some bubble of the
    new field, live or popped, has its centre below [anchor.y - 150];
    the drop never clears it. *)
Theorem dropCeiling_flag_rule (width : R) (clock : Z -> Z)
    (colorDraw : Z -> nat) (g : Game) :
  let g' := dropCeiling width clock colorDraw g in
  (isGameOver g' = true
   <-> isGameOver g = true
       \/ exists b, In b (bubbles g') /\ py (anchorPos g) - 150 < y b) /\
  (isGameOver g = true /\ isGameOver g' = true \/ isGameOver g = false).
Proof.
  cbv zeta. split; [apply dropCeiling_flag_iff|].
  destruct (isGameOver g) eqn:E; [left | now right].
  split; [reflexivity|]. apply dropCeiling_flag_iff. now left.
Qed.

(** X7: the drop does not keep bubbles inside the columns of their row:
    a bubble in column 11 of an even row ends on an odd row, still in
    column 11, one past the columns 0..10 that [initGrid] fills and the
    landing scan visits on odd rows. *)
Theorem dropCeiling_pushes_last_column_out_of_range (width : R)
    (clock : Z -> Z) (colorDraw : Z -> nat) (g : Game) (b : Bubble) :
  In b (bubbles g) -> isOddRow (row b) = false -> col b = 11%Z ->
  exists b',
    In b' (bubbles (dropCeiling width clock colorDraw g)) /\
    id b' = id b /\ row b' = (row b + 1)%Z /\
    col b' = colsInRow (row b') /\
    ~ In (cell b') windowCells.
Proof.
  intros Hb Heven Hcol. exists (shiftDown width b).
  assert (Hodd : isOddRow (row b + 1) = true)
    by (rewrite isOddRow_succ, Heven; reflexivity).
  split; [|split; [reflexivity|split; [reflexivity|split]]].
  - rewrite dropCeiling_bubbles. apply in_or_app. right. now apply in_map.
  - cbn [shiftDown col row]. unfold colsInRow. now rewrite Hodd, Hcol.
  - unfold windowCells, cell. cbn [shiftDown col row].
    intros Hin. apply in_flat_map in Hin as (r & _ & Hin).
    apply in_map_iff in Hin as (c & E & Hc). injection E as -> ->.
    apply zrange_In in Hc. unfold colsInRow in Hc. rewrite Hodd in Hc.
    unfold GRID_COLS in Hc. lia.
Qed.

Lemma dropCeiling_pushes_last_column_out_of_range_witness :
  exists b',
    In b' (bubbles (dropCeiling 1000 sampleClock sampleDraw cornerGame)) /\
    id b' = IdCell 0 11 1 /\ row b' = 1%Z /\
    col b' = colsInRow (row b') /\
    ~ In (cell b') windowCells.
Proof.
  apply (dropCeiling_pushes_last_column_out_of_range
           1000 sampleClock sampleDraw cornerGame
           (bubbleAt (IdCell 0 11 1) 0 11 1000 green true)).
  - simpl. tauto.
  - reflexivity.
  - reflexivity.
Defined.

(** ** More on the match engine *)

Lemma scoreGain_nonneg (ms : list Bubble) (c : BubbleColor) :
  (0 <= scoreGain ms c)%Z.
Proof.
  unfold scoreGain. rewrite sumPoints_length.
  change 0%Z with (Qfloor 0). apply Qfloor_resp_le.
  apply Qmult_le_0_compat.
  - change 0%Q with (inject_Z 0). rewrite <- Zle_Qle.
    apply Z.mul_nonneg_nonneg; [lia | destruct c; simpl; lia].
  - unfold comboMultiplier. destruct (3 <? length ms)%nat; discriminate.
Qed.

Lemma deactivate_Forall2 (ms bs : list Bubble) :
  Forall2 (fun b b' => b' = b \/ active b = true /\ b' = setInactive b)
          bs (deactivate ms bs).
Proof.
  unfold deactivate. apply Forall2_map_same. intros b _.
  destruct (isMatched ms b); [|now left].
  destruct (active b) eqn:Ha; [now right|].
  left. destruct b. simpl in *. now subst.
Qed.

(** X8: [checkMatches] always returns for a seed of the field, keeps a
    well-formed field well-formed, does nothing to a bubble except
    switching a live one off, never lowers the score, and leaves the
    slingshot and the game-over flag alone. *)
Theorem checkMatches_only_switches_bubbles_off (width : R) (g : Game)
    (seed : Bubble) :
  fieldOK width (bubbles g) -> In seed (bubbles g) ->
  exists g' r,
    checkMatches seed g = Some (g', r) /\
    fieldOK width (bubbles g') /\
    Forall2 (fun b b' => b' = b \/ active b = true /\ b' = setInactive b)
            (bubbles g) (bubbles g') /\
    (score g <= score g')%Z /\
    (anchorPos g', ballPos g', ballVel g', isPinching g', isFlying g',
     isGameOver g', selectedColor g')
    = (anchorPos g, ballPos g, ballVel g, isPinching g, isFlying g,
       isGameOver g, selectedColor g).
Proof.
  intros Hok Hseed. unfold checkMatches.
  destruct (findMatches_total _ _ Hseed) as [ms ->].
  destruct (3 <=? length ms)%nat.
  - eexists. eexists. split; [reflexivity|].
    cbn [bubbles set_score set_bubbles score anchorPos ballPos ballVel
         isPinching isFlying isGameOver selectedColor].
    split; [now apply fieldOK_deactivate|].
    split; [apply deactivate_Forall2|].
    split; [|reflexivity].
    pose proof (scoreGain_nonneg ms (color seed)). lia.
  - exists g, false. split; [reflexivity|]. split; [assumption|].
    split; [|split; [lia | reflexivity]].
    clear. induction (bubbles g); constructor; auto.
Qed.

Lemma checkMatches_only_switches_bubbles_off_witness :
  exists g' r,
    checkMatches (bubbleAt (IdCell 0 0 1) 0 0 1000 blue true) poppedLowGame
    = Some (g', r) /\
    fieldOK 1000 (bubbles g') /\
    Forall2 (fun b b' => b' = b \/ active b = true /\ b' = setInactive b)
            (bubbles poppedLowGame) (bubbles g') /\
    (score poppedLowGame <= score g')%Z /\
    (anchorPos g', ballPos g', ballVel g', isPinching g', isFlying g',
     isGameOver g', selectedColor g')
    = (anchorPos poppedLowGame, ballPos poppedLowGame, ballVel poppedLowGame,
       isPinching poppedLowGame, isFlying poppedLowGame,
       isGameOver poppedLowGame, selectedColor poppedLowGame).
Proof.
  apply (checkMatches_only_switches_bubbles_off 1000 poppedLowGame).
  - exact poppedLowGame_fieldOK.
  - simpl. tauto.
Defined.

Lemma NoDup_all_equal_length (A : Type) (a : A) (l : list A) :
  NoDup l -> (forall b, In b l -> b = a) -> (length l <= 1)%nat.
Proof.
  intros Hnd Hall. destruct l as [|b [|c l]]; simpl; try lia.
  exfalso. inversion Hnd as [|? ? Hn _]; subst. apply Hn.
  rewrite (Hall b), (Hall c); simpl; auto.
Qed.

(** X9: a cluster is popped once: after [checkMatches] has popped the
    cluster of a seed, a second call on the same (now inactive) seed
    finds it alone, returns [false] and changes nothing. *)
Theorem checkMatches_pops_a_cluster_once (g g' : Game) (seed : Bubble) :
  NoDup (map id (bubbles g)) -> In seed (bubbles g) ->
  checkMatches seed g = Some (g', true) ->
  checkMatches (setInactive seed) g' = Some (g', false).
Proof.
  intros Hnd Hseed Hpop.
  destruct (checkMatches_run g seed Hnd Hseed)
    as (ms & Hrun & Hms & Hiff & Hres).
  rewrite Hpop in Hres.
  destruct (3 <=? length ms)%nat; [|discriminate].
  injection Hres as ->.
  set (bs' := deactivate ms (bubbles g)).
  set (g' := set_score _ _).
  assert (Hbs : bubbles g' = bs') by reflexivity.
  assert (Hnd' : NoDup (map id (bubbles g')))
    by (rewrite Hbs; unfold bs'; now rewrite deactivate_ids).
  assert (Hm : forall b, In b (bubbles g) ->
                 (isMatched ms b = true <-> inCluster (bubbles g) seed b))
    by (intros b Hb; now apply isMatched_cluster).
  assert (Hseed' : In (setInactive seed) (bubbles g')).
  { rewrite Hbs. unfold bs', deactivate. apply in_map_iff. exists seed.
    split; [|assumption].
    rewrite (proj2 (Hm seed Hseed) (cluster_seed _ _)). reflexivity. }
  destruct (checkMatches_run g' (setInactive seed) Hnd' Hseed')
    as (ms' & _ & Hms' & Hiff' & Hres').
  assert (Hone : forall b, In b ms' -> b = setInactive seed).
  { intros b Hb. apply Hiff' in Hb.
    induction Hb as [|b b' _ IH Hin Ha Hcol Hn]; [reflexivity|]. subst b.
    exfalso. rewrite Hbs in Hin. unfold bs', deactivate in Hin.
    apply in_map_iff in Hin as (b0 & E & Hb0).
    destruct (isMatched ms b0) eqn:Hmatched.
    - subst b'. discriminate.
    - subst b'. assert (isMatched ms b0 = true); [|congruence].
      apply Hm; [assumption|].
      apply cluster_step with (b := seed); auto. constructor. }
  pose proof (NoDup_all_equal_length _ _ _ Hms' Hone) as Hlen.
  rewrite Hres'.
  destruct (3 <=? length ms')%nat eqn:E; [|reflexivity].
  apply Nat.leb_le in E. lia.
Qed.

Lemma redGame_pops : checkMatches redSeed redGame = Some (redPopped, true).
Proof. vm_compute. reflexivity. Qed.

Lemma checkMatches_pops_a_cluster_once_witness :
  checkMatches (setInactive redSeed) redPopped = Some (redPopped, false).
Proof.
  apply (checkMatches_pops_a_cluster_once redGame redPopped redSeed).
  - exact redRow_ids.
  - simpl. tauto.
  - exact redGame_pops.
Defined.

(** ** More on the landing *)

Lemma fold_left_flat_map (A B C : Type) (f : A -> C -> A) (h : B -> list C)
    (l : list B) (a : A) :
  fold_left f (flat_map h l) a
  = fold_left (fun a b => fold_left f (h b) a) l a.
Proof.
  revert a. induction l as [|b l IH]; intros a; simpl; [reflexivity|].
  now rewrite fold_left_app, IH.
Qed.

Lemma fold_left_map (A B C : Type) (f : A -> C -> A) (k : B -> C)
    (l : list B) (a : A) :
  fold_left f (map k l) a = fold_left (fun a b => f a (k b)) l a.
Proof.
  revert a. induction l as [|b l IH]; intros a; simpl; [reflexivity|].
  now rewrite IH.
Qed.

Lemma fold_left_same (A B : Type) (f f' : A -> B -> A) (l : list B) (a : A) :
  (forall a b, f a b = f' a b) -> fold_left f l a = fold_left f' l a.
Proof.
  intros H. revert a. induction l as [|b l IH]; intros a; simpl;
    [reflexivity|]. now rewrite H, IH.
Qed.

Lemma scanGrid_flat (g : Game) (width : R) :
  scanGrid g width = fold_left (scanStep g width) windowCells initialBest.
Proof.
  unfold scanGrid, windowCells. rewrite fold_left_flat_map.
  apply fold_left_same. intros best r. unfold scanRow.
  now rewrite fold_left_map.
Qed.

Lemma windowCells_In (r c : Z) :
  In (r, c) windowCells
  <-> (0 <= r < gridRows + 5)%Z /\ (0 <= c < colsInRow r)%Z.
Proof.
  unfold windowCells. rewrite in_flat_map. split.
  - intros (r' & Hr & Hc). apply in_map_iff in Hc as (c' & [= -> ->] & Hc).
    apply zrange_In in Hr, Hc. auto.
  - intros [Hr Hc]. exists r. split; [now apply zrange_In|].
    apply in_map. now apply zrange_In.
Qed.

Lemma scanInv_step (g : Game) (width : R) (scanned : list (Z * Z))
    (best : Best) (rc : Z * Z) :
  scanInv g width scanned best ->
  scanInv g width (scanned ++ [rc]) (scanStep g width best rc).
Proof.
  unfold scanInv, scanStep, scanCell. cbv zeta. intros H.
  fold (ballDist g (getBubblePos (fst rc) (snd rc) width)).
  destruct (occupied (bubbles g) (fst rc) (snd rc)) eqn:Ho.
  - destruct (bestDist best) as [d|].
    + destruct H as (Hin & Hfree & Hpos & Hd & Hmin).
      split; [apply in_or_app; now left|]. repeat split; try assumption.
      intros rc' Hrc' Hfree'. apply in_app_or in Hrc' as [Hrc' | [<- | []]];
        [now apply Hmin | congruence].
    + intros rc' Hrc'. apply in_app_or in Hrc' as [Hrc' | [<- | []]];
        [now apply H | assumption].
  - destruct (bestDist best) as [d|] eqn:Hbest; cbn [closerThan].
    + destruct H as (Hin & Hfree & Hpos & Hd & Hmin).
      destruct (Rltb _ d) eqn:Hlt.
      * apply Rltb_true in Hlt. cbn [bestDist bestRow bestCol bestX bestY].
        split; [apply in_or_app; right; left; now destruct rc|].
        repeat split; try assumption.
        intros rc' Hrc' Hfree'.
        apply in_app_or in Hrc' as [Hrc' | [<- | []]]; [|lra].
        specialize (Hmin rc' Hrc' Hfree'). lra.
      * apply Rltb_false in Hlt. rewrite Hbest.
        split; [apply in_or_app; now left|]. repeat split; try assumption.
        intros rc' Hrc' Hfree'.
        apply in_app_or in Hrc' as [Hrc' | [<- | []]];
          [now apply Hmin | assumption].
    + cbn [bestDist bestRow bestCol bestX bestY].
      split; [apply in_or_app; right; left; now destruct rc|].
      repeat split; try assumption.
      intros rc' Hrc' Hfree'.
      apply in_app_or in Hrc' as [Hrc' | [<- | []]]; [|lra].
      specialize (H rc' Hrc'). congruence.
Qed.

Lemma scanInv_fold (g : Game) (width : R) (rest : list (Z * Z)) :
  forall scanned best,
    scanInv g width scanned best ->
    scanInv g width (scanned ++ rest)
            (fold_left (scanStep g width) rest best).
Proof.
  induction rest as [|rc rest IH]; intros scanned best H; simpl.
  - now rewrite app_nil_r.
  - replace (scanned ++ rc :: rest) with ((scanned ++ [rc]) ++ rest)
      by (rewrite <- app_assoc; reflexivity).
    apply IH. now apply scanInv_step.
Qed.

Lemma scanGrid_inv (g : Game) (width : R) :
  scanInv g width windowCells (scanGrid g width).
Proof.
  rewrite scanGrid_flat.
  apply (scanInv_fold g width windowCells [] initialBest).
  intros rc [].
Qed.

(** X10: when the scan window has a free cell, the landing scan ends on
    a free cell of the window, with the pixel position of that cell, and
    no free cell of the window is nearer to the ball. *)
Theorem landing_scan_finds_the_nearest_free_cell (g : Game) (width : R) :
  windowFull (bubbles g) = false ->
  let best := scanGrid g width in
  exists d,
    bestDist best = Some d /\
    (0 <= bestRow best < gridRows + 5)%Z /\
    (0 <= bestCol best < colsInRow (bestRow best))%Z /\
    occupied (bubbles g) (bestRow best) (bestCol best) = false /\
    mkPoint (bestX best) (bestY best)
    = getBubblePos (bestRow best) (bestCol best) width /\
    d = ballDist g (getBubblePos (bestRow best) (bestCol best) width) /\
    forall r c,
      (0 <= r < gridRows + 5)%Z -> (0 <= c < colsInRow r)%Z ->
      occupied (bubbles g) r c = false ->
      d <= ballDist g (getBubblePos r c width).
Proof.
  intros Hw. cbv zeta.
  pose proof (scanGrid_finds g width Hw) as Hfound.
  pose proof (scanGrid_inv g width) as Hinv.
  generalize dependent (scanGrid g width). intros best Hfound Hinv.
  unfold scanInv in Hinv.
  destruct (bestDist best) as [d|]; [|contradiction].
  destruct Hinv as (Hin & Hfree & Hpos & Hd & Hmin).
  apply windowCells_In in Hin as [Hr Hc].
  exists d.
  split; [reflexivity|]. split; [exact Hr|]. split; [exact Hc|].
  split; [exact Hfree|]. split; [exact Hpos|]. split; [exact Hd|].
  intros r c Hr' Hc' Ho.
  apply (Hmin (r, c)); [apply windowCells_In; split; assumption | exact Ho].
Qed.

Lemma snapGame_window : windowFull (bubbles snapGame) = false.
Proof. lazy. reflexivity. Qed.

Lemma landing_scan_finds_the_nearest_free_cell_witness :
  let best := scanGrid snapGame 1000 in
  exists d,
    bestDist best = Some d /\
    (0 <= bestRow best < gridRows + 5)%Z /\
    (0 <= bestCol best < colsInRow (bestRow best))%Z /\
    occupied (bubbles snapGame) (bestRow best) (bestCol best) = false /\
    mkPoint (bestX best) (bestY best)
    = getBubblePos (bestRow best) (bestCol best) 1000 /\
    d = ballDist snapGame (getBubblePos (bestRow best) (bestCol best) 1000) /\
    forall r c,
      (0 <= r < gridRows + 5)%Z -> (0 <= c < colsInRow r)%Z ->
      occupied (bubbles snapGame) r c = false ->
      d <= ballDist snapGame (getBubblePos r c 1000).
Proof.
  apply (landing_scan_finds_the_nearest_free_cell snapGame 1000).
  exact snapGame_window.
Defined.

Lemma ballDist_zero_cell (g : Game) (width : R) (r c r' c' : Z) :
  ballPos g = getBubblePos r c width ->
  ballDist g (getBubblePos r' c' width) <= 0 ->
  (r', c') = (r, c).
Proof.
  intros Hb Hd. unfold ballDist in Hd. rewrite Hb in Hd.
  pose proof (sqrt_pos ((px (getBubblePos r c width)
                         - px (getBubblePos r' c' width)) ^ 2
                        + (py (getBubblePos r c width)
                           - py (getBubblePos r' c' width)) ^ 2)) as Hpos.
  assert (H0 : sqrt ((px (getBubblePos r c width)
                      - px (getBubblePos r' c' width)) ^ 2
                     + (py (getBubblePos r c width)
                        - py (getBubblePos r' c' width)) ^ 2) = 0) by lra.
  apply sqrt_eq_0 in H0; [|apply sqdist_nonneg].
  rewrite getBubblePos_sqdist in H0.
  destruct (cellGap_lower r' c' r c) as [E | Hgap]; [exact E|].
  apply IZR_le in Hgap. unfold BUBBLE_RADIUS in H0. simpl IZR in Hgap. nra.
Qed.

(** X11: round trip between cells and pixels: a ball whose position is
    exactly the grid position of a free cell of the scan window is
    snapped to that very cell. *)
Theorem landing_scan_round_trip (g : Game) (width : R) (r c : Z) :
  (0 <= r < gridRows + 5)%Z -> (0 <= c < colsInRow r)%Z ->
  occupied (bubbles g) r c = false ->
  ballPos g = getBubblePos r c width ->
  bestRow (scanGrid g width) = r /\ bestCol (scanGrid g width) = c.
Proof.
  intros Hr Hc Ho Hb.
  assert (Hw : windowFull (bubbles g) = false).
  { destruct (windowFull (bubbles g)) eqn:E; [|reflexivity].
    rewrite windowFull_spec in E. rewrite (E r c Hr Hc) in Ho. discriminate. }
  pose proof (scanGrid_finds g width Hw) as Hfound.
  pose proof (scanGrid_inv g width) as Hinv.
  generalize dependent (scanGrid g width). intros best Hfound Hinv.
  unfold scanInv in Hinv.
  destruct (bestDist best) as [d|]; [|contradiction].
  destruct Hinv as (_ & _ & _ & Hd & Hmin).
  assert (Hle : d <= ballDist g (getBubblePos r c width)).
  { apply (Hmin (r, c)); [apply windowCells_In; split; assumption | exact Ho]. }
  assert (Hz : ballDist g (getBubblePos r c width) = 0).
  { unfold ballDist. rewrite Hb.
    apply sqrt_of_square; [lra | ring]. }
  assert (E : (bestRow best, bestCol best) = (r, c)).
  { apply ballDist_zero_cell with (g := g) (width := width); [exact Hb|].
    rewrite <- Hd. lra. }
  injection E as -> ->. split; reflexivity.
Qed.

Lemma landing_scan_round_trip_witness :
  bestRow (scanGrid snapGame 1000) = 2%Z /\
  bestCol (scanGrid snapGame 1000) = 3%Z.
Proof.
  apply (landing_scan_round_trip snapGame 1000 2 3).
  - unfold gridRows. lia.
  - change (colsInRow 2) with 12%Z. lia.
  - reflexivity.
  - reflexivity.
Defined.

Lemma landBall_shape (clock : Z) (g g' : Game) :
  landBall clock g = Some g' ->
  let nb := landedBubble (set_isFlying false g)
              (scanGrid (set_isFlying false g) (IZR (canvasWidth g))) clock in
  (bubbles g' = bubbles g ++ [nb]
   \/ exists ms, bubbles g' = deactivate ms (bubbles g ++ [nb])) /\
  (score g <= score g')%Z /\
  isFlying g' = false /\ ballPos g' = anchorPos g /\ ballVel g' = zeroPoint /\
  (anchorPos g', isPinching g', isGameOver g', selectedColor g',
   canvasWidth g', canvasHeight g')
  = (anchorPos g, isPinching g, isGameOver g, selectedColor g,
     canvasWidth g, canvasHeight g).
Proof.
  unfold landBall. cbv zeta.
  change (canvasWidth (set_isFlying false g)) with (canvasWidth g).
  set (g1 := set_isFlying false g).
  generalize (landedBubble g1 (scanGrid g1 (IZR (canvasWidth g))) clock).
  intros nb. unfold checkMatches.
  destruct (findMatches _ nb) as [ms|]; [|discriminate].
  destruct (3 <=? length ms)%nat; intros [= <-];
    cbn [bubbles set_ballVel set_ballPos set_score set_bubbles score isFlying
         ballPos ballVel anchorPos isPinching isGameOver selectedColor
         canvasWidth canvasHeight g1 set_isFlying].
  - split; [right; now exists ms|].
    pose proof (scoreGain_nonneg ms (color nb)).
    split; [lia|]. repeat split.
  - split; [now left|]. split; [lia|]. repeat split.
Qed.

(** X12: a landing always completes, and whatever it finds (a match or
    not, a free cell or not) the ball is back on the anchor, at rest and
    no longer flying; the field has exactly one more bubble, the old
    bubbles keep their ids in order, and the score does not go down. *)
Theorem landBall_returns_the_ball_to_the_anchor (clock : Z) (g : Game) :
  exists g',
    landBall clock g = Some g' /\
    isFlying g' = false /\ ballPos g' = anchorPos g /\
    ballVel g' = zeroPoint /\
    anchorPos g' = anchorPos g /\ isPinching g' = isPinching g /\
    length (bubbles g') = S (length (bubbles g)) /\
    firstn (length (bubbles g)) (map id (bubbles g')) = map id (bubbles g) /\
    (score g <= score g')%Z.
Proof.
  destruct (landBall_total clock g) as [g' Hrun]. exists g'.
  split; [exact Hrun|].
  destruct (landBall_shape clock g g' Hrun)
    as (Hbs & Hscore & Hf & Hb & Hv & Hrest).
  injection Hrest as Ha Hp _ _ _ _.
  repeat (split; [assumption|]).
  assert (Hids : exists i, map id (bubbles g') = map id (bubbles g) ++ [i]).
  { destruct Hbs as [-> | [ms ->]]; rewrite ?deactivate_ids, map_app;
      eexists; reflexivity. }
  destruct Hids as [i Hids]. split; [|split; [|exact Hscore]].
  - rewrite <- (length_map id (bubbles g')), Hids, length_app, length_map.
    simpl. lia.
  - rewrite Hids, <- (length_map id (bubbles g)), firstn_app, firstn_all.
    rewrite Nat.sub_diag. simpl. now rewrite app_nil_r.
Qed.

(** X13: a landing keeps a well-formed field well-formed when the scan
    window has a free cell and the clock stamped on the new id is ahead
    of every id in the field. *)
Theorem landBall_keeps_the_field_well_formed (clock : Z) (g : Game) :
  fieldOK (IZR (canvasWidth g)) (bubbles g) ->
  windowFull (bubbles g) = false ->
  olderThan clock (bubbles g) ->
  exists g',
    landBall clock g = Some g' /\
    fieldOK (IZR (canvasWidth g)) (bubbles g').
Proof.
  intros (Hid & Hc & Hw & Hr) Hfree Hold.
  destruct (landBall_total clock g) as [g' Hrun]. exists g'.
  split; [exact Hrun|].
  destruct (landBall_shape clock g g' Hrun) as (Hbs & _).
  set (g1 := set_isFlying false g) in *.
  pose proof (scanGrid_finds g1 (IZR (canvasWidth g)) Hfree) as Hfound.
  pose proof (scanGrid_inv g1 (IZR (canvasWidth g))) as Hinv.
  pose proof (scanGrid_free g1 (IZR (canvasWidth g)) Hfound) as Hunocc.
  generalize dependent (scanGrid g1 (IZR (canvasWidth g))).
  intros best Hbs Hfound Hinv Hunocc.
  unfold scanInv in Hinv.
  destruct (bestDist best) as [d|]; [|contradiction].
  destruct Hinv as (Hin & _ & Hpos & _).
  apply windowCells_In in Hin as [Hrow _].
  assert (Hok : fieldOK (IZR (canvasWidth g))
                  (bubbles g ++ [landedBubble g1 best clock])).
  { split; [|split; [|split]].
    - rewrite map_app. apply NoDup_app; [exact Hid | repeat constructor;
        simpl; tauto|].
      intros i Hi [<- | []]. apply in_map_iff in Hi as (b & E & Hb).
      unfold olderThan in Hold. rewrite Forall_forall in Hold.
      specialize (Hold b Hb). rewrite E in Hold. simpl in Hold. lia.
    - unfold cellsUnique. rewrite filter_app, map_app.
      cbn [filter landedBubble active map].
      apply NoDup_app; [exact Hc | repeat constructor; simpl; tauto|].
      intros p Hp [<- | []].
      assert (Hocc : occupied (bubbles g1) (bestRow best) (bestCol best) = true);
        [|congruence].
      apply occupied_true. apply in_map_iff in Hp as (b & E & Hb).
      apply filter_In in Hb as [Hb Ha]. exists b.
      split; [exact Hb | split; [exact Ha |]].
      rewrite E. apply landedBubble_cell.
    - apply Forall_app. split; [exact Hw|]. constructor; [|constructor].
      exact Hpos.
    - apply Forall_app. split; [exact Hr|]. constructor; [|constructor].
      simpl. lia. }
  destruct Hbs as [-> | [ms ->]]; [exact Hok | now apply fieldOK_deactivate].
Qed.

Lemma snapGame_fieldOK : fieldOK (IZR (canvasWidth snapGame)) (bubbles snapGame).
Proof.
  split; [|split; [|split]].
  - simpl. repeat constructor; simpl; tauto.
  - apply distinctCells_NoDup. reflexivity.
  - repeat constructor.
  - repeat constructor; simpl; lia.
Qed.

Lemma landBall_keeps_the_field_well_formed_witness :
  exists g',
    landBall 9000 snapGame = Some g' /\
    fieldOK (IZR (canvasWidth snapGame)) (bubbles g').
Proof.
  apply (landBall_keeps_the_field_well_formed 9000 snapGame).
  - exact snapGame_fieldOK.
  - exact snapGame_window.
  - repeat constructor.
Defined.

(** ** More on the slingshot *)

Lemma handleInput_cases (f : Frame) (g : Game) :
  handleInput f g
  = match handPos f with
    | Some h =>
        if negb (isMenuOpen f) && negb (isGameOver g)
           && Rltb (pinchDist f) PINCH_THRESHOLD && negb (isFlying g)
        then
          if isPinching g then dragBall h g
          else if Rltb (sqrt ((px h - px (ballPos g)) ^ 2
                              + (py h - py (ballPos g)) ^ 2)) 100
               then dragBall h (set_isPinching true g) else g
        else if negb (isMenuOpen f) && negb (isGameOver g) && isPinching g
                && Rleb PINCH_THRESHOLD (pinchDist f)
        then releaseBall f g
        else if negb (isFlying g) && negb (isPinching g) then
          set_ballPos
            (mkPoint (px (ballPos g)
                      + (px (anchorPos g) - px (ballPos g)) * (15 / 100))
                     (py (ballPos g)
                      + (py (anchorPos g) - py (ballPos g)) * (15 / 100))) g
        else g
    | None =>
        if negb (isMenuOpen f) && negb (isGameOver g) && isPinching g
        then releaseBall f g
        else if negb (isFlying g) && negb (isPinching g) then
          set_ballPos
            (mkPoint (px (ballPos g)
                      + (px (anchorPos g) - px (ballPos g)) * (15 / 100))
                     (py (ballPos g)
                      + (py (anchorPos g) - py (ballPos g)) * (15 / 100))) g
        else g
    end.
Proof.
  unfold handleInput. destruct (handPos f) as [h|]; [|reflexivity].
  destruct (negb (isMenuOpen f) && negb (isGameOver g)
            && Rltb (pinchDist f) PINCH_THRESHOLD && negb (isFlying g));
    [|reflexivity].
  destruct (isPinching g) eqn:Hp; cbn [negb andb]; [now rewrite Hp|].
  destruct (Rltb _ 100); [reflexivity | now rewrite Hp].
Qed.

Lemma isFlying_releaseBall_from (f : Frame) (g : Game) :
  isPinching (releaseBall f g) && isFlying (releaseBall f g) = false.
Proof. now rewrite isPinching_releaseBall. Qed.

(** X14: the slingshot is never pinched and in flight at the same time:
    a frame's resize check and input branch keep that, and so does a
    landing. *)
Theorem pinched_and_flying_exclude_each_other (f : Frame) (clock : Z)
    (g : Game) :
  exclusive g ->
  exclusive (frameInput f g) /\
  exists g', landBall clock g = Some g' /\ exclusive g'.
Proof.
  unfold exclusive. intros H. split.
  - assert (Hr : isPinching (resizeCanvas f g) && isFlying (resizeCanvas f g)
                 = false).
    { unfold resizeCanvas.
      destruct (negb (canvasWidth g =? clientWidth f)%Z
                || negb (canvasHeight g =? clientHeight f)%Z); [|exact H].
      cbn [set_anchorPos set_canvas isFlying isPinching].
      destruct (negb (isFlying g) && negb (isPinching g)); exact H. }
    unfold frameInput. generalize dependent (resizeCanvas f g).
    clear H. intros g1 H. rewrite handleInput_cases.
    destruct (handPos f) as [h|].
    + destruct (negb (isMenuOpen f) && negb (isGameOver g1)
                && Rltb (pinchDist f) PINCH_THRESHOLD && negb (isFlying g1))
        eqn:E.
      * apply andb_prop in E as [_ E]. apply negb_true_iff in E.
        destruct (isPinching g1);
          [|destruct (Rltb _ 100)];
          rewrite ?dragBall_pinching, ?dragBall_flying;
          cbn [set_isPinching isFlying isPinching]; rewrite ?E;
          auto using andb_false_r.
      * destruct (negb (isMenuOpen f) && negb (isGameOver g1) && isPinching g1
                  && Rleb PINCH_THRESHOLD (pinchDist f));
          [apply isFlying_releaseBall_from|].
        destruct (negb (isFlying g1) && negb (isPinching g1)); exact H.
    + destruct (negb (isMenuOpen f) && negb (isGameOver g1) && isPinching g1);
        [apply isFlying_releaseBall_from|].
      destruct (negb (isFlying g1) && negb (isPinching g1)); exact H.
  - destruct (landBall_total clock g) as [g' Hrun]. exists g'.
    split; [exact Hrun|].
    destruct (landBall_shape clock g g' Hrun) as (_ & _ & Hf & _).
    rewrite Hf. apply andb_false_r.
Qed.

Lemma pinched_and_flying_exclude_each_other_witness :
  exclusive (frameInput aimFrame restGame) /\
  exists g', landBall 9000 restGame = Some g' /\ exclusive g'.
Proof.
  apply (pinched_and_flying_exclude_each_other aimFrame 9000 restGame).
  reflexivity.
Defined.

(** X15: Resting to Aiming: a ball that is not pinched becomes pinched in
    a frame exactly when a hand is seen pinching less than 100 units
    from the ball while the menu is closed, the game is not over and the
    ball is not flying. *)
Theorem pinch_grabs_the_ball_iff_within_100 (f : Frame) (g : Game) :
  isPinching g = false ->
  (isPinching (handleInput f g) = true
   <-> exists h,
         handPos f = Some h /\ isMenuOpen f = false /\
         isGameOver g = false /\ isFlying g = false /\
         pinchDist f < PINCH_THRESHOLD /\
         centreDist (ballPos g) h < 100).
Proof.
  intros Hp. rewrite handleInput_cases, Hp. cbn [negb andb].
  rewrite !andb_false_r.
  assert (Hease : forall p,
            isPinching (if negb (isFlying g) && true
                        then set_ballPos p g else g) = false)
    by (intros p; destruct (negb (isFlying g) && true); exact Hp).
  destruct (handPos f) as [h|]; cbn [negb andb].
  - destruct (negb (isMenuOpen f) && negb (isGameOver g)
              && Rltb (pinchDist f) PINCH_THRESHOLD && negb (isFlying g))
      eqn:E.
    + apply andb_prop in E as [E Hf]. apply andb_prop in E as [E Ht].
      apply andb_prop in E as [Hm Ho]. rewrite negb_true_iff in Hm, Ho, Hf.
      apply Rltb_true in Ht.
      fold (centreDist (ballPos g) h).
      destruct (Rltb (centreDist (ballPos g) h) 100) eqn:Ed.
      * rewrite dragBall_pinching. apply Rltb_true in Ed.
        split; [intros _; exists h; auto 10 | reflexivity].
      * rewrite Hp. apply Rltb_false in Ed. split; [discriminate|].
        intros (h' & [= <-] & _ & _ & _ & _ & Hd). lra.
    + rewrite Hease. split; [discriminate|].
      intros (h' & _ & Hm & Ho & Hf & Ht & _). apply Rltb_true in Ht.
      rewrite Hm, Ho, Hf, Ht in E. discriminate.
  - rewrite Hease. split; [discriminate|].
    intros (h' & ? & _). discriminate.
Qed.

Lemma pinch_grabs_the_ball_iff_within_100_witness :
  isPinching (handleInput aimFrame restGame) = true
  <-> exists h,
        handPos aimFrame = Some h /\ isMenuOpen aimFrame = false /\
        isGameOver restGame = false /\ isFlying restGame = false /\
        pinchDist aimFrame < PINCH_THRESHOLD /\
        centreDist (ballPos restGame) h < 100.
Proof.
  apply (pinch_grabs_the_ball_iff_within_100 aimFrame restGame).
  reflexivity.
Defined.

Lemma atan2_direction (y x : R) :
  0 < sqrt (x * x + y * y) ->
  cos (Math_atan2 y x) = x / sqrt (x * x + y * y) /\
  sin (Math_atan2 y x) = y / sqrt (x * x + y * y).
Proof.
  intros Hpos.
  assert (Hsq : sqrt (x * x + y * y) * sqrt (x * x + y * y) = x * x + y * y)
    by (apply sqrt_sqrt; nra).
  set (d := sqrt (x * x + y * y)) in *.
  unfold Math_atan2.
  destruct (Rlt_dec 0 x) as [Hx | Hx].
  - assert (Hr : sqrt (1 + Rsqr (y / x)) = d / x).
    { apply sqrt_of_square.
      - apply Rmult_le_pos; [lra|]. left. now apply Rinv_0_lt_compat.
      - unfold Rsqr.
        replace (d / x * (d / x)) with ((d * d) / (x * x)) by (field; lra).
        rewrite Hsq. field. lra. }
    rewrite cos_atan, sin_atan, Hr. split; field; lra.
  - destruct (Rlt_dec x 0) as [Hx' | Hx'].
    + assert (Hr : sqrt (1 + Rsqr (y / x)) = d / - x).
      { apply sqrt_of_square.
        - apply Rmult_le_pos; [lra|]. left. apply Rinv_0_lt_compat. lra.
        - unfold Rsqr.
          replace (d / - x * (d / - x)) with ((d * d) / (x * x))
            by (field; lra).
          rewrite Hsq. field. lra. }
      destruct (Rle_dec 0 y).
      * rewrite neg_cos, neg_sin, cos_atan, sin_atan, Hr. split; field; lra.
      * rewrite cos_minus, sin_minus, cos_PI, sin_PI, cos_atan, sin_atan, Hr.
        split; field; lra.
    + assert (x = 0) as -> by lra.
      assert (Hd : d * d = y * y) by lra.
      destruct (Rlt_dec 0 y) as [Hy | Hy].
      * assert (d = y) as -> by nra.
        rewrite cos_PI2, sin_PI2. split; field; lra.
      * destruct (Rlt_dec y 0) as [Hy' | Hy'].
        -- assert (d = - y) as -> by nra.
           rewrite cos_neg, sin_neg, cos_PI2, sin_PI2. split; field; lra.
        -- assert (y = 0) by lra. subst. nra.
Qed.

Lemma dragBall_formula (h : Point) (g : Game) :
  let d := centreDist (anchorPos g) h in
  (d <= MAX_DRAG_DIST -> ballPos (dragBall h g) = mkPoint (px h) (py h)) /\
  (MAX_DRAG_DIST < d ->
   ballPos (dragBall h g)
   = mkPoint (px (anchorPos g)
              + (px h - px (anchorPos g)) * (MAX_DRAG_DIST / d))
             (py (anchorPos g)
              + (py h - py (anchorPos g)) * (MAX_DRAG_DIST / d))).
Proof.
  cbv zeta. unfold dragBall, centreDist. cbv zeta.
  cbn [set_ballPos ballPos anchorPos px py].
  replace ((px h - px (anchorPos g)) ^ 2 + (py h - py (anchorPos g)) ^ 2)
    with ((px h - px (anchorPos g)) * (px h - px (anchorPos g))
          + (py h - py (anchorPos g)) * (py h - py (anchorPos g))) by ring.
  set (dx := px h - px (anchorPos g)).
  set (dy := py h - py (anchorPos g)).
  destruct (Rltb MAX_DRAG_DIST (sqrt (dx * dx + dy * dy))) eqn:E.
  - apply Rltb_true in E. split; [unfold MAX_DRAG_DIST in *; lra|].
    intros _. cbn [set_ballPos ballPos].
    assert (Hpos : 0 < sqrt (dx * dx + dy * dy))
      by (unfold MAX_DRAG_DIST in E; lra).
    destruct (atan2_direction dy dx Hpos) as [-> ->].
    f_equal; field; lra.
  - apply Rltb_false in E. split; [reflexivity | lra].
Qed.

(** X16: Aiming: while the ball is pinched and the trigger stays
    engaged, the ball follows the hand; a hand farther than 180 from the
    anchor leaves the ball on the segment from the anchor to the hand,
    180 units from the anchor (radial clamp).  In both cases the draw
    distance is min (d, 180), d the distance from anchor to hand. *)
Theorem aiming_clamps_the_ball_radially (f : Frame) (g : Game) (h : Point) :
  isMenuOpen f = false -> isGameOver g = false -> isFlying g = false ->
  isPinching g = true -> handPos f = Some h ->
  pinchDist f < PINCH_THRESHOLD ->
  let g' := handleInput f g in
  let d := centreDist (anchorPos g) h in
  isPinching g' = true /\ isFlying g' = false /\
  (d <= MAX_DRAG_DIST -> ballPos g' = mkPoint (px h) (py h)) /\
  (MAX_DRAG_DIST < d ->
   ballPos g'
   = mkPoint (px (anchorPos g)
              + (px h - px (anchorPos g)) * (MAX_DRAG_DIST / d))
             (py (anchorPos g)
              + (py h - py (anchorPos g)) * (MAX_DRAG_DIST / d))) /\
  stretchDist g' = Rmin d MAX_DRAG_DIST.
Proof.
  intros Hm Ho Hf Hp Hh Ht. cbv zeta.
  rewrite handleInput_cases, Hh, Hm, Ho, Hf, Hp.
  rewrite (proj2 (Rltb_true _ _) Ht). cbn [negb andb].
  destruct (dragBall_formula h g) as [Hin Hout].
  rewrite dragBall_pinching, dragBall_flying.
  split; [exact Hp|]. split; [exact Hf|]. split; [exact Hin|].
  split; [exact Hout|].
  assert (Ha : anchorPos (dragBall h g) = anchorPos g)
    by (unfold dragBall; cbv zeta; now destruct (Rltb _ _)).
  unfold stretchDist. cbv zeta. rewrite Ha.
  set (d := centreDist (anchorPos g) h) in *.
  assert (Hd0 : 0 <= d) by apply sqrt_pos.
  assert (Hdd : d * d
                = (px h - px (anchorPos g)) * (px h - px (anchorPos g))
                  + (py h - py (anchorPos g)) * (py h - py (anchorPos g))).
  { unfold d, centreDist. rewrite sqrt_sqrt; [ring | apply sqdist_nonneg]. }
  destruct (Rle_dec d MAX_DRAG_DIST) as [Hle | Hgt].
  - rewrite (Hin Hle), Rmin_left by assumption. cbn [px py].
    apply sqrt_of_square; [assumption|]. rewrite Hdd. ring.
  - assert (Hlt : MAX_DRAG_DIST < d) by lra.
    rewrite (Hout Hlt), Rmin_right by lra. cbn [px py].
    unfold MAX_DRAG_DIST in *.
    apply sqrt_of_square; [lra|].
    transitivity (180 * 180 * ((px h - px (anchorPos g))
                               * (px h - px (anchorPos g))
                               + (py h - py (anchorPos g))
                                 * (py h - py (anchorPos g))) / (d * d));
      [field; lra|].
    rewrite <- Hdd. field. lra.
Qed.

Lemma aiming_clamps_the_ball_radially_witness :
  let g' := handleInput farFrame aimedGame in
  let d := centreDist (anchorPos aimedGame) (mkPoint 500 700) in
  isPinching g' = true /\ isFlying g' = false /\
  (d <= MAX_DRAG_DIST -> ballPos g' = mkPoint 500 700) /\
  (MAX_DRAG_DIST < d ->
   ballPos g'
   = mkPoint (px (anchorPos aimedGame)
              + (500 - px (anchorPos aimedGame)) * (MAX_DRAG_DIST / d))
             (py (anchorPos aimedGame)
              + (700 - py (anchorPos aimedGame)) * (MAX_DRAG_DIST / d))) /\
  stretchDist g' = Rmin d MAX_DRAG_DIST.
Proof.
  apply (aiming_clamps_the_ball_radially farFrame aimedGame (mkPoint 500 700));
    try reflexivity.
  unfold farFrame, PINCH_THRESHOLD. cbn [pinchDist]. lra.
Defined.



(** X18: input cannot disturb a ball in flight, and an open menu or a
    finished game freezes a pinched ball: in both cases the input branch
    leaves the whole state as it is (the ball neither follows the hand
    nor is released nor eases back). *)
Theorem input_is_ignored_in_flight_and_behind_the_menu (f : Frame) (g : Game) :
  (isFlying g = true /\ isPinching g = false)
  \/ (isPinching g = true /\ (isMenuOpen f = true \/ isGameOver g = true)) ->
  handleInput f g = g.
Proof.
  intros [[Hf Hp] | [Hp Hblock]]; rewrite handleInput_cases.
  - rewrite Hf, Hp. cbn [negb andb]. rewrite !andb_false_r.
    destruct (handPos f); reflexivity.
  - rewrite Hp. cbn [negb]. rewrite !andb_false_r.
    assert (Hc : negb (isMenuOpen f) && negb (isGameOver g) = false).
    { destruct Hblock as [-> | ->]; [reflexivity | apply andb_false_r]. }
    rewrite Hc. cbn [andb]. destruct (handPos f); reflexivity.
Qed.

Lemma input_is_ignored_in_flight_and_behind_the_menu_witness :
  handleInput menuFrame aimedGame = aimedGame.
Proof.
  apply (input_is_ignored_in_flight_and_behind_the_menu menuFrame aimedGame).
  right. split; [reflexivity | left; reflexivity].
Defined.

(** X19: after the resize check the canvas has the size of the
    container and, once that size differs from the canvas, the anchor is
    at (width / 2, height - 220); a ball that is neither pinched nor
    flying is then put on the new anchor, a pinched or flying ball is
    left where it is.  Running the check twice is the same as once. *)
Theorem resizeCanvas_follows_the_container (f : Frame) (g : Game) :
  let g' := resizeCanvas f g in
  canvasWidth g' = clientWidth f /\ canvasHeight g' = clientHeight f /\
  (keepsCanvas g f /\ g' = g
   \/ ~ keepsCanvas g f /\
      anchorPos g' = anchorFor (clientWidth f) (clientHeight f) /\
      ballPos g' = (if negb (isFlying g) && negb (isPinching g)
                    then anchorPos g' else ballPos g)) /\
  resizeCanvas f g' = g'.
Proof.
  cbv zeta.
  assert (Hi : forall g0 : Game,
            canvasWidth g0 = clientWidth f ->
            canvasHeight g0 = clientHeight f -> resizeCanvas f g0 = g0).
  { intros g0 H1 H2. unfold resizeCanvas. now rewrite H1, H2, !Z.eqb_refl. }
  unfold keepsCanvas.
  set (g' := resizeCanvas f g).
  assert (Hg' : g' = resizeCanvas f g) by reflexivity.
  clearbody g'. unfold resizeCanvas in Hg'.
  destruct (negb (canvasWidth g =? clientWidth f)%Z
            || negb (canvasHeight g =? clientHeight f)%Z) eqn:E.
  - cbn [set_anchorPos set_canvas isFlying isPinching anchorPos] in Hg'.
    assert (Hne : ~ (clientWidth f = canvasWidth g
                     /\ clientHeight f = canvasHeight g)).
    { intros [H1 H2]. rewrite H1, H2, !Z.eqb_refl in E. discriminate. }
    destruct (negb (isFlying g) && negb (isPinching g)); subst g'.
    + split; [reflexivity|]. split; [reflexivity|].
      split; [right; split; [exact Hne | split; reflexivity]|].
      apply Hi; reflexivity.
    + split; [reflexivity|]. split; [reflexivity|].
      split; [right; split; [exact Hne | split; reflexivity]|].
      apply Hi; reflexivity.
  - apply orb_false_elim in E as [Ew Eh].
    apply negb_false_iff in Ew, Eh. apply Z.eqb_eq in Ew, Eh. subst g'.
    split; [exact Ew|]. split; [exact Eh|].
    split; [left; auto | now apply Hi].
Qed.

(** ** The flight *)

Lemma Math_ceil_spec (r : R) : r <= IZR (Math_ceil r) < r + 1.
Proof.
  unfold Math_ceil. rewrite opp_IZR.
  destruct (base_Int_part (- r)) as [H1 H2]. lra.
Qed.

Lemma speed_nonneg (v : Point) : 0 <= speed v.
Proof. apply sqrt_pos. Qed.

Lemma speed_sq (v : Point) : speed v * speed v = px v * px v + py v * py v.
Proof.
  unfold speed. rewrite sqrt_sqrt; [ring|].
  apply Rplus_le_le_0_compat; apply pow2_ge_0.
Qed.

Lemma speed_by_squares (v w : Point) :
  px w * px w = px v * px v -> py w = py v -> speed w = speed v.
Proof.
  intros Hx Hy. unfold speed. f_equal. rewrite Hy.
  replace (px w ^ 2) with (px w * px w) by ring. rewrite Hx. ring.
Qed.

Lemma speed_scaled (v : Point) (k : R) :
  0 <= k -> speed (mkPoint (px v * k) (py v * k)) = k * speed v.
Proof.
  intros Hk. unfold speed at 1. cbn [px py].
  apply sqrt_of_square.
  - apply Rmult_le_pos; [assumption | apply speed_nonneg].
  - transitivity (k * k * (speed v * speed v)); [|ring].
    rewrite speed_sq. ring.
Qed.

Lemma stepCount_pos (v : Point) : 0 < speed v -> (1 <= stepCount v)%Z.
Proof.
  intros H. unfold stepCount.
  destruct (Math_ceil_spec (speed v / (BUBBLE_RADIUS * (8 / 10)))) as [Hlo _].
  assert (Hq : 0 < speed v / (BUBBLE_RADIUS * (8 / 10))).
  { apply Rdiv_lt_0_compat; [assumption | unfold BUBBLE_RADIUS; lra]. }
  assert (Hz : (0 < Math_ceil (speed v / (BUBBLE_RADIUS * (8 / 10))))%Z).
  { apply lt_IZR. lra. }
  lia.
Qed.

(** X20: the sub-step count keeps every sub-step short: for a moving
    ball there is at least one sub-step, each moves the ball by
    speed / steps, which is at most 0.8 * BUBBLE_RADIUS, and no smaller
    count would do. *)
Theorem flight_substeps_are_short (v : Point) :
  0 < speed v ->
  let n := stepCount v in
  (1 <= n)%Z /\
  speed (mkPoint (px v / IZR n) (py v / IZR n)) = speed v / IZR n /\
  speed v / IZR n <= BUBBLE_RADIUS * (8 / 10) /\
  IZR (n - 1) * (BUBBLE_RADIUS * (8 / 10)) < speed v.
Proof.
  intros Hv. cbv zeta.
  pose proof (stepCount_pos v Hv) as Hn.
  assert (Hn' : 0 < IZR (stepCount v)) by (apply IZR_lt; lia).
  destruct (Math_ceil_spec (speed v / (BUBBLE_RADIUS * (8 / 10))))
    as [Hlo Hhi].
  fold (stepCount v) in Hlo, Hhi. unfold BUBBLE_RADIUS in *.
  split; [exact Hn|]. split; [|split].
  - replace (mkPoint (px v / IZR (stepCount v)) (py v / IZR (stepCount v)))
      with (mkPoint (px v * / IZR (stepCount v)) (py v * / IZR (stepCount v)))
      by reflexivity.
    rewrite speed_scaled; [unfold Rdiv; ring|].
    left. now apply Rinv_0_lt_compat.
  - apply (Rmult_le_compat_r (22 * (8 / 10))) in Hlo; [|lra].
    replace (speed v / (22 * (8 / 10)) * (22 * (8 / 10))) with (speed v)
      in Hlo by (field; lra).
    apply Rmult_le_reg_r with (IZR (stepCount v)); [assumption|].
    replace (speed v / IZR (stepCount v) * IZR (stepCount v)) with (speed v)
      by (field; lra).
    lra.
  - rewrite minus_IZR.
    apply (Rmult_lt_compat_r (22 * (8 / 10))) in Hhi; [|lra].
    replace ((speed v / (22 * (8 / 10)) + 1) * (22 * (8 / 10)))
      with (speed v + 22 * (8 / 10)) in Hhi by (field; lra).
    lra.
Qed.

Lemma flight_substeps_are_short_witness :
  let n := stepCount (ballVel flyingGame) in
  (1 <= n)%Z /\
  speed (mkPoint (px (ballVel flyingGame) / IZR n)
                 (py (ballVel flyingGame) / IZR n))
  = speed (ballVel flyingGame) / IZR n /\
  speed (ballVel flyingGame) / IZR n <= BUBBLE_RADIUS * (8 / 10) /\
  IZR (n - 1) * (BUBBLE_RADIUS * (8 / 10)) < speed (ballVel flyingGame).
Proof.
  apply (flight_substeps_are_short (ballVel flyingGame)).
  unfold speed. cbn. rewrite (sqrt_of_square _ 10) by lra. lra.
Defined.

Lemma subStep_vel (bs : list Bubble) (width : R) (k : Z) (s : Flight) :
  py (fVel (subStep bs width k s)) = py (fVel s) /\
  px (fVel (subStep bs width k s)) * px (fVel (subStep bs width k s))
  = px (fVel s) * px (fVel s).
Proof.
  unfold subStep. cbv zeta.
  destruct (Rltb _ BUBBLE_RADIUS || Rltb _ _), (Rltb _ BUBBLE_RADIUS);
    cbn [fVel px py]; split; try reflexivity; ring.
Qed.

Lemma subStep_clear (bs : list Bubble) (width : R) (k : Z) (s : Flight) :
  fHit (subStep bs width k s) = false ->
  BUBBLE_RADIUS <= py (fPos (subStep bs width k s)) /\
  touchesBubble bs (fPos (subStep bs width k s)) = false.
Proof.
  unfold subStep. cbv zeta.
  destruct (Rltb (py (fPos s) + py (fVel s) / IZR k) BUBBLE_RADIUS) eqn:E;
    cbn [fHit fPos py]; [discriminate|].
  apply Rltb_false in E. auto.
Qed.

Lemma subStep_walls (bs : list Bubble) (width : R) (k : Z) (s : Flight) :
  2 * BUBBLE_RADIUS <= width ->
  BUBBLE_RADIUS <= px (fPos (subStep bs width k s))
                <= width - BUBBLE_RADIUS.
Proof.
  intros Hw. unfold subStep. cbv zeta.
  set (x1 := px (fPos s) + px (fVel s) / IZR k).
  assert (Hpos : forall b : bool,
    px (fPos (if b
              then mkFlight
                     (mkPoint
                        (if Rltb x1 BUBBLE_RADIUS
                            || Rltb (width - BUBBLE_RADIUS) x1
                         then Rmax BUBBLE_RADIUS
                                (Rmin (width - BUBBLE_RADIUS) x1)
                         else x1)
                        (py (fPos s) + py (fVel s) / IZR k))
                     (mkPoint
                        (if Rltb x1 BUBBLE_RADIUS
                            || Rltb (width - BUBBLE_RADIUS) x1
                         then px (fVel s) * -1 else px (fVel s))
                        (py (fVel s))) true
              else mkFlight
                     (mkPoint
                        (if Rltb x1 BUBBLE_RADIUS
                            || Rltb (width - BUBBLE_RADIUS) x1
                         then Rmax BUBBLE_RADIUS
                                (Rmin (width - BUBBLE_RADIUS) x1)
                         else x1)
                        (py (fPos s) + py (fVel s) / IZR k))
                     (mkPoint
                        (if Rltb x1 BUBBLE_RADIUS
                            || Rltb (width - BUBBLE_RADIUS) x1
                         then px (fVel s) * -1 else px (fVel s))
                        (py (fVel s)))
                     (touchesBubble bs
                        (mkPoint
                           (if Rltb x1 BUBBLE_RADIUS
                               || Rltb (width - BUBBLE_RADIUS) x1
                            then Rmax BUBBLE_RADIUS
                                   (Rmin (width - BUBBLE_RADIUS) x1)
                            else x1)
                           (py (fPos s) + py (fVel s) / IZR k)))))
    = if Rltb x1 BUBBLE_RADIUS || Rltb (width - BUBBLE_RADIUS) x1
      then Rmax BUBBLE_RADIUS (Rmin (width - BUBBLE_RADIUS) x1) else x1)
    by (intros []; reflexivity).
  rewrite Hpos.
  destruct (Rltb x1 BUBBLE_RADIUS) eqn:E1;
    destruct (Rltb (width - BUBBLE_RADIUS) x1) eqn:E2; cbn [orb].
  4:{ apply Rltb_false in E1, E2. lra. }
  all: split; [apply Rmax_l|];
    apply Rmax_lub; [lra | apply Rmin_l].
Qed.

Lemma subSteps_vel (n : nat) (bs : list Bubble) (width : R) (k : Z) :
  forall s,
    py (fVel (subSteps n bs width k s)) = py (fVel s) /\
    px (fVel (subSteps n bs width k s)) * px (fVel (subSteps n bs width k s))
    = px (fVel s) * px (fVel s).
Proof.
  induction n as [|n IH]; intros s; cbn [subSteps]; [now split|].
  destruct (subStep_vel bs width k s) as [Hy Hx].
  destruct (fHit (subStep bs width k s)); [now split|].
  destruct (IH (subStep bs width k s)) as [Hy' Hx']. split; congruence.
Qed.

Lemma subSteps_last (n : nat) (bs : list Bubble) (width : R) (k : Z) :
  forall s, (0 < n)%nat ->
    exists s0, subSteps n bs width k s = subStep bs width k s0.
Proof.
  induction n as [|n IH]; intros s Hn; [lia|]. cbn [subSteps].
  destruct (fHit (subStep bs width k s)); [now exists s|].
  destruct n as [|n]; [now exists s|].
  apply IH. lia.
Qed.

Lemma subSteps_no_hit (bs : list Bubble) (width : R) (k : Z) (s : Flight) :
  (1 <= k)%Z ->
  let s' := subSteps (Z.to_nat k) bs width k s in
  fHit s' = false ->
  BUBBLE_RADIUS <= py (fPos s') /\ touchesBubble bs (fPos s') = false /\
  (2 * BUBBLE_RADIUS <= width ->
   BUBBLE_RADIUS <= px (fPos s') <= width - BUBBLE_RADIUS).
Proof.
  intros Hk. cbv zeta.
  destruct (subSteps_last (Z.to_nat k) bs width k s ltac:(lia)) as [s0 ->].
  intros Hhit. destruct (subStep_clear bs width k s0 Hhit) as [Hy Ht].
  split; [exact Hy|]. split; [exact Ht|]. apply subStep_walls.
Qed.

Lemma resetBall_fields (g : Game) :
  isFlying (resetBall g) = false /\ ballPos (resetBall g) = anchorPos g /\
  ballVel (resetBall g) = zeroPoint /\ bubbles (resetBall g) = bubbles g /\
  score (resetBall g) = score g.
Proof. repeat split. Qed.

Lemma speed_zeroPoint : speed zeroPoint = 0.
Proof.
  unfold speed, zeroPoint. cbn [px py]. apply sqrt_of_square; [lra | ring].
Qed.

(** X21: a flying, moving ball that is still flying after the physics
    step of a frame has been slowed by friction to exactly 0.998 of its
    speed (the side walls reflect it without loss), overlaps no live
    bubble, is not above the top boundary nor below the bottom of the
    canvas, lies between the side walls when the canvas is at least one
    diameter wide, and the field and the score are untouched. *)
Theorem ball_still_in_flight_is_clear_and_slower (t : R) (clock : Z)
    (g g' : Game) :
  isFlying g = true -> 0 < speed (ballVel g) ->
  flightStep t clock g = Some g' -> isFlying g' = true ->
  speed (ballVel g') = FRICTION * speed (ballVel g) /\
  touchesBubble (bubbles g) (ballPos g') = false /\
  BUBBLE_RADIUS <= py (ballPos g') <= IZR (canvasHeight g) /\
  (2 * BUBBLE_RADIUS <= IZR (canvasWidth g) ->
   BUBBLE_RADIUS <= px (ballPos g') <= IZR (canvasWidth g) - BUBBLE_RADIUS) /\
  bubbles g' = bubbles g /\ score g' = score g.
Proof.
  intros Hf Hv Hrun Hstill. unfold flightStep in Hrun. rewrite Hf in Hrun.
  destruct (Rltb 5000 (t - flightStartTime g)).
  { injection Hrun as <-. discriminate. }
  cbv zeta in Hrun.
  pose proof (stepCount_pos (ballVel g) Hv) as Hk.
  pose proof (subSteps_no_hit (bubbles g) (IZR (canvasWidth g))
                (stepCount (ballVel g))
                (mkFlight (ballPos g) (ballVel g) false) Hk) as Hclear.
  pose proof (subSteps_vel (Z.to_nat (stepCount (ballVel g))) (bubbles g)
                (IZR (canvasWidth g)) (stepCount (ballVel g))
                (mkFlight (ballPos g) (ballVel g) false)) as [Hvy Hvx].
  cbv zeta in Hclear. cbn [fVel] in Hvy, Hvx.
  set (s := subSteps _ _ _ _ _) in *.
  destruct (fHit s) eqn:Hhit.
  - exfalso.
    destruct (landBall _ _) as [g2|] eqn:Hland; [|discriminate].
    destruct (landBall_shape _ _ _ Hland) as (_ & _ & Hfl & _).
    destruct (Rltb _ _); injection Hrun as <-;
      [discriminate | congruence].
  - destruct (Hclear eq_refl) as (Hy & Ht & Hx).
    cbn [canvasHeight ballPos set_ballVel set_ballPos] in Hrun.
    destruct (Rltb (IZR (canvasHeight g)) (py (fPos s))) eqn:Hbot;
      injection Hrun as <-; [discriminate|].
    apply Rltb_false in Hbot.
    cbn [ballVel ballPos bubbles score set_ballVel set_ballPos].
    split; [|repeat split; try assumption; apply Hx; assumption].
    unfold GRAVITY. rewrite Rplus_0_r.
    rewrite (speed_scaled (fVel s) FRICTION) by (unfold FRICTION; lra).
    f_equal. now apply speed_by_squares.
Qed.

Ltac decide_all_Rltb :=
  repeat match goal with
         | |- context [Rltb ?a ?b] =>
             first [ rewrite (proj2 (Rltb_false a b)) by lra
                   | rewrite (proj2 (Rltb_true a b)) by lra ]
         end.

Lemma flyingGame_speed : speed (ballVel flyingGame) = 10.
Proof. unfold speed. cbn. apply sqrt_of_square; lra. Qed.

Lemma flyingGame_step :
  exists g', flightStep 100 9000 flyingGame = Some g' /\ isFlying g' = true.
Proof.
  assert (Hk : stepCount (ballVel flyingGame) = 1%Z).
  { unfold stepCount. rewrite flyingGame_speed. unfold Math_ceil.
    rewrite <- (Int_part_spec (- (10 / (BUBBLE_RADIUS * (8 / 10)))) (-1)%Z);
      [reflexivity | unfold BUBBLE_RADIUS; simpl IZR; lra]. }
  unfold flightStep. rewrite Hk.
  change (Z.to_nat 1) with 1%nat.
  cbn [isFlying flyingGame flightStartTime subSteps bubbles canvasWidth
       ballPos ballVel].
  unfold subStep, anchorFor, SLINGSHOT_BOTTOM_OFFSET, BUBBLE_RADIUS.
  cbn [fPos fVel px py touchesBubble existsb].
  decide_all_Rltb.
  cbn [orb fHit fPos fVel px py set_ballVel set_ballPos canvasHeight ballPos].
  change (canvasHeight flyingGame) with 620%Z.
  decide_all_Rltb.
  eexists. split; reflexivity.
Qed.

Lemma ball_still_in_flight_is_clear_and_slower_witness :
  exists g',
    flightStep 100 9000 flyingGame = Some g' /\ isFlying g' = true /\
    speed (ballVel g') = FRICTION * speed (ballVel flyingGame) /\
    touchesBubble (bubbles flyingGame) (ballPos g') = false /\
    BUBBLE_RADIUS <= py (ballPos g') <= IZR (canvasHeight flyingGame) /\
    (2 * BUBBLE_RADIUS <= IZR (canvasWidth flyingGame) ->
     BUBBLE_RADIUS <= px (ballPos g')
                   <= IZR (canvasWidth flyingGame) - BUBBLE_RADIUS) /\
    bubbles g' = bubbles flyingGame /\ score g' = score flyingGame.
Proof.
  destruct flyingGame_step as (g' & Hrun & Hstill). exists g'.
  split; [exact Hrun|]. split; [exact Hstill|].
  apply (ball_still_in_flight_is_clear_and_slower 100 9000 flyingGame g').
  - reflexivity.
  - rewrite flyingGame_speed. lra.
  - exact Hrun.
  - exact Hstill.
Defined.

(** X22: the physics step of a frame always completes for a flying
    ball; it never speeds the ball up; when it ends the flight (landing,
    5 s time-out or exit through the bottom) the ball is on the anchor
    at rest; the field gains at most one bubble; and once more than
    5000 ms have passed since the launch the flight is ended with the
    field and the score untouched. *)
Theorem flight_step_ends_on_the_anchor (t : R) (clock : Z) (g : Game) :
  isFlying g = true ->
  exists g',
    flightStep t clock g = Some g' /\
    (isFlying g' = false ->
     ballPos g' = anchorPos g /\ ballVel g' = zeroPoint) /\
    speed (ballVel g') <= FRICTION * speed (ballVel g) /\
    (length (bubbles g) <= length (bubbles g') <= S (length (bubbles g)))%nat /\
    (5000 < t - flightStartTime g ->
     isFlying g' = false /\ bubbles g' = bubbles g /\ score g' = score g) /\
    anchorPos g' = anchorPos g /\ isPinching g' = isPinching g.
Proof.
  intros Hf. unfold flightStep. rewrite Hf.
  assert (Hfr : 0 <= FRICTION * speed (ballVel g)).
  { apply Rmult_le_pos; [unfold FRICTION; lra | apply speed_nonneg]. }
  destruct (Rltb 5000 (t - flightStartTime g)) eqn:Et.
  { eexists. split; [reflexivity|].
    cbn [resetBall isFlying ballPos ballVel bubbles score anchorPos isPinching
         set_ballVel set_ballPos set_isFlying].
    rewrite speed_zeroPoint. repeat split; auto; lia. }
  apply Rltb_false in Et. cbv zeta.
  pose proof (subSteps_vel (Z.to_nat (stepCount (ballVel g))) (bubbles g)
                (IZR (canvasWidth g)) (stepCount (ballVel g))
                (mkFlight (ballPos g) (ballVel g) false)) as [Hvy Hvx].
  cbn [fVel] in Hvy, Hvx.
  set (s := subSteps _ _ _ _ _) in *.
  set (g1 := set_ballVel _ (set_ballPos (fPos s) g)).
  destruct (fHit s).
  - destruct (landBall_total clock g1) as [g2 Hland]. rewrite Hland.
    destruct (landBall_shape _ _ _ Hland)
      as (Hbs & _ & Hfl & Hb & Hv & Hrest).
    injection Hrest as Ha Hp _ _ _ _.
    assert (Hlen : length (bubbles g2) = S (length (bubbles g))).
    { destruct Hbs as [-> | [ms ->]]; unfold deactivate;
        rewrite ?length_map, length_app; unfold g1;
        cbn [bubbles set_ballVel set_ballPos length]; lia. }
    destruct (Rltb _ _); eexists; (split; [reflexivity|]);
      cbn [resetBall isFlying ballPos ballVel bubbles score anchorPos
           isPinching set_ballVel set_ballPos set_isFlying];
      rewrite ?Hv, ?Hb, ?Ha, ?Hp, ?Hlen, ?speed_zeroPoint;
      repeat split; auto; try lia; try lra.
  - unfold g1. cbn [canvasHeight ballPos set_ballVel set_ballPos].
    destruct (Rltb _ _); eexists; (split; [reflexivity|]);
      cbn [resetBall isFlying ballPos ballVel bubbles score anchorPos
           isPinching set_ballVel set_ballPos set_isFlying].
    + rewrite speed_zeroPoint. repeat split; auto; try lia; try lra.
    + split; [rewrite Hf; discriminate|].
      split; [|repeat split; auto; try lia; lra].
      unfold GRAVITY. rewrite Rplus_0_r.
      rewrite (speed_scaled (fVel s) FRICTION) by (unfold FRICTION; lra).
      right. f_equal. now apply speed_by_squares.
Qed.

Lemma flight_step_ends_on_the_anchor_witness :
  exists g',
    flightStep 100 9000 flyingGame = Some g' /\
    (isFlying g' = false ->
     ballPos g' = anchorPos flyingGame /\ ballVel g' = zeroPoint) /\
    speed (ballVel g') <= FRICTION * speed (ballVel flyingGame) /\
    (length (bubbles flyingGame) <= length (bubbles g')
     <= S (length (bubbles flyingGame)))%nat /\
    (5000 < 100 - flightStartTime flyingGame ->
     isFlying g' = false /\ bubbles g' = bubbles flyingGame
     /\ score g' = score flyingGame) /\
    anchorPos g' = anchorPos flyingGame /\
    isPinching g' = isPinching flyingGame.
Proof.
  apply (flight_step_ends_on_the_anchor 100 9000 flyingGame).
  reflexivity.
Defined.

(** ** More on the targeting test *)

Lemma Math_ceil_le (r : R) (z : Z) : r <= IZR z -> (Math_ceil r <= z)%Z.
Proof.
  intros H. destruct (Math_ceil_spec r) as [_ Hhi].
  assert (Hlt : (Math_ceil r < z + 1)%Z) by (apply lt_IZR; rewrite plus_IZR; lra).
  lia.
Qed.

Lemma zrange_empty (lo hi : Z) : (hi <= lo)%Z -> zrange lo hi = [].
Proof.
  intros H. unfold zrange. replace (Z.to_nat (hi - lo)) with 0%nat by lia.
  reflexivity.
Qed.

(** X23: two edge cases of [isPathClear]: a target at most three sample
    steps (3 * radius / 2 = 33 units) from the anchor is always reported
    clear, whatever lies in between, because no sample is checked; and
    so is any target when every other bubble of the field is inactive. *)
Theorem isPathClear_when_nothing_is_checked (g : Game) (target : Bubble) :
  centreDist (anchorPos g) (mkPoint (x target) (y target))
  <= 3 * (BUBBLE_RADIUS / 2)
  \/ Forall (fun b => active b = false \/ id b = id target) (bubbles g) ->
  isPathClear g target = true.
Proof.
  intros [Hnear | Hlone]; unfold isPathClear; cbv zeta.
  - rewrite zrange_empty; [reflexivity|].
    assert (Hs : (pathSteps g target <= 3)%Z); [|lia].
    unfold pathSteps. cbv zeta. apply Math_ceil_le.
    unfold centreDist in Hnear. cbn [px py] in Hnear.
    replace ((x target - px (anchorPos g)) * (x target - px (anchorPos g))
             + (y target - py (anchorPos g)) * (y target - py (anchorPos g)))
      with ((x target - px (anchorPos g)) ^ 2
            + (y target - py (anchorPos g)) ^ 2) by ring.
    unfold BUBBLE_RADIUS in *. simpl IZR.
    apply Rmult_le_reg_r with (22 / 2); [lra|].
    replace (sqrt ((x target - px (anchorPos g)) ^ 2
                   + (y target - py (anchorPos g)) ^ 2) / (22 / 2) * (22 / 2))
      with (sqrt ((x target - px (anchorPos g)) ^ 2
                  + (y target - py (anchorPos g)) ^ 2)) by (field; lra).
    lra.
  - apply forallb_forall. intros i _. apply negb_true_iff.
    destruct (existsb _ (bubbles g)) eqn:E; [|reflexivity].
    apply existsb_exists in E as (b & Hb & Hblock).
    apply blocksAt_true in Hblock as (Ha & Hid & _).
    rewrite Forall_forall in Hlone.
    destruct (Hlone b Hb); congruence.
Qed.

Lemma isPathClear_when_nothing_is_checked_witness :
  isPathClear loneTargetGame pathTarget = true.
Proof.
  apply (isPathClear_when_nothing_is_checked loneTargetGame pathTarget).
  right. constructor; [right; reflexivity | constructor].
Defined.

(** ** The ceiling timer *)

Lemma ceilingTick_active (f : Frame) (clock : Z -> Z) (colorDraw : Z -> nat)
    (s : Session) (interval : R) :
  dropInterval (gameStage s) = Some interval ->
  isMenuOpen f = false -> isGameOver (game s) = false ->
  ceilingTick f clock colorDraw s
  = if Rltb interval (now f - lastDropTime s)
    then mkSession (dropCeiling (IZR (canvasWidth (game s))) clock colorDraw
                                (game s))
                   (gameStage s) (now f)
    else s.
Proof.
  intros Hi Hm Ho. unfold ceilingTick. rewrite Hi, Hm, Ho. reflexivity.
Qed.

(** X24: the drop check changes nothing in the sea stage, while the menu
    is open and once the game is over; otherwise it drops the ceiling
    exactly when more than the stage's interval (20000 ms on the island,
    10000 ms on the volcano) has passed since the last drop, and a drop
    restarts the timer, so that a later frame within the interval of
    that drop does not drop again. *)
Theorem ceilingTick_drops_once_per_interval (f f2 : Frame) (clock clock2 : Z -> Z)
    (colorDraw colorDraw2 : Z -> nat) (s : Session) :
  let s' := ceilingTick f clock colorDraw s in
  (gameStage s = sea \/ isMenuOpen f = true \/ isGameOver (game s) = true ->
   s' = s) /\
  (forall interval,
     dropInterval (gameStage s) = Some interval ->
     isMenuOpen f = false -> isGameOver (game s) = false ->
     (interval < now f - lastDropTime s ->
      s' = mkSession (dropCeiling (IZR (canvasWidth (game s))) clock colorDraw
                                  (game s))
                     (gameStage s) (now f) /\
      (now f2 - now f <= interval ->
       ceilingTick f2 clock2 colorDraw2 s' = s')) /\
     (now f - lastDropTime s <= interval -> s' = s)).
Proof.
  cbv zeta. split.
  - intros H. unfold ceilingTick.
    destruct (gameStage s); cbn [dropInterval];
      destruct H as [H | [H | H]]; try discriminate; try reflexivity;
      rewrite H; cbn [negb andb]; rewrite ?andb_false_r; reflexivity.
  - intros interval Hi Hm Ho.
    rewrite (ceilingTick_active f clock colorDraw s interval Hi Hm Ho).
    split.
    + intros Hlate. rewrite (proj2 (Rltb_true _ _) Hlate).
      split; [reflexivity|]. intros Hsoon.
      unfold ceilingTick. cbn [gameStage game lastDropTime]. rewrite Hi.
      destruct (negb (isMenuOpen f2) && negb _); [|reflexivity].
      now rewrite (proj2 (Rltb_false _ _) Hsoon).
    + intros Hearly. now rewrite (proj2 (Rltb_false _ _) Hearly).
Qed.

Lemma ceilingTick_drops_once_per_interval_witness :
  ceilingTick lateFrame sampleClock sampleDraw islandSession
  = mkSession (dropCeiling (IZR (canvasWidth (game islandSession)))
                 sampleClock sampleDraw (game islandSession))
              island 25000.
Proof.
  apply (proj2 (ceilingTick_drops_once_per_interval
                  lateFrame lateFrame sampleClock sampleClock
                  sampleDraw sampleDraw islandSession)
           20000 eq_refl eq_refl eq_refl).
  cbn. lra.
Defined.

(** ** The colour palette *)

Lemma hasColor_In (c : BubbleColor) (l : list BubbleColor) :
  hasColor c l = true <-> In c l.
Proof.
  unfold hasColor. rewrite existsb_exists. split.
  - intros (d & Hd & E). apply BubbleColor_eqb_spec in E. now subst.
  - intros H. exists c. split; [assumption | now apply BubbleColor_eqb_spec].
Qed.

Lemma activeColorSet_fold (bs : list Bubble) :
  forall acc,
    NoDup acc ->
    let r := fold_left (fun acc b =>
                          if active b
                          then (if hasColor (color b) acc then acc
                                else acc ++ [color b])
                          else acc) bs acc in
    NoDup r /\
    forall c, In c r
              <-> In c acc \/ exists b, In b bs /\ active b = true /\ color b = c.
Proof.
  induction bs as [|b l IH]; intros acc Hacc; cbn [fold_left].
  - split; [assumption|]. intros c. split; [auto|].
    intros [H | (b & [] & _)]. exact H.
  - set (acc' := if active b
                 then (if hasColor (color b) acc then acc else acc ++ [color b])
                 else acc).
    assert (Hacc' : NoDup acc' /\
              forall c, In c acc'
                        <-> In c acc \/ (active b = true /\ color b = c)).
    { unfold acc'. destruct (active b) eqn:Ha.
      - destruct (hasColor (color b) acc) eqn:Hc.
        + apply hasColor_In in Hc. split; [assumption|]. intros c. split; auto.
          intros [H | [_ <-]]; assumption.
        + split.
          * apply NoDup_app; [assumption | repeat constructor; simpl; tauto|].
            intros c Hc' [<- | []]. apply hasColor_In in Hc'. congruence.
          * intros c. rewrite in_app_iff. simpl. split.
            -- intros [H | [<- | []]]; auto.
            -- intros [H | [_ <-]]; auto.
      - split; [assumption|]. intros c. split; [auto|].
        intros [H | [H _]]; [assumption | discriminate]. }
    destruct Hacc' as [Hnd Hin].
    destruct (IH acc' Hnd) as [Hnd' Hin']. cbv zeta in Hnd', Hin'.
    split; [exact Hnd'|]. intros c. rewrite Hin', Hin. split.
    + intros [[H | [Ha Hc]] | (b' & Hb' & Ha & Hc)]; auto.
      * right. exists b. simpl. auto.
      * right. exists b'. simpl. auto.
    + intros [H | (b' & [<- | Hb'] & Ha & Hc)]; auto.
      right. exists b'. auto.
Qed.

Lemma activeColorSet_spec (bs : list Bubble) :
  NoDup (activeColorSet bs) /\
  forall c, In c (activeColorSet bs)
            <-> exists b, In b bs /\ active b = true /\ color b = c.
Proof.
  destruct (activeColorSet_fold bs [] (NoDup_nil _)) as [Hnd Hin].
  split; [exact Hnd|]. intros c. rewrite (Hin c). split.
  - intros [[] | H]. exact H.
  - auto.
Qed.

(** X25: [updateAvailableColors] shows exactly the colours of the live
    bubbles, each once; it reports the level cleared exactly when the
    field is not empty and has no live bubble; and after it the selected
    colour is the colour of some live bubble whenever there is one (a
    selection that ran out is switched to the first colour present). *)
Theorem updateAvailableColors_keeps_a_playable_colour (g : Game) :
  let u := updateAvailableColors g in
  NoDup (availableColors u) /\
  (forall c, In c (availableColors u)
             <-> exists b, In b (bubbles g) /\ active b = true /\ color b = c) /\
  (levelCleared u = true
   <-> bubbles g <> [] /\ Forall (fun b => active b = false) (bubbles g)) /\
  ((exists b, In b (bubbles g) /\ active b = true) ->
   exists b, In b (bubbles g) /\ active b = true
             /\ color b = selectedAfter g).
Proof.
  cbv zeta.
  destruct (activeColorSet_spec (bubbles g)) as [Hnd Hin].
  assert (Hav : availableColors (updateAvailableColors g)
                = activeColorSet (bubbles g)).
  { unfold updateAvailableColors. cbv zeta.
    destruct (_ && _); [reflexivity|]. destruct (_ && _); reflexivity. }
  assert (Hempty : activeColorSet (bubbles g) = []
                   <-> Forall (fun b => active b = false) (bubbles g)).
  { split.
    - intros E. apply Forall_forall. intros b Hb.
      destruct (active b) eqn:Ha; [|reflexivity].
      assert (In (color b) (activeColorSet (bubbles g)))
        by (apply Hin; eauto).
      rewrite E in H. contradiction.
    - intros Hall. destruct (activeColorSet (bubbles g)) as [|c l] eqn:E;
        [reflexivity|].
      destruct (proj1 (Hin c) (or_introl eq_refl)) as (b & Hb & Ha & _).
      rewrite Forall_forall in Hall. rewrite (Hall b Hb) in Ha. discriminate. }
  rewrite Hav. split; [exact Hnd|]. split; [exact Hin|]. split.
  - unfold updateAvailableColors. cbv zeta.
    destruct (activeColorSet (bubbles g)) as [|c l] eqn:E; cbn [length Nat.eqb andb].
    + destruct (bubbles g) as [|b bs] eqn:Eb; cbn [length Nat.ltb Nat.leb].
      * cbn. split; [discriminate | intros [H _]; now contradiction H].
      * cbn. split; [|reflexivity]. intros _.
        split; [discriminate | now apply Hempty].
    + destruct (_ && _); cbn [levelCleared];
        (split; [discriminate|]); intros [_ H]; apply Hempty in H;
        discriminate.
  - intros (b0 & Hb0 & Ha0).
    assert (Hne : activeColorSet (bubbles g) <> []).
    { intros E. apply Hempty in E. rewrite Forall_forall in E.
      rewrite (E b0 Hb0) in Ha0. discriminate. }
    apply Hin. unfold selectedAfter, updateAvailableColors. cbv zeta.
    destruct (activeColorSet (bubbles g)) as [|c l] eqn:E;
      [now contradiction Hne|].
    cbn [length Nat.eqb andb Nat.ltb Nat.leb hd].
    destruct (hasColor (selectedColor g) (c :: l)) eqn:Hsel;
      cbn [negb andb switchedTo].
    + now apply hasColor_In.
    + now left.
Qed.

(** ** The targeting scan *)

Lemma insertByY_perm (a : Bubble) (l : list Bubble) :
  Permutation (insertByY a l) (a :: l).
Proof.
  induction l as [|e l IH]; cbn [insertByY]; [reflexivity|].
  destruct (Rltb (y a) (y e)); [|reflexivity].
  rewrite IH. apply perm_swap.
Qed.

Lemma sortByY_perm (l : list Bubble) : Permutation (sortByY l) l.
Proof.
  induction l as [|a l IH]; cbn [sortByY fold_right]; [reflexivity|].
  fold (sortByY l). rewrite insertByY_perm. now constructor.
Qed.

Lemma insertByY_descending (a : Bubble) (l : list Bubble) :
  descending l -> descending (insertByY a l).
Proof.
  induction l as [|e l IH]; cbn [insertByY descending].
  - intros _. split; [intros b [] | exact I].
  - intros [He Hl]. destruct (Rltb (y a) (y e)) eqn:E.
    + apply Rltb_true in E. cbn [descending]. split; [|now apply IH].
      intros b Hb.
      apply (Permutation_in _ (insertByY_perm a l)) in Hb as [<- | Hb];
        [lra | now apply He].
    + apply Rltb_false in E. cbn [descending]. split; [|now split].
      intros b [<- | Hb]; [assumption|].
      specialize (He b Hb). lra.
Qed.

Lemma sortByY_descending (l : list Bubble) : descending (sortByY l).
Proof.
  induction l as [|a l IH]; cbn [sortByY fold_right]; [exact I|].
  now apply insertByY_descending.
Qed.

Lemma find_descending (p : Bubble -> bool) (l : list Bubble) (m : Bubble) :
  descending l -> find p l = Some m ->
  forall b, In b l -> p b = true -> y b <= y m.
Proof.
  induction l as [|e l IH]; cbn [find descending]; [discriminate|].
  intros [He Hl] Hf b Hb Hp. destruct (p e) eqn:E.
  - injection Hf as <-. destruct Hb as [<- | Hb]; [lra | now apply He].
  - destruct Hb as [<- | Hb]; [congruence|]. now apply IH.
Qed.

Lemma unvisited_app_le (l : list Bubble) (w v : list BubbleId) :
  (unvisited l (w ++ v) <= unvisited l v)%nat.
Proof.
  induction w as [|i w IH]; [reflexivity|].
  cbn [app]. etransitivity; [apply unvisited_le | exact IH].
Qed.

Lemma unvisited_filter (p : Bubble -> bool) (l : list Bubble)
    (w v : list BubbleId) :
  (forall i, In i v -> In i w) ->
  (forall a, In a l -> p a = true -> In (id a) w /\ ~ In (id a) v) ->
  (unvisited l w + length (filter p l) <= unvisited l v)%nat.
Proof.
  intros Hvw. induction l as [|a l IH]; intros Hp; [reflexivity|].
  assert (IH' := IH (fun b Hb => Hp b (or_intror Hb))).
  rewrite !unvisited_cons. cbn [filter].
  destruct (p a) eqn:Ea.
  - destruct (Hp a (or_introl eq_refl) Ea) as [Hw Hv].
    apply visitedHas_In in Hw. apply visitedHas_notIn in Hv.
    rewrite Hw, Hv. cbn [length]. lia.
  - destruct (visitedHas v (id a)) eqn:Ev.
    + apply visitedHas_In in Ev. apply Hvw, visitedHas_In in Ev.
      rewrite Ev. lia.
    + destruct (visitedHas w (id a)); lia.
Qed.

Lemma neighborsOf_In (A : list Bubble) (clr : BubbleColor)
    (v : list BubbleId) (curr n : Bubble) :
  In n (neighborsOf A clr v curr)
  <-> In n A /\ ~ In (id n) v /\ color n = clr /\ isNeighbor curr n = true.
Proof.
  unfold neighborsOf. rewrite filter_In, !andb_true_iff, negb_true_iff.
  rewrite visitedHas_notIn, BubbleColor_eqb_spec. tauto.
Qed.

Lemma neighborsOf_measure (A : list Bubble) (clr : BubbleColor)
    (v : list BubbleId) (curr : Bubble) :
  (unvisited A (map id (neighborsOf A clr v curr) ++ v)
   + length (neighborsOf A clr v curr) <= unvisited A v)%nat.
Proof.
  unfold neighborsOf at 2. apply unvisited_filter.
  - intros i Hi. apply in_or_app. now right.
  - intros a Ha Hp.
    assert (Hn : In a (neighborsOf A clr v curr))
      by (unfold neighborsOf; apply filter_In; auto).
    split.
    + apply in_or_app. left. now apply in_map.
    + now apply neighborsOf_In in Hn.
Qed.

(** The loop ends before its fuel does, and what it collects are live
    bubbles of the colour scanned, the seed among them. *)
Lemma clusterLoop_total (A : list Bubble) (clr : BubbleColor) :
  forall fuel queue v members,
    (length queue + unvisited A v < fuel)%nat ->
    exists r, clusterLoop fuel A clr queue v members = Some r.
Proof.
  induction fuel as [|fuel IH]; intros queue v members Hlt; [lia|].
  destruct queue as [|curr rest]; cbn [clusterLoop]; [eauto|].
  apply IH. rewrite length_app. cbn [length] in Hlt.
  pose proof (neighborsOf_measure A clr v curr). lia.
Qed.

Lemma clusterLoop_sound (A : list Bubble) (clr : BubbleColor) (s : Bubble) :
  forall fuel queue v members ms v',
    (forall m, In m (members ++ queue) -> In m A /\ color m = clr) ->
    In s (members ++ queue) ->
    (length members + length queue + unvisited A v <= length A)%nat ->
    clusterLoop fuel A clr queue v members = Some (ms, v') ->
    (forall m, In m ms -> In m A /\ color m = clr) /\ In s ms
    /\ (length ms <= length A)%nat.
Proof.
  induction fuel as [|fuel IH]; intros queue v members ms v' Hin Hs Hlen;
    cbn [clusterLoop]; [discriminate|].
  destruct queue as [|curr rest].
  - intros [= <- <-]. rewrite app_nil_r in *. cbn [length] in Hlen.
    split; [assumption|]. split; [assumption | lia].
  - apply IH.
    + intros m Hm. rewrite <- app_assoc in Hm. cbn [app] in Hm.
      change (curr :: rest ++ neighborsOf A clr v curr)
        with ((curr :: rest) ++ neighborsOf A clr v curr) in Hm.
      rewrite app_assoc in Hm. apply in_app_or in Hm as [Hm | Hm];
        [now apply Hin|].
      apply neighborsOf_In in Hm. tauto.
    + rewrite <- app_assoc. cbn [app].
      change (curr :: rest ++ neighborsOf A clr v curr)
        with ((curr :: rest) ++ neighborsOf A clr v curr).
      rewrite app_assoc. apply in_or_app. now left.
    + rewrite !length_app. cbn [length] in *.
      pose proof (neighborsOf_measure A clr v curr). lia.
Qed.

Lemma scanSeed_total (g : Game) (w : R) (A : list Bubble) (clr : BubbleColor)
    (v : list BubbleId) (out : list TargetCandidate) (b : Bubble) :
  exists v' out',
    scanSeed g w A clr (Some (v, out)) b = Some (v', out').
Proof.
  unfold scanSeed. destruct (_ || _); [eauto|].
  destruct (clusterLoop_total A clr (clusterFuel A) [b] (id b :: v) [])
    as [[ms v'] E].
  { unfold clusterFuel. cbn [length].
    pose proof (unvisited_bound A (id b :: v)). lia. }
  rewrite E. destruct (find _ _); eauto.
Qed.

Lemma fold_scanSeed_total (g : Game) (w : R) (A : list Bubble)
    (clr : BubbleColor) (l : list Bubble) :
  forall v out, exists v' out',
    fold_left (scanSeed g w A clr) l (Some (v, out)) = Some (v', out').
Proof.
  induction l as [|b l IH]; intros v out; cbn [fold_left]; [eauto|].
  destruct (scanSeed_total g w A clr v out b) as (v1 & out1 & ->).
  apply IH.
Qed.

Lemma getAllReachableClusters_total (w : R) (g : Game) :
  exists cs, getAllReachableClusters w g = Some cs.
Proof.
  unfold getAllReachableClusters. cbv zeta.
  generalize (uniqueColors (filter active (bubbles g))).
  generalize (@nil TargetCandidate).
  intros out l. revert out.
  induction l as [|clr l IH]; intros out; cbn [fold_left]; [eauto|].
  unfold scanColor at 2.
  destruct (fold_scanSeed_total g w (filter active (bubbles g)) clr
              (filter active (bubbles g)) [] out) as (v' & out' & ->).
  apply IH.
Qed.

(** Whatever holds of every candidate pushed by one seed, and of the
    candidates there before, holds of the whole result. *)
Lemma scan_Forall (P : TargetCandidate -> Prop) (g : Game) (w : R)
    (A : list Bubble) :
  (forall clr v out b v' out',
     In b A -> Forall P out ->
     scanSeed g w A clr (Some (v, out)) b = Some (v', out') ->
     Forall P out') ->
  forall cs, getAllReachableClusters w g = Some cs ->
             A = filter active (bubbles g) -> Forall P cs.
Proof.
  intros Hstep cs Hcs ->. revert Hcs.
  unfold getAllReachableClusters. cbv zeta.
  generalize (uniqueColors (filter active (bubbles g))).
  assert (H0 : Forall P (@nil TargetCandidate)) by constructor.
  revert H0. generalize (@nil TargetCandidate).
  intros out H0 l. revert out H0.
  induction l as [|clr l IH]; intros out H0; cbn [fold_left].
  - now intros [= <-].
  - unfold scanColor at 2.
    assert (Hseeds : forall seeds v out1,
               (forall b, In b seeds -> In b (filter active (bubbles g))) ->
               Forall P out1 ->
               forall v' out',
                 fold_left (scanSeed g w (filter active (bubbles g)) clr)
                           seeds (Some (v, out1)) = Some (v', out') ->
                 Forall P out').
    { induction seeds as [|b seeds IHs]; intros v out1 Hsub H1 v' out';
        cbn [fold_left].
      - now intros [= <- <-].
      - destruct (scanSeed_total g w (filter active (bubbles g)) clr v out1 b)
          as (v1 & o1 & E1).
        rewrite E1. apply IHs.
        + intros b' Hb'. apply Hsub. now right.
        + eapply Hstep; [| exact H1 | exact E1]. apply Hsub. now left. }
    destruct (fold_scanSeed_total g w (filter active (bubbles g)) clr
                (filter active (bubbles g)) [] out) as (v' & out' & E).
    rewrite E. apply IH. eapply Hseeds; [| exact H0 | exact E]. auto.
Qed.

Lemma scanSeed_sound (g : Game) (w : R) (clr : BubbleColor)
    (v : list BubbleId) (out : list TargetCandidate) (b : Bubble)
    (v' : list BubbleId) (out' : list TargetCandidate) :
  In b (filter active (bubbles g)) -> Forall (candidateOK g) out ->
  scanSeed g w (filter active (bubbles g)) clr (Some (v, out)) b
  = Some (v', out') ->
  Forall (candidateOK g) out'.
Proof.
  intros Hb Hout. unfold scanSeed.
  destruct (negb (BubbleColor_eqb (color b) clr)) eqn:Ec; cbn [orb].
  { now intros [= <- <-]. }
  destruct (visitedHas v (id b) && active b) eqn:Ev;
    [now intros [= <- <-]|].
  apply negb_false_iff, BubbleColor_eqb_spec in Ec.
  destruct (clusterLoop _ _ _ _ _ _) as [[ms v1]|] eqn:E; [|discriminate].
  apply (clusterLoop_sound _ _ b) in E as (Hms & Hs & Hlen).
  - destruct (find _ _) as [m|] eqn:Ef; intros [= <- <-]; [|assumption].
    apply Forall_app. split; [assumption|]. constructor; [|constructor].
    apply find_some in Ef as [Hm Hclear].
    apply (Permutation_in _ (sortByY_perm ms)) in Hm.
    destruct (Hms m Hm) as [HmA Hmc]. apply filter_In in HmA as [HmB Hma].
    exists m. unfold candidateFor. cbn. subst clr.
    rewrite Hmc. repeat (split; [solve [auto] |]). split; [|assumption].
    destruct ms; [contradiction | cbn [length]; lia].
  - intros m [<- | []]. auto.
  - now left.
  - cbn [length]. pose proof (unvisited_lt _ v b Hb) as Hlt.
    pose proof (unvisited_bound (filter active (bubbles g)) v).
    apply filter_In in Hb as [_ Ha]. rewrite Ha, andb_true_r in Ev.
    specialize (Hlt Ev). lia.
Qed.

(** X26: [getAllReachableClusters] always returns (its loops end), and
    every candidate it returns stands for a live bubble of the field
    that [isPathClear] accepts: the candidate carries that bubble's id,
    colour, row and column and the points of its colour, and a size
    between 1 and the number of live bubbles. *)
Theorem getAllReachableClusters_returns_hittable_bubbles (w : R) (g : Game) :
  exists cs, getAllReachableClusters w g = Some cs
             /\ Forall (candidateOK g) cs.
Proof.
  destruct (getAllReachableClusters_total w g) as [cs E].
  exists cs. split; [assumption|].
  apply (scan_Forall (candidateOK g) g w (filter active (bubbles g)));
    [| assumption | reflexivity].
  intros clr v out b v' out' Hb Hout. now apply scanSeed_sound.
Qed.
